(** * A search server with TF-IDF ranking and a sliding-window request log

    Shallow embedding of the C++ sources (search_server.h, search_server.cpp,
    string_processing.cpp, document.h, request_queue.h, request_queue.cpp,
    paginator.h).

    Modelling conventions.
    - [std::string] is [string] (a list of bytes); [char] is a signed byte.
    - [int] is [Z] with the two's-complement wrap-around [int_wrap] written at
      every conversion and arithmetic operation; [uint64_t] is [Z] reduced
      modulo 2^64 by [uint64_wrap].
    - [double] is the primitive IEEE-754 binary64 type [float]; [std::log] is
      a function of the C library and is a variable of the development.
    - [std::sort] is a function of the C++ library and is a variable of the
      development as well; what a property assumes of it ([permutes],
      [sorts]) is a hypothesis of that property.
    - [std::map] and [std::set] are [gmap] and [gset]; the sources iterate over
      them in increasing key order, which [sorted_items] and [sorted_words]
      reproduce.
    - a C++ function that may throw returns a [result]; a member function
      that mutates its object returns the object after the call as well.
    - a loop that need not end takes a bound on its iterations and returns
      an [option]; an iterator is the position it points at. *)

From Stdlib Require Import ZArith String Ascii List Floats SpecFloat Uint63 Sorted Permutation Lia.
From stdpp Require Import gmap strings list sorting.
Import ListNotations.

Local Open Scope Z_scope.

(** ** Exceptions *)

Inductive exception :=
| invalid_argument (what : string)
| out_of_range.

Inductive result (A : Type) :=
| Ok (a : A)
| Throw (e : exception).
Arguments Ok {A} a.
Arguments Throw {A} e.

Definition result_bind {A B} (f : A -> result B) (r : result A) : result B :=
  match r with
  | Ok a => f a
  | Throw e => Throw e
  end.

#[global] Instance result_ret : MRet result := fun _ a => Ok a.
#[global] Instance result_mbind : MBind result := fun _ _ f r => result_bind f r.

(** A loop whose body may throw: the first exception ends it. *)
Fixpoint for_each {A B} (body : B -> A -> result B) (range : list A) (b : B) : result B :=
  match range with
  | [] => Ok b
  | a :: range' =>
      match body b a with
      | Ok b' => for_each body range' b'
      | Throw e => Throw e
      end
  end.

(** The error kinds of the specification, as the messages the code throws. *)
Definition InvalidText (e : exception) : Prop :=
  e = invalid_argument "Invalid word in FindTopDocument function"
  \/ e = invalid_argument "Invalid word in FindTopDocuments function"
  \/ e = invalid_argument "Invalid word in MatchDocument function"
  \/ e = invalid_argument "Invalid word in SplitIntoWordsNoStop function"
  \/ e = invalid_argument "Invalid word in ParseQueryWord function"
  \/ e = invalid_argument "invalid word in class constructor".

Definition DuplicateOrInvalidId : exception :=
  invalid_argument "Document id less than zero or already exists".

Definition InvalidMinusWord : exception :=
  invalid_argument "Invalid minus word in ParseQueryWord function".

(** ** Machine integers *)

Definition int_wrap (z : Z) : Z := (z + 2 ^ 31) mod 2 ^ 32 - 2 ^ 31.
Definition uint64_wrap (z : Z) : Z := z mod 2 ^ 64.
Definition INT_MAX : Z := 2 ^ 31 - 1.

(** [int] to [double]: exact. *)
Definition double_of_int (z : Z) : float :=
  if z <? 0 then (- of_uint63 (Uint63.of_Z (- z)))%float
  else of_uint63 (Uint63.of_Z z).

(** [size_t] to [double], for the sizes below 2^63 a container can have. *)
Definition double_of_size (n : nat) : float :=
  of_uint63 (Uint63.of_Z (Z.of_nat n)).

(** ** Ordered iteration *)

Section Sorting.
Context {A : Type} (before : A -> A -> bool).

Fixpoint insert_sorted (x : A) (l : list A) : list A :=
  match l with
  | [] => [x]
  | y :: l' => if before y x then y :: insert_sorted x l' else x :: y :: l'
  end.

(** The increasing order the ordered containers are visited in; [before] is
    the order of the keys (strictly before). The keys of a container are
    distinct, so that the list is the only increasing one. *)
Definition insertion_sort (l : list A) : list A :=
  foldr insert_sorted [] l.
End Sorting.

(** Range-for over a [std::map<int, V>]: increasing keys. *)
Definition sorted_items {V} (m : gmap Z V) : list (Z * V) :=
  insertion_sort (fun a b => fst a <? fst b) (map_to_list m).

(** Range-for over a [std::set<std::string>]: increasing in the byte-wise
    lexicographic order of [std::string]. *)
Definition sorted_words (s : gset string) : list string :=
  insertion_sort String.ltb (elements s).

(** ** string_processing *)

(** [std::isspace] in the "C" locale, which [operator>>] uses to delimit. *)
Definition isspace (c : ascii) : bool :=
  let n := N_of_ascii c in
  ((n =? 32) || ((9 <=? n) && (n <=? 13)))%N.

(** [while (ss >> word) words.push_back(word)]: [word] holds the characters
    read since the last white space. *)
Fixpoint read_words (text : string) (word : string) : list string :=
  match text with
  | EmptyString => match word with EmptyString => [] | _ => [word] end
  | String c text' =>
      if isspace c then
        match word with
        | EmptyString => read_words text' EmptyString
        | _ => word :: read_words text' EmptyString
        end
      else read_words text' (word ++ String c EmptyString)
  end.

Definition SplitIntoWords (text : string) : list string :=
  read_words text EmptyString.

Definition MakeUniqueNonEmptyStrings (strings : list string) : gset string :=
  foldl (fun non_empty_strings str =>
           match str with
           | EmptyString => non_empty_strings
           | _ => {[str]} ∪ non_empty_strings
           end) ∅ strings.

(** ** document.h *)

Definition MAX_RESULT_DOCUMENT_COUNT : Z := 5.

Record Document := {
  doc_id : Z;
  relevance : float;
  rating : Z
}.

Inductive DocumentStatus := ACTUAL | IRRELEVANT | BANNED | REMOVED.

#[global] Instance DocumentStatus_eq_dec : EqDecision DocumentStatus.
Proof. solve_decision. Defined.

(** ** search_server *)

Record DocumentData := {
  data_rating : Z;
  data_status : DocumentStatus
}.

Record SearchServer := {
  stop_words_ : gset string;
  word_to_document_freqs_ : gmap string (gmap Z float);
  documents_ : gmap Z DocumentData;
  document_ids : list Z
}.

Record QueryWord := {
  data : string;
  is_minus : bool;
  is_stop : bool
}.

Record Query := {
  plus_words : gset string;
  minus_words : gset string
}.

(** The value of a [char] (signed, as on x86; with an unsigned [char] the
    test below selects the same bytes). *)
Definition char_value (c : ascii) : Z :=
  let n := Z.of_N (N_of_ascii c) in
  if n <? 128 then n else n - 256.

(** [c >= '\0' && c < ' '] *)
Definition is_control (c : ascii) : bool :=
  (0 <=? char_value c) && (char_value c <? 32).

Definition IsValidWord (word : string) : bool :=
  forallb (fun c => negb (is_control c)) (list_ascii_of_string word).

Definition IsStopWord (server : SearchServer) (word : string) : bool :=
  bool_decide (word ∈ stop_words_ server).

(** The constructor from a container of stop words. *)
Definition MakeSearchServer (stop_words : list string) : result SearchServer :=
  let stop_words_set := MakeUniqueNonEmptyStrings stop_words in
  if forallb IsValidWord (sorted_words stop_words_set) then
    Ok {| stop_words_ := stop_words_set;
          word_to_document_freqs_ := ∅;
          documents_ := ∅;
          document_ids := [] |}
  else Throw (invalid_argument "invalid word in class constructor").

(** The constructor from a text of stop words. *)
Definition MakeSearchServer_text (stop_words_text : string) : result SearchServer :=
  MakeSearchServer (SplitIntoWords stop_words_text).

(** The body of the loop of [SplitIntoWordsNoStop]. *)
Definition no_stop_step (server : SearchServer) (words : list string) (word : string)
  : result (list string) :=
  if negb (IsValidWord word) then
    Throw (invalid_argument "Invalid word in SplitIntoWordsNoStop function")
  else if negb (IsStopWord server word) then Ok (words ++ [word])
  else Ok words.

Definition SplitIntoWordsNoStop (server : SearchServer) (text : string)
  : result (list string) :=
  for_each (no_stop_step server) (SplitIntoWords text) [].

(** The sum is an [int]; its overflow, undefined in C++, is modelled as the
    wrap-around of the machine. The quotient of [int]s truncates. *)
Definition ComputeAverageRating (ratings : list Z) : Z :=
  match ratings with
  | [] => 0
  | _ => Z.quot (foldl (fun sum r => int_wrap (sum + r)) 0 ratings)
                (int_wrap (Z.of_nat (length ratings)))
  end.

Definition GetDocumentCount (server : SearchServer) : Z :=
  int_wrap (Z.of_nat (size (documents_ server))).

Definition GetDocumentId (server : SearchServer) (index : Z) : result Z :=
  if (index <? 0) || (Z.of_nat (length (document_ids server)) <=? index)
  then Throw out_of_range
  else match document_ids server !! Z.to_nat index with
       | Some document_id => Ok document_id
       | None => Throw out_of_range
       end.

(** [word_to_document_freqs_[word][document_id] += inv_word_count] *)
Definition add_word_freq (document_id : Z) (inv_word_count : float)
    (freqs : gmap string (gmap Z float)) (word : string)
  : gmap string (gmap Z float) :=
  let postings := default ∅ (freqs !! word) in
  let term_freq := default 0%float (postings !! document_id) in
  <[word := <[document_id := (term_freq + inv_word_count)%float]> postings]> freqs.

(** [AddDocument] returns what it threw, if anything, and the server as the
    call leaves it. *)
Definition AddDocument (server : SearchServer) (document_id : Z) (document : string)
    (status : DocumentStatus) (ratings : list Z)
  : option exception * SearchServer :=
  if (document_id <? 0) || bool_decide (is_Some (documents_ server !! document_id)) then
    (Some (invalid_argument "Document id less than zero or already exists"), server)
  else
    match SplitIntoWordsNoStop server document with
    | Throw e => (Some e, server)
    | Ok words =>
        let inv_word_count := (1 / double_of_size (length words))%float in
        (None,
         {| stop_words_ := stop_words_ server;
            word_to_document_freqs_ :=
              foldl (add_word_freq document_id inv_word_count)
                    (word_to_document_freqs_ server) words;
            documents_ :=
              <[document_id := {| data_rating := ComputeAverageRating ratings;
                                  data_status := status |}]> (documents_ server);
            document_ids := document_ids server ++ [document_id] |})
    end.

(** [text[0] == '-'] ([text[0]] of an empty string is the terminating null). *)
Definition starts_with_minus (text : string) : bool :=
  match text with
  | String c _ => Ascii.eqb c "-"
  | EmptyString => false
  end.

(** [text.substr(1)] *)
Definition substr_1 (text : string) : string :=
  match text with
  | String _ text' => text'
  | EmptyString => EmptyString
  end.

(** [text.empty()] *)
Definition is_empty (text : string) : bool :=
  match text with
  | EmptyString => true
  | _ => false
  end.

Definition ParseQueryWord (server : SearchServer) (text : string) : result QueryWord :=
  let is_minus := starts_with_minus text in
  let text := if is_minus then substr_1 text else text in
  if negb (IsValidWord text) then
    Throw (invalid_argument "Invalid word in ParseQueryWord function")
  else if is_empty text || starts_with_minus text then
    Throw (invalid_argument "Invalid minus word in ParseQueryWord function")
  else Ok {| data := text; is_minus := is_minus; is_stop := IsStopWord server text |}.

Definition empty_query : Query := {| plus_words := ∅; minus_words := ∅ |}.

(** The body of the loop of [ParseQuery]. *)
Definition parse_step (server : SearchServer) (query : Query) (word : string)
  : result Query :=
  query_word ← ParseQueryWord server word;
  if is_stop query_word then Ok query
  else if is_minus query_word then
    Ok {| plus_words := plus_words query;
          minus_words := {[data query_word]} ∪ minus_words query |}
  else
    Ok {| plus_words := {[data query_word]} ∪ plus_words query;
          minus_words := minus_words query |}.

Definition ParseQuery (server : SearchServer) (text : string) : result Query :=
  for_each (parse_step server) (SplitIntoWords text) empty_query.

(** [std::numeric_limits<double>::epsilon()] *)
Definition epsilon : float := 0x1p-52%float.

(** The comparator of [FindTopDocuments]. *)
Definition by_relevance (lhs rhs : Document) : bool :=
  if (abs (relevance lhs - relevance rhs) <? epsilon)%float
  then rating rhs <? rating lhs
  else (relevance rhs <? relevance lhs)%float.

(** A predicate on the identifier, the status and the rating of a document. *)
Definition DocPredicate := Z -> DocumentStatus -> Z -> bool.

(** The body of the inner loop over the plus-words: one posting. *)
Definition add_posting (server : SearchServer) (doc_pred : DocPredicate)
    (inverse_document_freq : float)
    (document_to_relevance : gmap Z float) (posting : Z * float)
  : result (gmap Z float) :=
  let '(document_id, term_freq) := posting in
  match documents_ server !! document_id with
  | None => Throw out_of_range
  | Some document_info =>
      if doc_pred document_id (data_status document_info) (data_rating document_info)
      then
        let old := default 0%float (document_to_relevance !! document_id) in
        Ok (<[document_id := (old + term_freq * inverse_document_freq)%float]>
              document_to_relevance)
      else Ok document_to_relevance
  end.

(** The body of the last loop of [FindAllDocuments]. *)
Definition push_document (server : SearchServer)
    (matched_documents : list Document) (item : Z * float)
  : result (list Document) :=
  let '(document_id, relevance) := item in
  match documents_ server !! document_id with
  | None => Throw out_of_range
  | Some document_info =>
      Ok (matched_documents ++
          [{| doc_id := document_id; relevance := relevance;
              rating := data_rating document_info |}])
  end.

(** [std::sort(first, last, comp)] on a vector of documents: the vector it
    leaves, for a comparator and the vector it is given. *)
Definition Sort := (Document -> Document -> bool) -> list Document -> list Document.

Section WithLog.
(** [std::log] of the C library. *)
Variable std_log : float -> float.
(** [std::sort] of the C++ library. It is not stable: the order it leaves
    tied documents in is the library's choice. *)
Variable std_sort : Sort.

Definition ComputeWordInverseDocumentFreq (server : SearchServer) (word : string)
  : result float :=
  match word_to_document_freqs_ server !! word with
  | None => Throw out_of_range
  | Some postings =>
      Ok (std_log (double_of_int (GetDocumentCount server) * 1
                   / double_of_size (size postings))%float)
  end.

(** The body of the loop over the plus-words. *)
Definition add_plus_word (server : SearchServer) (doc_pred : DocPredicate)
    (document_to_relevance : gmap Z float) (word : string)
  : result (gmap Z float) :=
  match word_to_document_freqs_ server !! word with
  | None => Ok document_to_relevance
  | Some postings =>
      inverse_document_freq ← ComputeWordInverseDocumentFreq server word;
      for_each (add_posting server doc_pred inverse_document_freq)
               (sorted_items postings) document_to_relevance
  end.

(** The body of the loop over the minus-words. *)
Definition erase_minus_word (server : SearchServer)
    (document_to_relevance : gmap Z float) (word : string) : gmap Z float :=
  match word_to_document_freqs_ server !! word with
  | None => document_to_relevance
  | Some postings =>
      foldl (fun document_to_relevance '(document_id, _) =>
               delete document_id document_to_relevance)
            document_to_relevance (sorted_items postings)
  end.

Definition FindAllDocuments (server : SearchServer) (query : Query)
    (doc_pred : DocPredicate) : result (list Document) :=
  document_to_relevance ←
    for_each (add_plus_word server doc_pred) (sorted_words (plus_words query)) ∅;
  let document_to_relevance :=
    foldl (erase_minus_word server) document_to_relevance
          (sorted_words (minus_words query)) in
  for_each (push_document server) (sorted_items document_to_relevance) [].

(** [FindTopDocuments(raw_query, predict)] *)
Definition FindTopDocuments (server : SearchServer) (raw_query : string)
    (predict : DocPredicate) : result (list Document) :=
  if negb (IsValidWord raw_query) then
    Throw (invalid_argument "Invalid word in FindTopDocument function")
  else
    query ← ParseQuery server raw_query;
    matched_documents ← FindAllDocuments server query predict;
    let matched_documents := std_sort by_relevance matched_documents in
    if MAX_RESULT_DOCUMENT_COUNT <? Z.of_nat (length matched_documents)
    then Ok (take (Z.to_nat MAX_RESULT_DOCUMENT_COUNT) matched_documents)
    else Ok matched_documents.

(** [FindTopDocuments(raw_query, status)] *)
Definition FindTopDocuments_status (server : SearchServer) (raw_query : string)
    (status : DocumentStatus) : result (list Document) :=
  if negb (IsValidWord raw_query) then
    Throw (invalid_argument "Invalid word in FindTopDocuments function")
  else
    FindTopDocuments server raw_query
      (fun document_id doc_status rating => bool_decide (doc_status = status)).
End WithLog.

Definition has_word (server : SearchServer) (word : string) (document_id : Z) : bool :=
  match word_to_document_freqs_ server !! word with
  | None => false
  | Some postings => bool_decide (is_Some (postings !! document_id))
  end.

Definition MatchDocument (server : SearchServer) (raw_query : string) (document_id : Z)
  : result (list string * DocumentStatus) :=
  if negb (IsValidWord raw_query) then
    Throw (invalid_argument "Invalid word in MatchDocument function")
  else
    query ← ParseQuery server raw_query;
    let matched_words :=
      filter (fun word => has_word server word document_id = true)
             (sorted_words (plus_words query)) in
    let matched_words :=
      if existsb (fun word => has_word server word document_id)
                 (sorted_words (minus_words query))
      then [] else matched_words in
    match documents_ server !! document_id with
    | None => Throw out_of_range
    | Some document_info => Ok (matched_words, data_status document_info)
    end.

(** ** request_queue *)

Record QueryResult := {
  timestamp : Z;
  results : Z
}.

Record RequestQueue := {
  requests_ : list QueryResult;
  no_results_requests_ : Z;
  current_time_ : Z
}.

Definition min_in_day_ : Z := 1440.

(** The constructor. *)
Definition MakeRequestQueue : RequestQueue :=
  {| requests_ := []; no_results_requests_ := 0; current_time_ := 0 |}.

Definition GetNoResultRequests (queue : RequestQueue) : Z :=
  no_results_requests_ queue.

(** The [while] loop of [AddRequest]: it returns the deque and the counter. *)
Fixpoint drop_outdated (current_time : Z) (requests : list QueryResult)
    (no_results_requests : Z) : list QueryResult * Z :=
  match requests with
  | [] => ([], no_results_requests)
  | front :: requests' =>
      if min_in_day_ <=? uint64_wrap (current_time - timestamp front) then
        drop_outdated current_time requests'
          (if 0 =? results front then int_wrap (no_results_requests - 1)
           else no_results_requests)
      else (requests, no_results_requests)
  end.

Definition AddRequest (queue : RequestQueue) (results_num : Z) : RequestQueue :=
  let current_time := uint64_wrap (current_time_ queue + 1) in
  let '(requests, no_results_requests) :=
    drop_outdated current_time (requests_ queue) (no_results_requests_ queue) in
  {| requests_ := requests ++ [{| timestamp := current_time; results := results_num |}];
     no_results_requests_ :=
       if 0 =? results_num then int_wrap (no_results_requests + 1)
       else no_results_requests;
     current_time_ := current_time |}.

(** [AddFindRequest(raw_query, document_predicate)], on the server the queue
    refers to: the queue is left as it was when the search throws. *)
Definition AddFindRequest (std_log : float -> float) (std_sort : Sort)
    (server : SearchServer) (queue : RequestQueue) (raw_query : string)
    (document_predicate : DocPredicate)
  : result (list Document) * RequestQueue :=
  match FindTopDocuments std_log std_sort server raw_query document_predicate with
  | Ok result => (Ok result, AddRequest queue (int_wrap (Z.of_nat (length result))))
  | Throw e => (Throw e, queue)
  end.

(** [AddFindRequest(raw_query, status)] *)
Definition AddFindRequest_status (std_log : float -> float) (std_sort : Sort)
    (server : SearchServer) (queue : RequestQueue) (raw_query : string)
    (status : DocumentStatus)
  : result (list Document) * RequestQueue :=
  match FindTopDocuments_status std_log std_sort server raw_query status with
  | Ok result => (Ok result, AddRequest queue (int_wrap (Z.of_nat (length result))))
  | Throw e => (Throw e, queue)
  end.

(** [AddFindRequest(raw_query)]: the status defaults to [ACTUAL]. *)
Definition AddFindRequest_default (std_log : float -> float) (std_sort : Sort)
    (server : SearchServer) (queue : RequestQueue) (raw_query : string)
  : result (list Document) * RequestQueue :=
  match FindTopDocuments_status std_log std_sort server raw_query ACTUAL with
  | Ok result => (Ok result, AddRequest queue (int_wrap (Z.of_nat (length result))))
  | Throw e => (Throw e, queue)
  end.

(** ** paginator.h *)

(** An iterator is the position it points at in its container. A range of
    iterators holds its two ends and its size, a [size_t]. *)
Record IteratorRange := {
  first_ : Z;
  last_ : Z;
  size_ : Z
}.

(** The constructor of [IteratorRange]: [size_] is [distance(first_, last_)]. *)
Definition MakeIteratorRange (first last : Z) : IteratorRange :=
  {| first_ := first; last_ := last; size_ := uint64_wrap (last - first) |}.

Record Paginator := {
  pages_ : list IteratorRange
}.

(** [Paginator::size()] *)
Definition Paginator_size (paginator : Paginator) : Z :=
  uint64_wrap (Z.of_nat (length (pages_ paginator))).

(** The loop of the constructor of [Paginator], from the position [first]
    with [left] elements to go. The loop need not end: [fuel] bounds its
    iterations, and [None] is a loop that has not ended when it is spent. *)
Fixpoint paginate_loop (fuel : nat) (page_size : Z) (first left : Z)
    (pages : list IteratorRange) : option (list IteratorRange) :=
  match fuel with
  | O => if 0 <? left then None else Some pages
  | S fuel' =>
      if 0 <? left then
        let current_page_size := Z.min page_size left in
        let current_page_end := first + current_page_size in
        paginate_loop fuel' page_size current_page_end
          (uint64_wrap (left - current_page_size))
          (pages ++ [MakeIteratorRange first current_page_end])
      else Some pages
  end.

(** The constructor of [Paginator]. *)
Definition MakePaginator (fuel : nat) (first last : Z) (page_size : Z)
  : option Paginator :=
  match paginate_loop fuel page_size first (uint64_wrap (last - first)) [] with
  | Some pages => Some {| pages_ := pages |}
  | None => None
  end.

(** [Paginate(c, page_size)]: [begin(c)] is the position 0 and [end(c)] is
    the position after the last element. *)
Definition Paginate {A} (fuel : nat) (c : list A) (page_size : Z) : option Paginator :=
  MakePaginator fuel 0 (Z.of_nat (length c)) page_size.

(** * The vocabulary of the properties *)

(** [in_order a b]: the comparator does not put [b] strictly before [a]. *)
Definition in_order {A} (before : A -> A -> bool) (a b : A) : Prop := before b a = false.

(** What [std::sort] requires of its comparator, on the elements of the
    range: a strict weak ordering, that is, an irreflexive and transitive
    order in which being unordered is transitive as well. *)
Definition strict_weak_order_on {A} (comp : A -> A -> bool) (l : list A) : Prop :=
  (forall a, In a l -> comp a a = false)
  /\ (forall a b c, In a l -> In b l -> In c l ->
                    comp a b = true -> comp b c = true -> comp a c = true)
  /\ (forall a b c, In a l -> In b l -> In c l ->
                    comp a b = false -> comp b a = false ->
                    comp b c = false -> comp c b = false ->
                    comp a c = false /\ comp c a = false).

(** What is assumed of [std::sort]. It moves the elements of the range and
    neither adds nor loses one, whatever the comparator is. *)
Definition permutes (std_sort : Sort) : Prop :=
  forall comp l, Permutation (std_sort comp l) l.

(** When the comparator is a strict weak ordering on the range, no element
    of the range it leaves is strictly before the element in front of it. *)
Definition sorts (std_sort : Sort) : Prop :=
  forall comp l, strict_weak_order_on comp l -> Sorted (in_order comp) (std_sort comp l).

(** The sign bit is clear, or the value is not a number. *)
Definition sf_plus (x : spec_float) : bool :=
  match x with
  | S754_zero s | S754_infinity s | S754_finite s _ _ => negb s
  | S754_nan => true
  end.

(** Not below zero. *)
Definition sf_not_negative (x : spec_float) : bool :=
  match x with
  | S754_infinity s | S754_finite s _ _ => negb s
  | _ => true
  end.

(** [x < 0] is false. *)
Definition not_negative (x : float) : Prop := (x <? 0)%float = false.

(** Above zero: the sign bit is clear and the value is finite and not zero,
    or infinite. *)
Definition sf_positive (x : spec_float) : bool :=
  match x with
  | S754_infinity s | S754_finite s _ _ => negb s
  | _ => false
  end.

(** [0 < x] is true. *)
Definition above_zero (x : float) : Prop := (0 <? x)%float = true.

(** The double 1.0, as sign, mantissa and exponent. *)
Definition sf_one : spec_float := S754_finite false 4503599627370496 (-52).

(** The double of a positive integer [n] below [2 ^ prec]: a mantissa of
    [prec] digits and an exponent between [1 - prec] and 0. *)
Definition normal_of (n : Z) (m : positive) (e : Z) : Prop :=
  Zpos (digits2_pos m) = prec /\ 1 - prec <= e <= 0 /\ Zpos m = n * 2 ^ (- e).

(** A token that, once a leading ['-'] is stripped, is empty (a lone ['-'])
    or itself starts with ['-']. *)
Definition malformed_minus_token (token : string) : Prop :=
  token = "-"%string \/ exists rest, token = String "-" (String "-" rest).

(** The words a token can put into a query. *)
Definition classified (server : SearchServer) (query : Query) (token : string) : Prop :=
  exists query_word,
    ParseQueryWord server token = Ok query_word
    /\ (is_stop query_word = false ->
        if is_minus query_word then data query_word ∈ minus_words query
        else data query_word ∈ plus_words query).

(** A plus-word of the query is in the document, and the predicate accepts
    the document. *)
Definition matches_plus (server : SearchServer) (doc_pred : DocPredicate)
    (query : Query) (document_id : Z) : Prop :=
  exists word document_info,
    word ∈ plus_words query
    /\ has_word server word document_id = true
    /\ documents_ server !! document_id = Some document_info
    /\ doc_pred document_id (data_status document_info) (data_rating document_info) = true.

(** The predicate is read at the documents of the posting lists of the
    plus-words, and nowhere else. *)
Definition agree_on_plus (server : SearchServer) (query : Query)
    (doc_pred1 doc_pred2 : DocPredicate) : Prop :=
  forall word document_id document_info,
    word ∈ plus_words query ->
    has_word server word document_id = true ->
    documents_ server !! document_id = Some document_info ->
    doc_pred1 document_id (data_status document_info) (data_rating document_info)
    = doc_pred2 document_id (data_status document_info) (data_rating document_info).

(** [later server server']: some sequence of [AddDocument] calls, failed ones
    included, leads from [server] to [server']. *)
Inductive later (server : SearchServer) : SearchServer -> Prop :=
| later_now : later server server
| later_AddDocument server' document_id document status ratings :
    later server server' ->
    later server (snd (AddDocument server' document_id document status ratings)).

(** A server made by a constructor and filled by [AddDocument]. *)
Definition reachable (server : SearchServer) : Prop :=
  exists stop_words server0,
    MakeSearchServer stop_words = Ok server0 /\ later server0 server.

(** The invariant of the index: a posting list is not empty, holds only
    documents of the table, and no term frequency is below zero. *)
Record consistent (server : SearchServer) : Prop := {
  postings_nonempty : forall word postings,
    word_to_document_freqs_ server !! word = Some postings -> postings <> ∅;
  postings_known : forall word postings document_id term_freq,
    word_to_document_freqs_ server !! word = Some postings ->
    postings !! document_id = Some term_freq ->
    is_Some (documents_ server !! document_id);
  postings_above_zero : forall word postings document_id term_freq,
    word_to_document_freqs_ server !! word = Some postings ->
    postings !! document_id = Some term_freq ->
    above_zero term_freq
}.

(** [document_id] is in no posting list. *)
Definition unposted (freqs : gmap string (gmap Z float)) (document_id : Z) : Prop :=
  forall word postings,
    freqs !! word = Some postings -> postings !! document_id = None.

(** What the loop of [AddDocument] keeps true of the index. *)
Definition postings_ok (documents : gmap Z DocumentData)
    (freqs : gmap string (gmap Z float)) : Prop :=
  forall word postings,
    freqs !! word = Some postings ->
    postings <> ∅ /\
    forall id term_freq,
      postings !! id = Some term_freq ->
      is_Some (documents !! id) /\ above_zero term_freq.

(** [ranked a b]: [a] may stand before [b]. Relevances closer than [epsilon]
    tie, and the rating of [a] is then not the lower one; otherwise the
    relevance of [a] is not the lower one. *)
Definition ranked (a b : Document) : bool :=
  if (abs (relevance a - relevance b) <? epsilon)%float
  then rating b <=? rating a
  else negb (relevance a <? relevance b)%float.

(** [a] was recorded before [b]. *)
Definition older (a b : QueryResult) : Prop := timestamp a < timestamp b.

(** At the time [current_time], [request] is less than a day old. *)
Definition in_day (current_time : Z) (request : QueryResult) : Prop :=
  current_time - timestamp request < min_in_day_.

#[global] Instance in_day_dec current_time request :
  Decision (in_day current_time request).
Proof. unfold in_day. apply _. Defined.

(** The requests of a deque that found nothing. *)
Definition count_no_results (requests : list QueryResult) : Z :=
  Z.of_nat (length (filter (fun request => results request = 0) requests)).

(** The invariant of the queue. *)
Record window (queue : RequestQueue) : Prop := {
  window_times : StronglySorted older (requests_ queue);
  window_day : Forall (fun request =>
                         current_time_ queue - min_in_day_ < timestamp request
                         <= current_time_ queue) (requests_ queue);
  window_count : no_results_requests_ queue = count_no_results (requests_ queue);
  window_clock : 0 <= current_time_ queue
}.

(** The queues that [n] calls of [AddFindRequest] can leave, whatever the
    server holds at each call. *)
Inductive recorded (std_log : float -> float) (std_sort : Sort) : nat -> RequestQueue -> Prop :=
| recorded_new : recorded std_log std_sort 0 MakeRequestQueue
| recorded_predicate n queue server raw_query document_predicate :
    recorded std_log std_sort n queue ->
    recorded std_log std_sort (S n)
      (snd (AddFindRequest std_log std_sort server queue raw_query document_predicate))
| recorded_status n queue server raw_query status :
    recorded std_log std_sort n queue ->
    recorded std_log std_sort (S n)
      (snd (AddFindRequest_status std_log std_sort server queue raw_query status)).

(** A word as [operator>>] reads one: not empty, and without white space. *)
Definition is_token (word : string) : Prop :=
  word <> EmptyString
  /\ forall c, In c (list_ascii_of_string word) -> isspace c = false.

(** The term frequency the index holds for a word and a document. *)
Definition term_freq_of (server : SearchServer) (word : string) (document_id : Z)
  : option float :=
  match word_to_document_freqs_ server !! word with
  | Some postings => postings !! document_id
  | None => None
  end.

(** What a plus-word adds to the relevance of a document: the product of the
    term frequency and of the inverse document frequency of the word, when
    the document has the word and the predicate accepts the document. *)
Definition add_term (std_log : float -> float) (server : SearchServer)
    (doc_pred : DocPredicate) (document_id : Z) (relevance : option float)
    (word : string) : option float :=
  match word_to_document_freqs_ server !! word with
  | Some postings =>
      match postings !! document_id, documents_ server !! document_id with
      | Some term_freq, Some document_info =>
          if doc_pred document_id (data_status document_info)
                      (data_rating document_info)
          then Some (default 0%float relevance
                     + term_freq
                       * std_log (double_of_int (GetDocumentCount server) * 1
                                  / double_of_size (size postings)))%float
          else relevance
      | _, _ => relevance
      end
  | None => relevance
  end.

(** The relevance of a document for a query, document by document: the sum
    of the terms of the plus-words, from 0 and in the increasing order of the
    words; none when no plus-word adds a term. *)
Definition relevance_of (std_log : float -> float) (server : SearchServer)
    (doc_pred : DocPredicate) (query : Query) (document_id : Z) : option float :=
  foldl (add_term std_log server doc_pred document_id) None
        (sorted_words (plus_words query)).

(** The document matches the query under the predicate: it has a plus-word,
    the predicate accepts it, and it has no minus-word. *)
Definition matches (server : SearchServer) (doc_pred : DocPredicate)
    (query : Query) (document_id : Z) : Prop :=
  matches_plus server doc_pred query document_id
  /\ forall word, word ∈ minus_words query ->
                  has_word server word document_id = false.

(** The requests a queue holds for the result counts [counts], recorded one
    tick each after the time [time]. *)
Fixpoint stamped (time : Z) (counts : list Z) : list QueryResult :=
  match counts with
  | [] => []
  | count :: counts' =>
      {| timestamp := time + 1; results := count |} :: stamped (time + 1) counts'
  end.

(** The elements of a container between the ends of a range, as
    [for (it = range.begin(); it != range.end(); ++it)] visits them. *)
Definition range_items {A} (c : list A) (range : IteratorRange) : list A :=
  take (Z.to_nat (last_ range - first_ range)) (drop (Z.to_nat (first_ range)) c).

(** Ranges that follow one another from [first] to [last], none empty. *)
Fixpoint consecutive (first last : Z) (pages : list IteratorRange) : Prop :=
  match pages with
  | [] => first = last
  | page :: pages' =>
      first_ page = first /\ first < last_ page
      /\ consecutive (last_ page) last pages'
  end.

(** * Example servers and queues *)

(** [std::log], correctly rounded, at the arguments the examples evaluate it
    at; the table holds zero elsewhere. *)
Definition example_log (x : float) : float :=
  if (x =? 1)%float then 0%float
  else if (x =? 1.5)%float then 0x1.9f323ecbf984cp-2%float
  else if (x =? 2)%float then 0x1.62e42fefa39efp-1%float
  else if (x =? 3)%float then 0x1.193ea7aad030bp+0%float
  else 0%float.

(** A [std::sort] for the examples: the insertion sort. No two documents
    tie in the lists the examples sort, so that a list has one sorted
    order. *)
Definition example_sort : Sort := insertion_sort.

Definition any_document : DocPredicate := fun _ _ _ => true.

(** A server with the stop words "in" and "the" and no document. *)
Definition new_server : SearchServer :=
  {| stop_words_ := {["in"%string; "the"%string]};
     word_to_document_freqs_ := ∅;
     documents_ := ∅;
     document_ids := [] |}.

Definition added (server : SearchServer) (document_id : Z) (document : string)
    (status : DocumentStatus) (ratings : list Z) : SearchServer :=
  snd (AddDocument server document_id document status ratings).

(** Three documents; "cat" is in two of them. *)
Definition cat_server : SearchServer :=
  added (added (added new_server
    0 "cat dog" ACTUAL [5])
    1 "cat cat mouse" ACTUAL [5])
    2 "mouse in the house" BANNED [1; 2; 3].

(** Six documents; "a" is in three of them, with the term frequencies
    1, 1 - 2^-53 (six times 1/6) and 1 - 3 * 2^-53 (fourteen times 1/14). *)
Definition chain_server : SearchServer :=
  added (added (added (added (added (added new_server
    0 "a" ACTUAL [1])
    1 "a a a a a a" ACTUAL [2])
    2 "a a a a a a a a a a a a a a" ACTUAL [3])
    3 "b" ACTUAL [0])
    4 "b" ACTUAL [0])
    5 "b" ACTUAL [0].

(** "cat" on the three documents: two results, the document with two of
    three words "cat" before the document with one of two. *)
Definition cat_results : list Document :=
  [ {| doc_id := 1; relevance := 0x1.14cc29dd51032p-2%float; rating := 5 |};
    {| doc_id := 0; relevance := 0x1.9f323ecbf984cp-3%float; rating := 5 |} ].

Definition chain_query : Query :=
  {| plus_words := {["a"%string]}; minus_words := ∅ |}.

(** "a" on the six documents, as [FindAllDocuments] finds them: the
    relevances of documents 0, 1 and 2 are [std_log 2], one unit in the last
    place below it, and two units below it, and a unit in the last place is
    2^-53 there, half of epsilon. *)
Definition chain_documents : list Document :=
  [ {| doc_id := 0; relevance := 0x1.62e42fefa39efp-1%float; rating := 1 |};
    {| doc_id := 1; relevance := 0x1.62e42fefa39eep-1%float; rating := 2 |};
    {| doc_id := 2; relevance := 0x1.62e42fefa39edp-1%float; rating := 3 |} ].

(** "cat -dog" on the three documents: document 1 only. *)
Definition cat_not_dog_results : list Document :=
  [ {| doc_id := 1; relevance := 0x1.14cc29dd51032p-2%float; rating := 5 |} ].

Definition cat_not_dog_query : Query :=
  {| plus_words := {["cat"%string]}; minus_words := {["dog"%string]} |}.

Definition cat_and_not_cat_query : Query :=
  {| plus_words := {["cat"%string]}; minus_words := {["cat"%string]} |}.

Definition silent_server : SearchServer := added cat_server 7 "in the  the" ACTUAL [].

Definition cat_mouse_not_dog_query : Query :=
  {| plus_words := {["cat"%string; "mouse"%string]};
     minus_words := {["dog"%string]} |}.

(** Two searches on the three documents: "bird" finds nothing, "cat" finds
    two documents. *)
Definition two_requests : RequestQueue :=
  snd (AddFindRequest_status example_log example_sort cat_server
         (snd (AddFindRequest example_log example_sort cat_server MakeRequestQueue
                 "bird" any_document))
         "cat" ACTUAL).

(** A day of requests: the first finds nothing, the 1439 that follow find
    one document each. *)
Definition one_day : RequestQueue :=
  Nat.iter 1439 (fun queue => AddRequest queue 1) (AddRequest MakeRequestQueue 0).

(** * Properties *)

(** ** Loops that may throw *)

Lemma for_each_app {A B} (body : B -> A -> result B) l1 l2 b :
  for_each body (l1 ++ l2) b =
  match for_each body l1 b with
  | Ok b' => for_each body l2 b'
  | Throw e => Throw e
  end.
Proof.
  revert b. induction l1 as [|a l1 IH]; intros b; simpl; [reflexivity|].
  destruct (body b a); [apply IH | reflexivity].
Qed.

(** An invariant of the loop body is an invariant of the loop. *)
Lemma for_each_invariant {A B} (P : B -> Prop) (body : B -> A -> result B) l b b' :
  P b ->
  (forall b1 a b2, In a l -> P b1 -> body b1 a = Ok b2 -> P b2) ->
  for_each body l b = Ok b' ->
  P b'.
Proof.
  revert b. induction l as [|a l IH]; intros b Hb Hstep Hrun; simpl in Hrun.
  - congruence.
  - destruct (body b a) as [b1|e] eqn:Hbody; [|discriminate].
    apply (IH b1); auto.
    + apply (Hstep b a b1); simpl; auto.
    + intros b2 a' b3 Hin. apply Hstep. simpl; auto.
Qed.

(** A body that never throws makes a loop that never throws. *)
Lemma for_each_total {A B} (P : B -> Prop) (body : B -> A -> result B) l b :
  P b ->
  (forall b1 a, In a l -> P b1 -> exists b2, body b1 a = Ok b2 /\ P b2) ->
  exists b', for_each body l b = Ok b' /\ P b'.
Proof.
  revert b. induction l as [|a l IH]; intros b Hb Hstep; simpl.
  - eauto.
  - destruct (Hstep b a) as (b1 & Hbody & Hb1); simpl; auto.
    rewrite Hbody. apply IH; auto.
    intros b2 a' Hin. apply Hstep. simpl; auto.
Qed.

(** Two bodies that agree on the range make the same loop. *)
Lemma for_each_ext {A B} (body1 body2 : B -> A -> result B) l b :
  (forall b1 a, In a l -> body1 b1 a = body2 b1 a) ->
  for_each body1 l b = for_each body2 l b.
Proof.
  revert b. induction l as [|a l IH]; intros b Hagree; simpl; [reflexivity|].
  rewrite Hagree by (simpl; auto).
  destruct (body2 b a); [|reflexivity].
  apply IH. intros b1 a' Hin. apply Hagree. simpl; auto.
Qed.

Lemma foldl_invariant {A B} (P : B -> Prop) (f : B -> A -> B) l b :
  P b ->
  (forall b1 a, In a l -> P b1 -> P (f b1 a)) ->
  P (foldl f b l).
Proof.
  revert b. induction l as [|a l IH]; intros b Hb Hstep; simpl; auto.
  apply IH.
  - apply Hstep; simpl; auto.
  - intros b1 a' Hin. apply Hstep. simpl; auto.
Qed.

(** ** The sort *)

Section SortingFacts.
Context {A : Type} (before : A -> A -> bool).

Lemma insert_sorted_Permutation x l :
  Permutation (insert_sorted before x l) (x :: l).
Proof.
  induction l as [|y l IH]; simpl; [reflexivity|].
  destruct (before y x); [|reflexivity].
  rewrite IH. apply perm_swap.
Qed.

Lemma insertion_sort_Permutation l : Permutation (insertion_sort before l) l.
Proof.
  induction l as [|x l IH]; simpl; [reflexivity|].
  unfold insertion_sort in *. simpl.
  rewrite insert_sorted_Permutation. constructor. exact IH.
Qed.

Lemma insertion_sort_In x l : In x (insertion_sort before l) <-> In x l.
Proof.
  split; apply Permutation_in;
    [apply insertion_sort_Permutation | symmetry; apply insertion_sort_Permutation].
Qed.

Lemma insertion_sort_length l : length (insertion_sort before l) = length l.
Proof. apply Permutation_length, insertion_sort_Permutation. Qed.

Lemma insertion_sort_NoDup l : NoDup l -> NoDup (insertion_sort before l).
Proof. intros H. rewrite insertion_sort_Permutation. exact H. Qed.

Lemma insert_sorted_HdRel a x l :
  in_order before a x -> HdRel (in_order before) a l ->
  HdRel (in_order before) a (insert_sorted before x l).
Proof.
  intros Hax Hal. destruct l as [|y l]; simpl; [constructor; auto|].
  inversion Hal; subst. destruct (before y x); constructor; auto.
Qed.

Lemma insert_sorted_Sorted x l :
  (forall y, In y l -> before y x = true -> before x y = false) ->
  Sorted (in_order before) l -> Sorted (in_order before) (insert_sorted before x l).
Proof.
  induction l as [|y l IH]; intros Hasym Hl; simpl.
  - repeat constructor.
  - inversion Hl as [|? ? Hl' Hhd]; subst.
    destruct (before y x) eqn:Hyx.
    + constructor; [apply IH; [intros z Hz; apply Hasym; right; exact Hz | exact Hl']|].
      apply insert_sorted_HdRel; [|assumption].
      unfold in_order. apply Hasym; [left; reflexivity | exact Hyx].
    + constructor; [assumption|]. constructor. exact Hyx.
Qed.

(** The insertion sort sorts when the order is asymmetric on the elements. *)
Lemma insertion_sort_Sorted_on l :
  (forall a b, In a l -> In b l -> before a b = true -> before b a = false) ->
  Sorted (in_order before) (insertion_sort before l).
Proof.
  induction l as [|x l IH]; intros Hasym; [constructor|].
  unfold insertion_sort in *. simpl. apply insert_sorted_Sorted.
  - intros y Hy. apply Hasym; [right; apply insertion_sort_In, Hy | left; reflexivity].
  - apply IH. intros a b Ha Hb. apply Hasym; right; assumption.
Qed.

Lemma insertion_sort_Sorted :
  (forall a b, before a b = true -> before b a = false) ->
  forall l, Sorted (in_order before) (insertion_sort before l).
Proof. intros Hasym l. apply insertion_sort_Sorted_on. intros a b _ _. apply Hasym. Qed.
End SortingFacts.

Lemma example_sort_permutes : permutes example_sort.
Proof. intros comp l. apply insertion_sort_Permutation. Qed.

Lemma example_sort_sorts : sorts example_sort.
Proof.
  intros comp l (Hirr & Htrans & _). apply insertion_sort_Sorted_on.
  intros a b Ha Hb Hab. destruct (comp b a) eqn:Hba; [|reflexivity].
  rewrite <- (Hirr a Ha). symmetry. exact (Htrans a b a Ha Hb Ha Hab Hba).
Qed.

(** A list with no adjacent inversion has none at all when the order is
    transitive on its elements. *)
Lemma Sorted_StronglySorted_on {A} (R : A -> A -> Prop) (l : list A) :
  (forall a b c, In a l -> In b l -> In c l -> R a b -> R b c -> R a c) ->
  Sorted R l -> StronglySorted R l.
Proof.
  induction l as [|x l IH]; intros Htrans Hl; [constructor|].
  inversion Hl as [|? ? Hl' Hhd]; subst.
  assert (Hs : StronglySorted R l).
  { apply IH; [|assumption].
    intros a b c Ha Hb Hc. apply Htrans; simpl; auto. }
  constructor; [assumption|].
  clear IH Hl. destruct l as [|y l]; [constructor|].
  inversion Hhd; subst. inversion Hs as [|? ? Hs' Hall]; subst.
  constructor; [assumption|].
  rewrite Forall_forall in *. intros z Hz.
  apply (Htrans x y z); [simpl; auto | simpl; auto | | assumption | apply Hall, Hz].
  simpl. right; right. apply list_elem_of_In, Hz.
Qed.

Lemma StronglySorted_take {A} (R : A -> A -> Prop) n (l : list A) :
  StronglySorted R l -> StronglySorted R (take n l).
Proof.
  revert n. induction l as [|x l IH]; intros n Hl; destruct n; simpl;
    try constructor.
  - inversion Hl; subst. auto.
  - inversion Hl as [|? ? ? Hall]; subst.
    rewrite Forall_forall in *. intros y Hy. apply Hall.
    rewrite <- (take_drop n l). apply elem_of_app. left. exact Hy.
Qed.

(** ** Ordered iteration visits the container *)

Lemma sorted_items_In {V} (m : gmap Z V) k v :
  In (k, v) (sorted_items m) <-> m !! k = Some v.
Proof.
  unfold sorted_items. rewrite insertion_sort_In, <- list_elem_of_In.
  apply elem_of_map_to_list.
Qed.

Lemma sorted_words_In (s : gset string) w :
  In w (sorted_words s) <-> w ∈ s.
Proof.
  unfold sorted_words. rewrite insertion_sort_In, <- list_elem_of_In.
  apply elem_of_elements.
Qed.

Lemma sorted_words_NoDup (s : gset string) : NoDup (sorted_words s).
Proof. apply insertion_sort_NoDup, NoDup_elements. Qed.

(** ** Binary64 arithmetic

    Facts about signs and comparisons, read off the specification of the
    primitive operations. *)

Section SpecFloatFacts.
Variables prec emax : Z.

Lemma SFabs_binary_round_aux s m e l :
  SFabs (binary_round_aux prec emax s m e l) =
  SFabs (binary_round_aux prec emax false m e l).
Proof.
  unfold binary_round_aux.
  destruct (shr_fexp prec emax m e l) as [mrs' e'].
  destruct (shr_fexp prec emax _ e' loc_Exact) as [mrs'' e''].
  destruct (shr_m mrs''); [reflexivity| |reflexivity].
  destruct (e'' <=? emax - prec); reflexivity.
Qed.

Lemma SFabs_binary_normalize_opp m e :
  SFabs (binary_normalize prec emax (- m) e false) =
  SFabs (binary_normalize prec emax m e false).
Proof.
  destruct m as [|p|p]; simpl; [reflexivity| |]; unfold binary_round;
    destruct (shl_align _ _ _) as [mz ez];
    [|symmetry]; apply SFabs_binary_round_aux.
Qed.

Lemma SFabs_SFsub_comm x y :
  SFabs (SFsub prec emax x y) = SFabs (SFsub prec emax y x).
Proof.
  destruct x as [sx|sx| |sx mx ex], y as [sy|sy| |sy my ey];
    try reflexivity;
    try (destruct sx, sy; reflexivity).
  unfold SFsub. rewrite (Z.min_comm ey ex).
  rewrite <- SFabs_binary_normalize_opp. f_equal. f_equal. lia.
Qed.

Lemma SFltb_asym x y : SFltb x y = true -> SFltb y x = false.
Proof.
  unfold SFltb.
  destruct x as [sx|sx| |sx mx ex], y as [sy|sy| |sy my ey]; simpl;
    try discriminate; try reflexivity;
    try (destruct sx; try destruct sy; simpl; (discriminate || reflexivity)).
  rewrite (Z.compare_antisym ex ey).
  rewrite !Pos.compare_cont_spec. simpl.
  rewrite (Pos.compare_antisym mx my).
  destruct sx, sy; try discriminate; try reflexivity;
    destruct (ex ?= ey); simpl; try discriminate; try reflexivity;
    destruct (mx ?= my)%positive; simpl; (discriminate || reflexivity).
Qed.

Lemma sf_not_negative_SFltb x :
  SFltb x (S754_zero false) = negb (sf_not_negative x).
Proof. destruct x as [s|s| |s m e]; try destruct s; reflexivity. Qed.

Lemma sf_plus_not_negative x : sf_plus x = true -> sf_not_negative x = true.
Proof. destruct x as [s|s| |s m e]; try destruct s; simpl; congruence. Qed.

Lemma binary_round_aux_plus m e l :
  sf_plus (binary_round_aux prec emax false m e l) = true.
Proof.
  unfold binary_round_aux.
  destruct (shr_fexp prec emax m e l) as [mrs' e'].
  destruct (shr_fexp prec emax _ e' loc_Exact) as [mrs'' e''].
  destruct (shr_m mrs''); [reflexivity| |reflexivity].
  destruct (e'' <=? emax - prec); reflexivity.
Qed.

Lemma binary_round_plus m e :
  sf_plus (binary_round prec emax false m e) = true.
Proof.
  unfold binary_round. destruct (shl_align _ _ _).
  apply binary_round_aux_plus.
Qed.

Lemma SFadd_not_negative x y :
  sf_not_negative x = true -> sf_not_negative y = true ->
  sf_not_negative (SFadd prec emax x y) = true.
Proof.
  destruct x as [sx|sx| |sx mx ex], y as [sy|sy| |sy my ey]; simpl;
    try (destruct sx); try (destruct sy); simpl; try congruence; intros _ _.
  apply sf_plus_not_negative, binary_round_plus.
Qed.

Lemma SFmul_not_negative x y :
  sf_not_negative x = true -> sf_not_negative y = true ->
  sf_not_negative (SFmul prec emax x y) = true.
Proof.
  destruct x as [sx|sx| |sx mx ex], y as [sy|sy| |sy my ey]; simpl;
    try (destruct sx); try (destruct sy); simpl; try congruence; intros _ _.
  apply sf_plus_not_negative, binary_round_aux_plus.
Qed.
End SpecFloatFacts.

Lemma not_negative_spec x :
  not_negative x <-> sf_not_negative (Prim2SF x) = true.
Proof.
  unfold not_negative. rewrite FloatAxioms.ltb_spec.
  change (Prim2SF 0) with (S754_zero false).
  rewrite sf_not_negative_SFltb. destruct (sf_not_negative _); simpl; split; congruence.
Qed.

Lemma abs_sub_comm (x y : float) : abs (x - y) = abs (y - x).
Proof.
  apply Prim2SF_inj. rewrite !FloatAxioms.abs_spec, !FloatAxioms.sub_spec. apply SFabs_SFsub_comm.
Qed.

Lemma ltb_asym (x y : float) : (x <? y)%float = true -> (y <? x)%float = false.
Proof. rewrite !FloatAxioms.ltb_spec. apply SFltb_asym. Qed.

Lemma add_not_negative x y : not_negative x -> not_negative y -> not_negative (x + y).
Proof.
  rewrite !not_negative_spec, FloatAxioms.add_spec. apply SFadd_not_negative.
Qed.

Lemma mul_not_negative x y : not_negative x -> not_negative y -> not_negative (x * y).
Proof.
  rewrite !not_negative_spec, FloatAxioms.mul_spec. apply SFmul_not_negative.
Qed.

Lemma zero_not_negative : not_negative 0.
Proof. reflexivity. Qed.

(** ** Rounding to binary64

    The conversion of a small integer to a double is exact, multiplying by
    1.0 changes nothing, and the quotient of two such doubles, rounded, is
    not below 1.0 when the dividend is not below the divisor. One over the
    double of a size is above zero, and so is the sum of two doubles above
    zero: rounding never takes a mantissa that is not zero to zero while the
    exponent is in range. *)

(** The number of binary digits bounds the number. *)
Lemma digits2_pos_bounds p :
  2 ^ (Zpos (digits2_pos p) - 1) <= Zpos p < 2 ^ Zpos (digits2_pos p).
Proof.
  induction p as [p IH|p IH|]; simpl digits2_pos.
  - rewrite Pos2Z.inj_succ.
    replace (Z.succ (Zpos (digits2_pos p)) - 1) with (Z.succ (Zpos (digits2_pos p) - 1)) by lia.
    rewrite !Z.pow_succ_r by lia. lia.
  - rewrite Pos2Z.inj_succ.
    replace (Z.succ (Zpos (digits2_pos p)) - 1) with (Z.succ (Zpos (digits2_pos p) - 1)) by lia.
    rewrite !Z.pow_succ_r by lia. lia.
  - simpl. lia.
Qed.

Lemma digits2_pos_unique p k :
  2 ^ (k - 1) <= Zpos p < 2 ^ k -> Zpos (digits2_pos p) = k.
Proof.
  intros [Hlow Hhigh]. pose proof (digits2_pos_bounds p) as [Hlow' Hhigh'].
  assert (Hk : 0 < k).
  { destruct (Z.lt_ge_cases 0 k); [assumption|].
    rewrite Z.pow_neg_r in Hhigh by lia || (destruct (Z.eq_dec k 0); subst; simpl in *; lia).
    lia. }
  destruct (Z.lt_trichotomy (Zpos (digits2_pos p)) k) as [Hlt | [Heq | Hgt]];
    [|assumption|].
  - assert (2 ^ Zpos (digits2_pos p) <= 2 ^ (k - 1)) by (apply Z.pow_le_mono_r; lia). lia.
  - assert (2 ^ k <= 2 ^ (Zpos (digits2_pos p) - 1)) by (apply Z.pow_le_mono_r; lia). lia.
Qed.

Lemma iter_pos_nat {A} (f : A -> A) k x :
  SpecFloat.iter_pos f k x = Nat.iter (Pos.to_nat k) f x.
Proof.
  revert x. induction k as [k IH|k IH|]; intros x; simpl SpecFloat.iter_pos.
  - rewrite !IH, Pos2Nat.inj_xI, Nat.iter_succ_r.
    replace (2 * Pos.to_nat k)%nat with (Pos.to_nat k + Pos.to_nat k)%nat by lia.
    rewrite Nat.iter_add. reflexivity.
  - rewrite !IH, Pos2Nat.inj_xO.
    replace (2 * Pos.to_nat k)%nat with (Pos.to_nat k + Pos.to_nat k)%nat by lia.
    rewrite Nat.iter_add. reflexivity.
  - reflexivity.
Qed.

(** One step of [shr] halves the mantissa. *)
Lemma shr_1_m mrs : 0 <= shr_m mrs -> shr_m (shr_1 mrs) = shr_m mrs / 2.
Proof.
  destruct mrs as [m r s]. simpl shr_m. intros Hm.
  destruct m as [|[p|p|]|p]; simpl shr_m; try lia;
    Z.to_euclidean_division_equations; lia.
Qed.

Lemma shr_iter_m (k : nat) : forall mrs,
  0 <= shr_m mrs ->
  shr_m (Nat.iter k shr_1 mrs) = shr_m mrs / 2 ^ Z.of_nat k.
Proof.
  induction k as [|k IH]; intros mrs Hm.
  - simpl. rewrite Z.div_1_r. reflexivity.
  - rewrite Nat.iter_succ_r, IH.
    + rewrite shr_1_m by assumption.
      rewrite Nat2Z.inj_succ, Z.pow_succ_r by lia.
      rewrite Z.div_div by lia. reflexivity.
    + rewrite shr_1_m by assumption. apply Z.div_pos; lia.
Qed.

(** [shr] by [n] places. *)
Lemma shr_m_e mrs e n :
  0 <= shr_m mrs -> 0 <= n ->
  shr_m (fst (shr mrs e n)) = shr_m mrs / 2 ^ n /\ snd (shr mrs e n) = e + n.
Proof.
  intros Hm Hn. destruct n as [|p|p]; simpl; [|  |lia].
  - rewrite Z.div_1_r. split; [reflexivity | lia].
  - rewrite iter_pos_nat, shr_iter_m by assumption.
    rewrite positive_nat_Z. split; reflexivity.
Qed.

Lemma shr_record_of_loc_m m l : shr_m (shr_record_of_loc m l) = m.
Proof. destruct l as [|[]]; reflexivity. Qed.

Lemma round_nearest_even_bounds m l :
  m <= round_nearest_even m l <= m + 1.
Proof.
  destruct l as [|[]]; simpl; try lia. destruct (Z.even m); lia.
Qed.

Lemma Zdigits2_pos p : Zdigits2 (Zpos p) = Zpos (digits2_pos p).
Proof. reflexivity. Qed.

(** A number of [k] digits, shifted to [prec] digits. *)
Lemma shift_digits p n :
  0 <= n < Zpos (digits2_pos p) ->
  exists q, Zpos p / 2 ^ n = Zpos q /\ Zpos (digits2_pos q) = Zpos (digits2_pos p) - n.
Proof.
  intros Hn. pose proof (digits2_pos_bounds p) as [Hlow Hhigh].
  set (d := Zpos (digits2_pos p)) in *.
  assert (Hpow : 2 ^ (d - 1) = 2 ^ (d - n - 1) * 2 ^ n).
  { rewrite <- Z.pow_add_r by lia. f_equal. lia. }
  assert (Hpow' : 2 ^ d = 2 ^ (d - n) * 2 ^ n).
  { rewrite <- Z.pow_add_r by lia. f_equal. lia. }
  assert (H2n : 0 < 2 ^ n) by (apply Z.pow_pos_nonneg; lia).
  assert (Hq_low : 2 ^ (d - n - 1) <= Zpos p / 2 ^ n).
  { apply Z.div_le_lower_bound; lia. }
  assert (Hq_high : Zpos p / 2 ^ n < 2 ^ (d - n)).
  { apply Z.div_lt_upper_bound; lia. }
  assert (Hpos : 0 < 2 ^ (d - n - 1)) by (apply Z.pow_pos_nonneg; lia).
  destruct (Zpos p / 2 ^ n) as [|q|q] eqn:Hq; try lia.
  exists q. split; [reflexivity|]. apply digits2_pos_unique. lia.
Qed.

Lemma shr_fexp_digits q e l :
  prec <= Zpos (digits2_pos q) -> 1 - prec <= Zpos (digits2_pos q) + e - prec ->
  exists q',
    shr_m (fst (shr_fexp prec emax (Zpos q) e l)) = Zpos q'
    /\ Zpos (digits2_pos q') = prec
    /\ snd (shr_fexp prec emax (Zpos q) e l) = Zpos (digits2_pos q) + e - prec
    /\ Zpos q' = Zpos q / 2 ^ (Zpos (digits2_pos q) - prec).
Proof.
  intros Hdigits Hexp. unfold shr_fexp. rewrite Zdigits2_pos.
  set (d := Zpos (digits2_pos q)) in *.
  assert (Hfexp : fexp prec emax (d + e) = d + e - prec).
  { unfold fexp, emin, prec, emax in *. lia. }
  rewrite Hfexp.
  destruct (shr_m_e (shr_record_of_loc (Zpos q) l) e (d + e - prec - e)) as [Hm He].
  { rewrite shr_record_of_loc_m. lia. }
  { lia. }
  rewrite shr_record_of_loc_m in Hm.
  replace (d + e - prec - e) with (d - prec) in * by lia.
  destruct (shift_digits q (d - prec)) as (q' & Hq' & Hd').
  { fold d. unfold prec in *. lia. }
  exists q'. rewrite Hm, He, Hq'. fold d in Hd'. repeat split; lia.
Qed.

Lemma binary_round_aux_ge_one q e l :
  prec <= Zpos (digits2_pos q) -> 1 <= Zpos (digits2_pos q) + e ->
  SFleb sf_one (binary_round_aux prec emax false (Zpos q) e l) = true.
Proof.
  intros Hdigits Hexp. unfold binary_round_aux.
  destruct (shr_fexp_digits q e l) as (q1 & Hm1 & Hd1 & He1 & _);
    [assumption | lia |].
  destruct (shr_fexp prec emax (Zpos q) e l) as [mrs1 e1]. cbn [fst snd] in Hm1, He1.
  rewrite Hm1.
  pose proof (round_nearest_even_bounds (Zpos q1) (loc_of_shr_record mrs1)) as Hround.
  destruct (round_nearest_even (Zpos q1) (loc_of_shr_record mrs1)) as [|q2|q2] eqn:Hq2;
    try lia.
  pose proof (digits2_pos_bounds q1) as Hq1. rewrite Hd1 in Hq1.
  assert (Hd2 : prec <= Zpos (digits2_pos q2)).
  { pose proof (digits2_pos_bounds q2) as Hb.
    destruct (Z.lt_ge_cases (Zpos (digits2_pos q2)) prec) as [Hlt|]; [|assumption].
    assert (2 ^ Zpos (digits2_pos q2) <= 2 ^ (prec - 1)) by (apply Z.pow_le_mono_r; lia).
    lia. }
  destruct (shr_fexp_digits q2 e1 loc_Exact) as (q3 & Hm3 & Hd3 & He3 & _);
    [assumption | unfold prec in *; lia |].
  destruct (shr_fexp prec emax (Zpos q2) e1 loc_Exact) as [mrs3 e3]. cbn [fst snd] in Hm3, He3.
  rewrite Hm3.
  pose proof (digits2_pos_bounds q3) as Hq3. rewrite Hd3 in Hq3.
  assert (He3' : -52 <= e3) by (unfold prec in *; lia).
  destruct (e3 <=? emax - prec); [|reflexivity].
  unfold SFleb, SFcompare, sf_one.
  destruct (Z.compare_spec (-52) e3) as [Heq | Hlt | Hgt]; try reflexivity; [|lia].
  rewrite Pos.compare_cont_spec. cbn [Pos.switch_Eq].
  assert (Hle : (4503599627370496 <= q3)%positive).
  { unfold prec in Hq3. change (2 ^ (53 - 1)) with 4503599627370496 in Hq3. lia. }
  unfold Pos.le in Hle.
  destruct (4503599627370496 ?= q3)%positive; [reflexivity | reflexivity | congruence].
Qed.

Lemma shr_fexp_exact m e :
  Zpos (digits2_pos m) = prec -> emin prec emax <= e ->
  shr_fexp prec emax (Zpos m) e loc_Exact
  = (Build_shr_record (Zpos m) false false, e).
Proof.
  intros Hdigits He. unfold shr_fexp. rewrite Zdigits2_pos, Hdigits.
  replace (fexp prec emax (prec + e) - e) with 0; [reflexivity|].
  unfold fexp. lia.
Qed.

(** The last step of rounding, on a mantissa of [prec] digits. *)
Lemma round_finish m e :
  Zpos (digits2_pos m) = prec -> emin prec emax <= e <= emax - prec ->
  (let '(mrs, e') := shr_fexp prec emax (Zpos m) e loc_Exact in
   match shr_m mrs with
   | Z0 => S754_zero false
   | Zpos m' => if e' <=? emax - prec then S754_finite false m' e'
                else S754_infinity false
   | Zneg _ => S754_nan
   end) = S754_finite false m e.
Proof.
  intros Hdigits He. rewrite shr_fexp_exact by (assumption || lia).
  cbn [shr_m]. destruct (Z.leb_spec e (emax - prec)); [reflexivity | lia].
Qed.

Lemma binary_round_aux_exact m e :
  Zpos (digits2_pos m) = prec -> emin prec emax <= e <= emax - prec ->
  binary_round_aux prec emax false (Zpos m) e loc_Exact = S754_finite false m e.
Proof.
  intros Hdigits He. unfold binary_round_aux.
  rewrite shr_fexp_exact by (assumption || lia).
  cbn [shr_m loc_of_shr_record round_nearest_even].
  apply round_finish; assumption.
Qed.

Lemma iter_xO_value k m : Zpos (Nat.iter k xO m) = Zpos m * 2 ^ Z.of_nat k.
Proof.
  induction k as [|k IH].
  - simpl. lia.
  - rewrite Nat2Z.inj_succ, Z.pow_succ_r by lia.
    rewrite Nat.iter_succ, Pos2Z.inj_xO, IH. lia.
Qed.

Lemma shr_iter_exact k : forall m,
  Nat.iter k shr_1 (Build_shr_record (Zpos (Nat.iter k xO m)) false false)
  = Build_shr_record (Zpos m) false false.
Proof.
  induction k as [|k IH]; intros m; [reflexivity|].
  rewrite Nat.iter_succ_r.
  replace (Nat.iter (S k) xO m) with (xO (Nat.iter k xO m)) by (symmetry; apply Nat.iter_succ).
  cbn [shr_1 orb]. apply IH.
Qed.

Lemma digits2_pos_shift m k :
  Zpos (digits2_pos (Nat.iter k xO m)) = Zpos (digits2_pos m) + Z.of_nat k.
Proof.
  induction k as [|k IH]; [simpl; lia|].
  rewrite Nat.iter_succ. cbn [digits2_pos]. rewrite Pos2Z.inj_succ, IH. lia.
Qed.

(** Multiplying by one changes nothing. *)
Lemma SFmul_one m e :
  Zpos (digits2_pos m) = prec -> emin prec emax <= e <= emax - prec ->
  SFmul prec emax (S754_finite false m e) sf_one = S754_finite false m e.
Proof.
  intros Hdigits He. unfold SFmul, sf_one. cbn [xorb].
  assert (Hm : (m * 4503599627370496)%positive = Nat.iter 52 xO m).
  { apply Pos2Z.inj. rewrite iter_xO_value, Pos2Z.inj_mul. reflexivity. }
  rewrite Hm. unfold binary_round_aux.
  assert (Hshr : shr_fexp prec emax (Zpos (Nat.iter 52 xO m)) (e + -52) loc_Exact
                 = (Build_shr_record (Zpos m) false false, e)).
  { unfold shr_fexp. rewrite Zdigits2_pos, digits2_pos_shift, Hdigits.
    replace (fexp prec emax (prec + Z.of_nat 52 + (e + -52)) - (e + -52)) with 52
      by (unfold fexp, emin, prec, emax in *; lia).
    unfold shr. rewrite iter_pos_nat.
    change (Pos.to_nat 52) with 52%nat.
    cbn [shr_record_of_loc]. rewrite shr_iter_exact. f_equal. lia. }
  rewrite Hshr. cbn [shr_m loc_of_shr_record round_nearest_even].
  apply round_finish; assumption.
Qed.

Lemma binary_round_normal p :
  Zpos p < 2 ^ prec ->
  exists m e, binary_round prec emax false p 0 = S754_finite false m e
              /\ normal_of (Zpos p) m e.
Proof.
  intros Hp. unfold binary_round.
  pose proof (digits2_pos_bounds p) as [Hlow Hhigh].
  set (d := Zpos (digits2_pos p)) in *.
  assert (Hd : d <= prec).
  { destruct (Z.le_gt_cases d prec) as [|Hgt]; [assumption|].
    assert (2 ^ prec <= 2 ^ (d - 1)) by (apply Z.pow_le_mono_r; lia). lia. }
  assert (Hd0 : 0 < d) by (unfold d; lia).
  assert (Hfexp : fexp prec emax (d + 0) = d - prec).
  { unfold fexp, emin, prec, emax in *. lia. }
  rewrite Hfexp. unfold shl_align.
  destruct (d - prec - 0) as [|k|k] eqn:Hk; try lia.
  - exists p, 0. assert (Hdp : d = prec) by lia. split.
    + apply binary_round_aux_exact; [exact Hdp | unfold emin, prec, emax; lia].
    + repeat split; [exact Hdp | unfold prec; lia | lia | simpl; lia].
  - exists (Pos.iter xO p k), (d - prec).
    assert (Hiter : Pos.iter xO p k = Nat.iter (Pos.to_nat k) xO p)
      by exact (Pos2Nat.inj_iter k xO p).
    assert (Hdigits : Zpos (digits2_pos (Pos.iter xO p k)) = prec).
    { rewrite Hiter, digits2_pos_shift. fold d. lia. }
    split.
    + apply binary_round_aux_exact; [exact Hdigits | unfold emin, prec, emax in *; lia].
    + repeat split; [exact Hdigits | unfold prec in *; lia | lia |].
      rewrite Hiter, iter_xO_value. f_equal. f_equal. lia.
Qed.

Lemma of_uint63_normal n :
  0 < n < 2 ^ prec ->
  exists m e, Prim2SF (of_uint63 (Uint63.of_Z n)) = S754_finite false m e
              /\ normal_of n m e.
Proof.
  intros Hn. rewrite of_uint63_spec, Uint63.of_Z_spec.
  rewrite Z.mod_small
    by (change wB with (2 ^ 63); unfold prec in Hn;
        assert (2 ^ 53 < 2 ^ 63) by reflexivity; lia).
  destruct n as [|p|p]; try lia. apply binary_round_normal. lia.
Qed.

(** The quotient of two integers, the first not below the second, is not
    below one. *)
Lemma SFdiv_ge_one n d mx ex my ey :
  0 < d <= n -> normal_of n mx ex -> normal_of d my ey ->
  SFleb sf_one (SFdiv prec emax (S754_finite false mx ex) (S754_finite false my ey))
  = true.
Proof.
  intros Hdn (Hdx & Hex & Hmx) (Hdy & Hey & Hmy).
  unfold SFdiv, SFdiv_core_binary. rewrite !Zdigits2_pos, Hdx, Hdy.
  assert (Hfexp : fexp prec emax (prec + ex - (prec + ey)) = ex - ey - prec).
  { unfold fexp, emin, prec, emax in *. lia. }
  rewrite Hfexp, Z.min_l by (unfold prec; lia).
  replace (ex - ey - (ex - ey - prec)) with 53 by (unfold prec; lia).
  pose proof (digits2_pos_bounds mx) as Hbx. rewrite Hdx in Hbx.
  pose proof (digits2_pos_bounds my) as Hby. rewrite Hdy in Hby.
  unfold prec in Hbx, Hby.
  change (2 ^ (53 - 1)) with 4503599627370496 in Hbx, Hby.
  change (2 ^ 53) with 9007199254740992 in Hbx, Hby.
  rewrite Z.shiftl_mul_pow2 by lia. change (2 ^ 53) with 9007199254740992.
  pose proof (Z.div_eucl_eq (Zpos mx * 9007199254740992) (Zpos my)) as Hdiv.
  pose proof (Z.mod_pos_bound (Zpos mx * 9007199254740992) (Zpos my)) as Hmod.
  unfold Z.modulo in Hmod.
  destruct (Z.div_eucl (Zpos mx * 9007199254740992) (Zpos my)) as [q r].
  specialize (Hdiv ltac:(lia)). specialize (Hmod ltac:(lia)).
  assert (Hq : 4503599627370496 <= q) by nia.
  destruct q as [|q|q]; try lia. cbn [xorb].
  pose proof (digits2_pos_bounds q) as Hbq.
  assert (Hdq : prec <= Zpos (digits2_pos q)).
  { destruct (Z.le_gt_cases prec (Zpos (digits2_pos q))) as [|Hgt]; [assumption|].
    assert (2 ^ Zpos (digits2_pos q) <= 2 ^ (prec - 1))
      by (apply Z.pow_le_mono_r; lia).
    unfold prec in *. change (2 ^ (53 - 1)) with 4503599627370496 in *. lia. }
  apply binary_round_aux_ge_one; [exact Hdq|].
  destruct (Z.lt_trichotomy ex ey) as [Hlt | [Heq | Hgt]].
  - exfalso.
    assert (Hpow : 2 ^ (- ex) = 2 ^ (- ey) * 2 ^ (ey - ex)).
    { rewrite <- Z.pow_add_r by lia. f_equal. lia. }
    assert (2 <= 2 ^ (ey - ex)).
    { change 2 with (2 ^ 1) at 1. apply Z.pow_le_mono_r; lia. }
    assert (0 < 2 ^ (- ey)) by (apply Z.pow_pos_nonneg; lia).
    rewrite Hpow in Hmx. nia.
  - subst ey.
    assert (0 < 2 ^ (- ex)) by (apply Z.pow_pos_nonneg; lia).
    assert (Hxy : Zpos my <= Zpos mx) by nia.
    assert (Hq' : 9007199254740992 <= Zpos q) by nia.
    assert (Hd54 : prec < Zpos (digits2_pos q)).
    { destruct (Z.lt_ge_cases prec (Zpos (digits2_pos q))) as [|Hle]; [assumption|].
      assert (2 ^ Zpos (digits2_pos q) <= 2 ^ prec) by (apply Z.pow_le_mono_r; lia).
      unfold prec in *. change (2 ^ 53) with 9007199254740992 in *. lia. }
    unfold prec in *. lia.
  - unfold prec in *. lia.
Qed.

Lemma Prim2SF_one : Prim2SF 1 = sf_one.
Proof. reflexivity. Qed.

Lemma quotient_ge_one (n d : Z) :
  0 < d <= n -> n < 2 ^ prec ->
  (1 <=? of_uint63 (Uint63.of_Z n) * 1 / of_uint63 (Uint63.of_Z d))%float = true.
Proof.
  intros Hdn Hn.
  destruct (of_uint63_normal n) as (mx & ex & Hx & Hnx); [lia|].
  destruct (of_uint63_normal d) as (my & ey & Hy & Hny); [lia|].
  rewrite FloatAxioms.leb_spec, FloatAxioms.div_spec, FloatAxioms.mul_spec.
  rewrite Prim2SF_one, Hx, Hy. unfold SF64div, SF64mul.
  assert (Hone : SFmul prec emax (S754_finite false mx ex) sf_one
                 = S754_finite false mx ex).
  { destruct Hnx as (Hdx & Hex & _). apply SFmul_one; [exact Hdx|].
    unfold emin, prec, emax in *. lia. }
  rewrite Hone. exact (SFdiv_ge_one n d mx ex my ey Hdn Hnx Hny).
Qed.

Lemma above_zero_spec x : above_zero x <-> sf_positive (Prim2SF x) = true.
Proof.
  unfold above_zero. rewrite FloatAxioms.ltb_spec.
  change (Prim2SF 0) with (S754_zero false).
  destruct (Prim2SF x) as [s|s| |s m e]; try destruct s;
    unfold SFltb, SFcompare, sf_positive, negb; split; congruence.
Qed.

(** Rounding shifts out fewer digits than the mantissa has. *)
Lemma shr_fexp_positive q e l :
  emin prec emax <= e ->
  exists q', shr_m (fst (shr_fexp prec emax (Zpos q) e l)) = Zpos q'
             /\ emin prec emax <= snd (shr_fexp prec emax (Zpos q) e l).
Proof.
  intros He. unfold shr_fexp. rewrite Zdigits2_pos.
  pose proof (digits2_pos_bounds q) as [Hlow _].
  set (d := Zpos (digits2_pos q)) in *.
  assert (Hd : 0 < d) by (unfold d; lia).
  set (n := fexp prec emax (d + e) - e).
  assert (Hn : n < d /\ emin prec emax <= e + n)
    by (unfold n, fexp, emin, prec, emax in *; lia).
  destruct (Z.le_gt_cases n 0) as [Hle|Hgt].
  - exists q. destruct n as [|p|p]; try lia; cbn [shr fst snd];
      rewrite shr_record_of_loc_m; split; (reflexivity || assumption).
  - destruct (shr_m_e (shr_record_of_loc (Zpos q) l) e n) as [Hm Hsnd].
    { rewrite shr_record_of_loc_m. lia. }
    { lia. }
    rewrite shr_record_of_loc_m in Hm. rewrite Hm, Hsnd.
    assert (Hpow : 2 ^ (d - 1) = 2 ^ (d - 1 - n) * 2 ^ n).
    { rewrite <- Z.pow_add_r by lia. f_equal. lia. }
    assert (H2n : 0 < 2 ^ n) by (apply Z.pow_pos_nonneg; lia).
    assert (Hpos : 0 < 2 ^ (d - 1 - n)) by (apply Z.pow_pos_nonneg; lia).
    assert (Hq : 1 <= Zpos q / 2 ^ n).
    { apply Z.div_le_lower_bound; [assumption|]. nia. }
    destruct (Zpos q / 2 ^ n) as [|q'|q']; try lia.
    exists q'. split; [reflexivity | lia].
Qed.

(** A positive mantissa does not round to zero. *)
Lemma binary_round_aux_positive q e l :
  emin prec emax <= e ->
  sf_positive (binary_round_aux prec emax false (Zpos q) e l) = true.
Proof.
  intros He. unfold binary_round_aux.
  destruct (shr_fexp_positive q e l He) as (q1 & Hm1 & He1).
  destruct (shr_fexp prec emax (Zpos q) e l) as [mrs1 e1]. cbn [fst snd] in Hm1, He1.
  rewrite Hm1.
  pose proof (round_nearest_even_bounds (Zpos q1) (loc_of_shr_record mrs1)) as Hround.
  destruct (round_nearest_even (Zpos q1) (loc_of_shr_record mrs1)) as [|q2|q2];
    try lia.
  destruct (shr_fexp_positive q2 e1 loc_Exact He1) as (q3 & Hm3 & _).
  destruct (shr_fexp prec emax (Zpos q2) e1 loc_Exact) as [mrs3 e3]. cbn [fst snd] in Hm3.
  rewrite Hm3. destruct (e3 <=? emax - prec); reflexivity.
Qed.

Lemma shl_align_exponent m e e' :
  emin prec emax <= e -> emin prec emax <= e' ->
  emin prec emax <= snd (shl_align m e e').
Proof.
  intros He He'. unfold shl_align. destruct (e' - e); assumption.
Qed.

Lemma binary_round_positive m e :
  emin prec emax <= e ->
  sf_positive (binary_round prec emax false m e) = true.
Proof.
  intros He. unfold binary_round.
  pose proof (shl_align_exponent m e (fexp prec emax (Zpos (digits2_pos m) + e)) He)
    as Halign.
  destruct (shl_align m e _) as [mz ez]. cbn [snd] in Halign.
  apply binary_round_aux_positive, Halign. unfold fexp. lia.
Qed.

(** The exponent and the digits of a valid double. *)
Lemma bounded_range m e :
  bounded prec emax m e = true ->
  emin prec emax <= e <= emax - prec /\ Zpos (digits2_pos m) <= prec.
Proof.
  unfold bounded, canonical_mantissa, fexp. intros Hb.
  apply andb_prop in Hb as [Hc He].
  apply Z.eqb_eq in Hc. apply Z.leb_le in He. lia.
Qed.

Lemma SFadd_positive x y :
  valid_binary prec emax x = true -> valid_binary prec emax y = true ->
  sf_positive x = true -> sf_positive y = true ->
  sf_positive (SFadd prec emax x y) = true.
Proof.
  destruct x as [sx|sx| |sx mx ex], y as [sy|sy| |sy my ey]; simpl;
    try (destruct sx); try (destruct sy); simpl; try congruence;
    intros Hx Hy _ _.
  apply bounded_range in Hx as [Hx _]. apply bounded_range in Hy as [Hy _].
  apply binary_round_positive. lia.
Qed.

Lemma add_above_zero x y : above_zero x -> above_zero y -> above_zero (x + y).
Proof.
  rewrite !above_zero_spec, FloatAxioms.add_spec.
  apply SFadd_positive; apply Prim2SF_valid.
Qed.

Lemma zero_add_above_zero y : above_zero y -> above_zero (0 + y).
Proof.
  rewrite !above_zero_spec, FloatAxioms.add_spec.
  change (Prim2SF 0) with (S754_zero false).
  destruct (Prim2SF y) as [s|s| |s m e]; try destruct s; simpl; congruence.
Qed.

(** A mantissa of at least [prec] digits, in range, rounds to a finite
    double. *)
Lemma binary_round_aux_finite q e l :
  prec <= Zpos (digits2_pos q) -> 1 <= Zpos (digits2_pos q) + e < emax ->
  exists m e', binary_round_aux prec emax false (Zpos q) e l = S754_finite false m e'.
Proof.
  intros Hdigits Hexp. unfold binary_round_aux.
  destruct (shr_fexp_digits q e l) as (q1 & Hm1 & Hd1 & He1 & _);
    [assumption | lia |].
  destruct (shr_fexp prec emax (Zpos q) e l) as [mrs1 e1]. cbn [fst snd] in Hm1, He1.
  rewrite Hm1.
  pose proof (round_nearest_even_bounds (Zpos q1) (loc_of_shr_record mrs1)) as Hround.
  destruct (round_nearest_even (Zpos q1) (loc_of_shr_record mrs1)) as [|q2|q2] eqn:Hq2;
    try lia.
  pose proof (digits2_pos_bounds q1) as Hq1. rewrite Hd1 in Hq1.
  pose proof (digits2_pos_bounds q2) as Hb.
  assert (Hd2 : prec <= Zpos (digits2_pos q2) <= prec + 1).
  { split.
    - destruct (Z.lt_ge_cases (Zpos (digits2_pos q2)) prec) as [Hlt|]; [|assumption].
      assert (2 ^ Zpos (digits2_pos q2) <= 2 ^ (prec - 1))
        by (apply Z.pow_le_mono_r; lia).
      lia.
    - destruct (Z.le_gt_cases (Zpos (digits2_pos q2)) (prec + 1)) as [|Hgt];
        [assumption|].
      assert (2 ^ (prec + 1) <= 2 ^ (Zpos (digits2_pos q2) - 1))
        by (apply Z.pow_le_mono_r; lia).
      assert (2 ^ prec < 2 ^ (prec + 1)) by reflexivity.
      lia. }
  destruct (shr_fexp_digits q2 e1 loc_Exact) as (q3 & Hm3 & Hd3 & He3 & _);
    [lia | unfold prec in *; lia |].
  destruct (shr_fexp prec emax (Zpos q2) e1 loc_Exact) as [mrs3 e3]. cbn [fst snd] in Hm3, He3.
  rewrite Hm3.
  destruct (Z.leb_spec e3 (emax - prec)) as [_|Hover];
    [exists q3, e3; reflexivity | unfold prec, emax in *; lia].
Qed.

(** The double of an unsigned integer is zero or finite and above zero. *)
Lemma of_uint63_finite k :
  Prim2SF (of_uint63 k) = S754_zero false
  \/ exists m e, Prim2SF (of_uint63 k) = S754_finite false m e.
Proof.
  rewrite of_uint63_spec. pose proof (Uint63.to_Z_bounded k) as Hk.
  change wB with (2 ^ 63) in Hk.
  destruct (to_Z k) as [|p|p]; [left; reflexivity | right | lia].
  cbn [binary_normalize].
  destruct (Z.lt_ge_cases (Zpos p) (2 ^ prec)) as [Hsmall|Hlarge].
  - destruct (binary_round_normal p Hsmall) as (m & e & Hround & _). eauto.
  - unfold binary_round.
    pose proof (digits2_pos_bounds p) as [Hlow Hhigh].
    set (d := Zpos (digits2_pos p)) in *.
    assert (Hd : prec < d <= 63).
    { split.
      - destruct (Z.lt_ge_cases prec d) as [|Hle]; [assumption|].
        assert (2 ^ d <= 2 ^ prec) by (apply Z.pow_le_mono_r; lia). lia.
      - destruct (Z.le_gt_cases d 63) as [|Hgt]; [assumption|].
        assert (2 ^ 63 <= 2 ^ (d - 1)) by (apply Z.pow_le_mono_r; lia). lia. }
    assert (Hfexp : fexp prec emax (d + 0) = d - prec).
    { unfold fexp, emin, prec, emax in *. lia. }
    rewrite Hfexp. unfold shl_align.
    destruct (d - prec - 0) as [|n|n] eqn:Hn; try lia.
    apply binary_round_aux_finite; fold d; unfold prec, emax in *; lia.
Qed.

(** One over a finite double above zero is above zero. *)
Lemma SFdiv_one_positive my ey :
  bounded prec emax my ey = true ->
  sf_positive (SFdiv prec emax sf_one (S754_finite false my ey)) = true.
Proof.
  intros Hb. apply bounded_range in Hb as [Hey Hdy].
  unfold SFdiv, sf_one, SFdiv_core_binary. rewrite !Zdigits2_pos.
  change (Zpos (digits2_pos 4503599627370496)) with 53.
  pose proof (digits2_pos_bounds my) as [_ Hmy].
  set (d := Zpos (digits2_pos my)) in *.
  set (e' := Z.min (fexp prec emax (53 + -52 - (d + ey))) (-52 - ey)).
  assert (He' : emin prec emax <= e' /\ 1 <= -52 - ey - e').
  { unfold e', fexp, emin, prec, emax in *. unfold d in *. lia. }
  destruct (-52 - ey - e') as [|s|s] eqn:Hs; try lia.
  rewrite Z.shiftl_mul_pow2 by lia.
  assert (Hpow : 2 ^ prec <= 4503599627370496 * 2 ^ Zpos s).
  { assert (2 ^ 1 <= 2 ^ Zpos s) by (apply Z.pow_le_mono_r; lia).
    change (2 ^ prec) with (4503599627370496 * 2 ^ 1). nia. }
  assert (Hmy' : Zpos my < 2 ^ prec).
  { assert (2 ^ d <= 2 ^ prec) by (apply Z.pow_le_mono_r; unfold d in *; lia). lia. }
  pose proof (Z.div_eucl_eq (4503599627370496 * 2 ^ Zpos s) (Zpos my)) as Hdiv.
  pose proof (Z.mod_pos_bound (4503599627370496 * 2 ^ Zpos s) (Zpos my)) as Hmod.
  unfold Z.modulo in Hmod.
  destruct (Z.div_eucl (4503599627370496 * 2 ^ Zpos s) (Zpos my)) as [q r].
  specialize (Hdiv ltac:(lia)). specialize (Hmod ltac:(lia)).
  assert (Hq : 1 <= q) by nia.
  destruct q as [|q|q]; try lia. cbn [xorb].
  apply binary_round_aux_positive. lia.
Qed.

Lemma inv_above_zero k : above_zero (1 / of_uint63 k).
Proof.
  rewrite above_zero_spec, FloatAxioms.div_spec, Prim2SF_one. unfold SF64div.
  pose proof (Prim2SF_valid (of_uint63 k)) as Hvalid.
  destruct (of_uint63_finite k) as [Hzero | (m & e & Hfinite)].
  - rewrite Hzero. reflexivity.
  - rewrite Hfinite in *. apply SFdiv_one_positive, Hvalid.
Qed.

Lemma above_zero_not_negative x : above_zero x -> not_negative x.
Proof.
  rewrite above_zero_spec, not_negative_spec.
  destruct (Prim2SF x) as [s|s| |s m e]; simpl; congruence.
Qed.

(** ** Words and their validity *)

Lemma IsValidWord_app a b :
  IsValidWord (a ++ b) = IsValidWord a && IsValidWord b.
Proof.
  induction a as [|c a IH]; [reflexivity|].
  change (IsValidWord (String c (a ++ b)) =
          (negb (is_control c) && IsValidWord a) && IsValidWord b).
  change (IsValidWord (String c (a ++ b)))
    with (negb (is_control c) && IsValidWord (a ++ b)).
  rewrite IH. apply andb_assoc.
Qed.

Lemma is_control_spec c :
  is_control c = true <-> 0 <= Z.of_N (N_of_ascii c) < 32.
Proof.
  unfold is_control, char_value.
  pose proof (N_ascii_bounded c) as Hc.
  destruct (Z.of_N (N_of_ascii c) <? 128) eqn:H128;
    rewrite andb_true_iff, Z.leb_le, Z.ltb_lt; lia.
Qed.

Lemma IsValidWord_false_iff word :
  IsValidWord word = false <->
  exists c, In c (list_ascii_of_string word) /\ 0 <= Z.of_N (N_of_ascii c) < 32.
Proof.
  induction word as [|c word IH].
  - split; [discriminate | intros (c & [] & _)].
  - change (IsValidWord (String c word))
      with (negb (is_control c) && IsValidWord word).
    rewrite andb_false_iff, negb_false_iff, is_control_spec, IH. simpl.
    split.
    + intros [Hc | (c' & Hin & Hc')]; eauto.
    + intros (c' & [-> | Hin] & Hc'); eauto.
Qed.

(** Every word read is made of characters of the text (or of the word being
    read when the text begins). *)
Lemma read_words_valid text : forall word w,
  IsValidWord text = true -> IsValidWord word = true ->
  In w (read_words text word) -> IsValidWord w = true.
Proof.
  induction text as [|c text IH]; intros word w Htext Hword Hin; simpl in Hin.
  - destruct word; simpl in Hin; [contradiction|].
    destruct Hin as [<- | []]. exact Hword.
  - change (IsValidWord (String c text))
      with (negb (is_control c) && IsValidWord text) in Htext.
    apply andb_true_iff in Htext as [Hc Htext].
    destruct (isspace c).
    + destruct word; simpl in Hin.
      * apply (IH EmptyString); auto.
      * destruct Hin as [<- | Hin]; [exact Hword|].
        apply (IH EmptyString); auto.
    + apply (IH (String.append word (String c EmptyString))); auto.
      rewrite IsValidWord_app, Hword. simpl.
      change (IsValidWord (String c EmptyString)) with (negb (is_control c) && true).
      rewrite Hc. reflexivity.
Qed.

Lemma SplitIntoWords_valid text w :
  IsValidWord text = true -> In w (SplitIntoWords text) -> IsValidWord w = true.
Proof. intros Htext. apply read_words_valid; auto. Qed.

(** No word read is empty. *)
Lemma read_words_not_empty text : forall word w,
  In w (read_words text word) -> w <> EmptyString.
Proof.
  induction text as [|c text IH]; intros word w Hin; simpl in Hin.
  - destruct word; simpl in Hin; [contradiction|].
    destruct Hin as [<- | []]. discriminate.
  - destruct (isspace c); [|eapply IH, Hin].
    destruct word; simpl in Hin; [eapply IH, Hin|].
    destruct Hin as [<- | Hin]; [discriminate | eapply IH, Hin].
Qed.

(** A text with an invalid word is itself invalid. *)
Lemma SplitIntoWords_invalid text w :
  In w (SplitIntoWords text) -> IsValidWord w = false -> IsValidWord text = false.
Proof.
  intros Hin Hw. destruct (IsValidWord text) eqn:Htext; [|reflexivity].
  rewrite (SplitIntoWords_valid text w Htext Hin) in Hw. discriminate.
Qed.

(** ** Parsing a query *)

Lemma starts_with_minus_true text :
  starts_with_minus text = true -> exists rest, text = String "-" rest.
Proof.
  destruct text as [|c rest]; simpl; [discriminate|].
  intros Hc. apply Ascii.eqb_eq in Hc. subst. eauto.
Qed.

Lemma ParseQueryWord_malformed server token :
  malformed_minus_token token -> IsValidWord token = true ->
  ParseQueryWord server token = Throw InvalidMinusWord.
Proof.
  intros [-> | (rest & ->)] Hvalid; [reflexivity|].
  unfold ParseQueryWord. cbn [starts_with_minus substr_1].
  rewrite Ascii.eqb_refl.
  change (IsValidWord (String "-" (String "-" rest)))
    with (true && IsValidWord (String "-" rest)) in Hvalid.
  simpl in Hvalid. rewrite Hvalid. cbn [negb starts_with_minus is_empty].
  rewrite Ascii.eqb_refl. reflexivity.
Qed.

Lemma ParseQueryWord_invalid server token :
  IsValidWord token = false ->
  ParseQueryWord server token =
  Throw (invalid_argument "Invalid word in ParseQueryWord function").
Proof.
  intros Hinvalid. unfold ParseQueryWord.
  destruct (starts_with_minus token) eqn:Hminus.
  - apply starts_with_minus_true in Hminus as (rest & ->).
    change (IsValidWord (String "-" rest)) with (true && IsValidWord rest) in Hinvalid.
    simpl in *. rewrite Hinvalid. reflexivity.
  - rewrite Hinvalid. reflexivity.
Qed.

(** A token of valid characters is parsed, or rejected as a malformed
    minus-word. *)
Lemma ParseQueryWord_valid server token :
  IsValidWord token = true ->
  ParseQueryWord server token = Throw InvalidMinusWord
  \/ exists query_word, ParseQueryWord server token = Ok query_word.
Proof.
  intros Hvalid. unfold ParseQueryWord.
  assert (Hstripped : IsValidWord
            (if starts_with_minus token then substr_1 token else token) = true).
  { destruct (starts_with_minus token) eqn:Hminus; [|exact Hvalid].
    apply starts_with_minus_true in Hminus as (rest & ->).
    change (IsValidWord (String "-" rest)) with (true && IsValidWord rest) in Hvalid.
    exact Hvalid. }
  rewrite Hstripped. simpl.
  destruct (is_empty _ || starts_with_minus _); eauto.
Qed.

(** The exception of the minus-words is for a malformed minus-word. *)
Lemma ParseQueryWord_rejects server token :
  token <> EmptyString ->
  IsValidWord token = true ->
  ParseQueryWord server token = Throw InvalidMinusWord ->
  malformed_minus_token token.
Proof.
  intros Hne Hvalid Hthrow. unfold ParseQueryWord in Hthrow.
  destruct (starts_with_minus token) eqn:Hminus.
  - apply starts_with_minus_true in Hminus as [word ->]. simpl in Hthrow.
    destruct (negb (IsValidWord word)); [discriminate|].
    destruct word as [|c word]; [left; reflexivity|].
    simpl in Hthrow. destruct (Ascii.eqb c "-") eqn:Hc; [|discriminate].
    apply Ascii.eqb_eq in Hc as ->. right. eauto.
  - rewrite Hvalid in Hthrow. simpl in Hthrow.
    destruct token as [|c token]; [contradiction|].
    simpl in Hminus, Hthrow. rewrite Hminus in Hthrow. discriminate.
Qed.

Lemma ParseQueryWord_Ok server token query_word :
  ParseQueryWord server token = Ok query_word ->
  let text := if starts_with_minus token then substr_1 token else token in
  query_word = {| data := text; is_minus := starts_with_minus token;
                  is_stop := IsStopWord server text |}
  /\ IsValidWord text = true /\ starts_with_minus text = false /\ text <> EmptyString.
Proof.
  unfold ParseQueryWord. cbv zeta.
  set (text := if starts_with_minus token then substr_1 token else token).
  intros H.
  destruct (IsValidWord text) eqn:Hvalid; simpl in H; [|discriminate].
  destruct (is_empty text) eqn:Hempty; simpl in H; [discriminate|].
  destruct (starts_with_minus text) eqn:Hminus; [discriminate|].
  inversion H; subst query_word. repeat split; auto.
  intros Htext. rewrite Htext in Hempty. discriminate.
Qed.

Lemma ParseQuery_unfold server text :
  ParseQuery server text = for_each (parse_step server) (SplitIntoWords text) empty_query.
Proof. reflexivity. Qed.

Lemma parse_step_grows server query token query' :
  parse_step server query token = Ok query' ->
  plus_words query ⊆ plus_words query' /\ minus_words query ⊆ minus_words query'
  /\ classified server query' token.
Proof.
  unfold parse_step, classified. intros H.
  destruct (ParseQueryWord server token) as [query_word|e] eqn:Hword;
    [|discriminate].
  change (result_bind ?f (Ok ?a)) with (f a) in H. simpl in H.
  unfold mbind, result_mbind, result_bind in H.
  destruct (is_stop query_word) eqn:Hstop.
  - inversion H; subst. split; [reflexivity|]. split; [reflexivity|].
    exists query_word. split; [reflexivity|]. rewrite Hstop. discriminate.
  - destruct (is_minus query_word) eqn:Hminus; inversion H; subst; simpl.
    + split; [reflexivity|]. split; [apply union_subseteq_r|].
      exists query_word. split; [reflexivity|]. intros _. rewrite Hminus.
      simpl. apply elem_of_union_l, elem_of_singleton. reflexivity.
    + split; [apply union_subseteq_r|]. split; [reflexivity|].
      exists query_word. split; [reflexivity|]. intros _. rewrite Hminus.
      simpl. apply elem_of_union_l, elem_of_singleton. reflexivity.
Qed.

Lemma parse_loop_spec server tokens : forall query query',
  for_each (parse_step server) tokens query = Ok query' ->
  plus_words query ⊆ plus_words query' /\ minus_words query ⊆ minus_words query'
  /\ forall token, In token tokens -> classified server query' token.
Proof.
  induction tokens as [|token tokens IH]; intros query query' H; simpl in H.
  - inversion H; subst. split; [reflexivity|]. split; [reflexivity|].
    intros token [].
  - destruct (parse_step server query token) as [query1|e] eqn:Hstep;
      [|discriminate].
    apply parse_step_grows in Hstep as (Hplus & Hminus & (qw & Hqw & Hin)).
    apply IH in H as (Hplus' & Hminus' & Hall).
    split; [etrans; eassumption|]. split; [etrans; eassumption|].
    intros token' [<- | Htoken]; [|auto].
    exists qw. split; [assumption|]. intros Hstop. specialize (Hin Hstop).
    destruct (is_minus qw); eapply elem_of_weaken; eassumption.
Qed.

Lemma ParseQuery_classified server text query token :
  ParseQuery server text = Ok query -> In token (SplitIntoWords text) ->
  classified server query token.
Proof.
  rewrite ParseQuery_unfold. intros H. apply parse_loop_spec in H. apply H.
Qed.

(** Tokens of valid characters, one of them a malformed minus-word: the loop
    throws at the first such token. *)
Lemma parse_loop_malformed server tokens : forall query,
  (forall token, In token tokens -> IsValidWord token = true) ->
  (exists token, In token tokens /\ malformed_minus_token token) ->
  for_each (parse_step server) tokens query = Throw InvalidMinusWord.
Proof.
  induction tokens as [|token tokens IH]; intros query Hvalid (bad & Hin & Hbad).
  - destruct Hin.
  - simpl. unfold parse_step at 1.
    destruct (ParseQueryWord_valid server token) as [Hthrow | (qw & Hok)].
    { apply Hvalid. simpl; auto. }
    + rewrite Hthrow. reflexivity.
    + rewrite Hok.
      assert (Htail : exists token', In token' tokens /\ malformed_minus_token token').
      { destruct Hin as [-> | Hin]; [|eauto].
        rewrite ParseQueryWord_malformed in Hok; [discriminate|assumption|].
        apply Hvalid. simpl; auto. }
      change (result_bind ?f (Ok ?a)) with (f a).
      unfold mbind, result_mbind, result_bind.
      destruct (is_stop qw); [|destruct (is_minus qw)];
        apply IH; auto; intros t Ht; apply Hvalid; simpl; auto.
Qed.

(** The exception is the one of invalid text, unless a malformed minus-word
    of valid characters comes first. *)
Lemma parse_loop_invalid_text server tokens : forall query token,
  (forall t, In t tokens -> t <> EmptyString) ->
  In token tokens -> IsValidWord token = false ->
  for_each (parse_step server) tokens query
  = Throw (invalid_argument "Invalid word in ParseQueryWord function")
  \/ ((exists t, In t tokens /\ IsValidWord t = true /\ malformed_minus_token t)
      /\ for_each (parse_step server) tokens query = Throw InvalidMinusWord).
Proof.
  induction tokens as [|token0 tokens IH]; intros query token Hne Hin Hinvalid.
  - destruct Hin.
  - cbn [for_each].
    destruct (IsValidWord token0) eqn:Hvalid0.
    + destruct (ParseQueryWord_valid server token0 Hvalid0) as [Hthrow | (qw & Hok)].
      * assert (Hstep : parse_step server query token0 = Throw InvalidMinusWord)
          by (unfold parse_step; rewrite Hthrow; reflexivity).
        rewrite Hstep. right. split; [|reflexivity].
        exists token0. split; [left; reflexivity|]. split; [exact Hvalid0|].
        apply (ParseQueryWord_rejects server); [|assumption..].
        apply Hne. left. reflexivity.
      * assert (Hstep : exists query1, parse_step server query token0 = Ok query1).
        { unfold parse_step. rewrite Hok.
          change (result_bind ?f (Ok ?a)) with (f a).
          unfold mbind, result_mbind, result_bind.
          destruct (is_stop qw); [|destruct (is_minus qw)]; eauto. }
        destruct Hstep as [query1 ->].
        destruct Hin as [-> | Hin]; [congruence|].
        destruct (IH query1 token) as [Htext | [(t & Ht & Hvalid & Hbad) Hminus]];
          [intros t Ht; apply Hne; right; exact Ht | assumption.. | |].
        { left. exact Htext. }
        right. split; [|exact Hminus]. exists t. split; [right; exact Ht | auto].
    + assert (Hstep : parse_step server query token0
                      = Throw (invalid_argument "Invalid word in ParseQueryWord function"))
        by (unfold parse_step; rewrite (ParseQueryWord_invalid _ _ Hvalid0); reflexivity).
      rewrite Hstep. left. reflexivity.
Qed.

(** ** Machine integers in range *)

Lemma int_wrap_small z : - 2 ^ 31 <= z < 2 ^ 31 -> int_wrap z = z.
Proof.
  intros Hz. unfold int_wrap.
  rewrite Z.mod_small; lia.
Qed.

(** ** Splitting a document *)

Lemma SplitIntoWordsNoStop_unfold server text :
  SplitIntoWordsNoStop server text =
  for_each (no_stop_step server) (SplitIntoWords text) [].
Proof. reflexivity. Qed.

Lemma no_stop_loop_invalid server tokens : forall words word,
  In word tokens -> IsValidWord word = false ->
  for_each (no_stop_step server) tokens words =
  Throw (invalid_argument "Invalid word in SplitIntoWordsNoStop function").
Proof.
  induction tokens as [|token tokens IH]; intros words word Hin Hinvalid.
  - destruct Hin.
  - simpl. unfold no_stop_step at 1.
    destruct (IsValidWord token) eqn:Htoken; simpl; [|reflexivity].
    destruct Hin as [-> | Hin]; [congruence|].
    destruct (IsStopWord server token); simpl; eauto.
Qed.

Lemma no_stop_loop_stop_words server tokens : forall words,
  (forall word, In word tokens ->
                IsValidWord word = true /\ IsStopWord server word = true) ->
  for_each (no_stop_step server) tokens words = Ok words.
Proof.
  induction tokens as [|token tokens IH]; intros words Hall; [reflexivity|].
  simpl. unfold no_stop_step at 1.
  destruct (Hall token) as [Hvalid Hstop]; [simpl; auto|].
  rewrite Hvalid, Hstop. simpl. apply IH.
  intros word Hin. apply Hall. simpl; auto.
Qed.

Lemma AddDocument_bad_id server document_id document status ratings :
  document_id < 0 \/ is_Some (documents_ server !! document_id) ->
  AddDocument server document_id document status ratings =
  (Some DuplicateOrInvalidId, server).
Proof.
  intros Hbad. unfold AddDocument.
  destruct (_ || _) eqn:Hcheck; [reflexivity|].
  apply orb_false_iff in Hcheck as [Hneg Hdup].
  apply Z.ltb_ge in Hneg. apply bool_decide_eq_false in Hdup.
  destruct Hbad; [lia | contradiction].
Qed.

Lemma AddDocument_good_id server document_id document status ratings :
  0 <= document_id -> documents_ server !! document_id = None ->
  AddDocument server document_id document status ratings =
  match SplitIntoWordsNoStop server document with
  | Throw e => (Some e, server)
  | Ok words =>
      (None,
       {| stop_words_ := stop_words_ server;
          word_to_document_freqs_ :=
            foldl (add_word_freq document_id (1 / double_of_size (length words)))
                  (word_to_document_freqs_ server) words;
          documents_ :=
            <[document_id := {| data_rating := ComputeAverageRating ratings;
                                data_status := status |}]> (documents_ server);
          document_ids := document_ids server ++ [document_id] |})
  end.
Proof.
  intros Hpos Hfresh. unfold AddDocument.
  destruct (_ || _) eqn:Hcheck; [|reflexivity].
  apply orb_true_iff in Hcheck as [Hneg | Hdup].
  - apply Z.ltb_lt in Hneg. lia.
  - apply bool_decide_eq_true in Hdup. rewrite Hfresh in Hdup.
    destruct Hdup; discriminate.
Qed.

(** A call either throws and leaves the server as it was, or adds one
    entry to the table of documents. *)
Lemma AddDocument_cases server document_id document status ratings :
  (exists e, AddDocument server document_id document status ratings = (Some e, server))
  \/ (0 <= document_id /\ documents_ server !! document_id = None /\
      exists words,
        SplitIntoWordsNoStop server document = Ok words /\
        AddDocument server document_id document status ratings =
        (None,
         {| stop_words_ := stop_words_ server;
            word_to_document_freqs_ :=
              foldl (add_word_freq document_id (1 / double_of_size (length words)))
                    (word_to_document_freqs_ server) words;
            documents_ :=
              <[document_id := {| data_rating := ComputeAverageRating ratings;
                                  data_status := status |}]> (documents_ server);
            document_ids := document_ids server ++ [document_id] |})).
Proof.
  destruct (Z.lt_ge_cases document_id 0) as [Hneg | Hpos].
  { left. eexists. apply AddDocument_bad_id. auto. }
  destruct (documents_ server !! document_id) eqn:Hfresh.
  { left. eexists. apply AddDocument_bad_id. right. rewrite Hfresh. eauto. }
  rewrite AddDocument_good_id by assumption.
  destruct (SplitIntoWordsNoStop server document) as [words|e]; eauto 10.
Qed.

(** ** Servers that calls can produce *)

Lemma add_word_freq_lookup document_id inv freqs word word' postings' :
  add_word_freq document_id inv freqs word !! word' = Some postings' ->
  (word' = word /\
   postings' = <[document_id :=
                   (default 0%float (default ∅ (freqs !! word) !! document_id) + inv)%float]>
                 (default ∅ (freqs !! word)))
  \/ (word' <> word /\ freqs !! word' = Some postings').
Proof.
  unfold add_word_freq. destruct (decide (word' = word)) as [-> | Hne].
  - rewrite lookup_insert_eq. intros [= <-]. auto.
  - rewrite lookup_insert_ne by congruence. auto.
Qed.

Section AddWords.
Variables (document_id : Z) (inv : float).
Variable documents : gmap Z DocumentData.
Hypothesis inv_ok : above_zero inv.
Hypothesis document_known : is_Some (documents !! document_id).

Lemma add_word_freq_ok freqs word :
  postings_ok documents freqs ->
  postings_ok documents (add_word_freq document_id inv freqs word).
Proof.
  intros Hok word' postings' Hlookup.
  apply add_word_freq_lookup in Hlookup as [[-> ->] | [Hne Hold]];
    [|apply (Hok word' postings' Hold)].
  split.
  { intros Hempty. apply (f_equal (fun m => m !! document_id)) in Hempty.
    rewrite lookup_insert_eq, lookup_empty in Hempty. discriminate. }
  intros id term_freq. destruct (decide (id = document_id)) as [-> | Hid].
  - rewrite lookup_insert_eq. intros [= <-]. split; [assumption|].
    destruct (freqs !! word) as [postings|] eqn:Hword; simpl.
    + destruct (postings !! document_id) as [old|] eqn:Hold; simpl;
        [|apply zero_add_above_zero, inv_ok].
      apply add_above_zero; [|exact inv_ok].
      exact (proj2 (proj2 (Hok word postings Hword) document_id old Hold)).
    + rewrite lookup_empty. apply zero_add_above_zero, inv_ok.
  - rewrite lookup_insert_ne by congruence.
    destruct (freqs !! word) as [postings|] eqn:Hword; simpl.
    + apply (proj2 (Hok word postings Hword)).
    + rewrite lookup_empty. discriminate.
Qed.

Lemma add_words_ok words : forall freqs,
  postings_ok documents freqs ->
  postings_ok documents (foldl (add_word_freq document_id inv) freqs words).
Proof.
  induction words as [|word words IH]; intros freqs Hok; simpl; [assumption|].
  apply IH, add_word_freq_ok, Hok.
Qed.
End AddWords.

Lemma add_words_unposted document_id inv other words : forall freqs,
  other <> document_id ->
  unposted freqs other ->
  unposted (foldl (add_word_freq document_id inv) freqs words) other.
Proof.
  induction words as [|word words IH]; intros freqs Hne Hun; simpl; [assumption|].
  apply IH; [assumption|].
  intros word' postings' Hlookup.
  apply add_word_freq_lookup in Hlookup as [[-> ->] | [_ Hold]];
    [|apply (Hun word' postings' Hold)].
  rewrite lookup_insert_ne by congruence.
  destruct (freqs !! word) as [postings|] eqn:Hword; simpl.
  - apply (Hun word postings Hword).
  - apply lookup_empty.
Qed.

Lemma consistent_postings_ok server :
  consistent server <-> postings_ok (documents_ server) (word_to_document_freqs_ server).
Proof.
  split.
  - intros [Hne Hknown Hnn] word postings Hword. split; [eauto|].
    intros id term_freq Hid. split; eauto.
  - intros Hok. split.
    + intros word postings Hword. apply (proj1 (Hok word postings Hword)).
    + intros word postings id term_freq Hword Hid.
      apply (proj2 (Hok word postings Hword) id term_freq Hid).
    + intros word postings id term_freq Hword Hid.
      apply (proj2 (Hok word postings Hword) id term_freq Hid).
Qed.

Lemma MakeSearchServer_consistent stop_words server :
  MakeSearchServer stop_words = Ok server -> consistent server.
Proof.
  unfold MakeSearchServer. destruct (forallb _ _); [|discriminate].
  intros [= <-]. split; simpl; intros word postings; rewrite lookup_empty;
    discriminate.
Qed.

Lemma AddDocument_consistent server document_id document status ratings :
  consistent server ->
  consistent (snd (AddDocument server document_id document status ratings)).
Proof.
  intros Hcons.
  destruct (AddDocument_cases server document_id document status ratings)
    as [[e ->] | (Hpos & Hfresh & words & _ & ->)]; [exact Hcons|].
  simpl. apply consistent_postings_ok. simpl.
  apply add_words_ok.
  - apply inv_above_zero.
  - rewrite lookup_insert_eq. eauto.
  - apply consistent_postings_ok in Hcons.
    intros word postings Hword. destruct (Hcons word postings Hword) as [Hne Hids].
    split; [assumption|]. intros id term_freq Hid.
    destruct (Hids id term_freq Hid) as [Hknown Hnn]. split; [|assumption].
    destruct (decide (id = document_id)) as [-> | Hne'].
    + rewrite lookup_insert_eq. eauto.
    + rewrite lookup_insert_ne by congruence. assumption.
Qed.

Lemma later_consistent server server' :
  consistent server -> later server server' -> consistent server'.
Proof.
  intros Hcons Hlater. induction Hlater; [assumption|].
  apply AddDocument_consistent. assumption.
Qed.

Lemma reachable_consistent server : reachable server -> consistent server.
Proof.
  intros (stop_words & server0 & Hnew & Hlater).
  eapply later_consistent; [|eassumption].
  eapply MakeSearchServer_consistent, Hnew.
Qed.

Lemma later_trans server1 server2 server3 :
  later server1 server2 -> later server2 server3 -> later server1 server3.
Proof.
  intros H12 H23. induction H23; [assumption|].
  constructor. assumption.
Qed.

(** A document of the table stays in it, and a document in no posting list
    stays in none. *)
Lemma later_unposted server server' document_id :
  is_Some (documents_ server !! document_id) ->
  unposted (word_to_document_freqs_ server) document_id ->
  later server server' ->
  is_Some (documents_ server' !! document_id)
  /\ unposted (word_to_document_freqs_ server') document_id.
Proof.
  intros Hknown Hun Hlater.
  induction Hlater as [|server' id document status ratings Hlater [IHknown IHun]];
    [auto|].
  destruct (AddDocument_cases server' id document status ratings)
    as [[e ->] | (Hpos & Hfresh & words & _ & ->)]; [auto|].
  simpl.
  assert (Hne : document_id <> id).
  { intros ->. rewrite Hfresh in IHknown. destruct IHknown; discriminate. }
  split.
  - rewrite lookup_insert_ne by congruence. assumption.
  - apply add_words_unposted; assumption.
Qed.

(** ** The search *)

Lemma has_word_true server word document_id :
  has_word server word document_id = true <->
  exists postings term_freq,
    word_to_document_freqs_ server !! word = Some postings
    /\ postings !! document_id = Some term_freq.
Proof.
  unfold has_word. destruct (word_to_document_freqs_ server !! word) as [postings|].
  - rewrite bool_decide_eq_true. split.
    + intros [term_freq Htf]. eauto.
    + intros (postings' & term_freq & [= <-] & Htf). eauto.
  - split; [discriminate | intros (? & ? & ? & _); discriminate].
Qed.

Lemma has_word_false server word document_id :
  has_word server word document_id = false <->
  forall postings,
    word_to_document_freqs_ server !! word = Some postings ->
    postings !! document_id = None.
Proof.
  unfold has_word. destruct (word_to_document_freqs_ server !! word) as [postings|].
  - rewrite bool_decide_eq_false. split.
    + intros Hnone postings' [= <-].
      destruct (postings !! document_id) eqn:E; [|reflexivity].
      exfalso. apply Hnone. eauto.
    + intros Hnone [term_freq Htf]. rewrite (Hnone postings eq_refl) in Htf.
      discriminate.
  - split; [intros _ ? ?; discriminate | reflexivity].
Qed.

(** The two lookups of [MatchDocument], [count(word)] on the index and
    [count(document_id)] on the posting list, find what the index holds. *)
Lemma term_freq_of_has_word server word document_id :
  has_word server word document_id = true
  <-> is_Some (term_freq_of server word document_id).
Proof.
  unfold has_word, term_freq_of.
  destruct (word_to_document_freqs_ server !! word) as [postings|].
  - apply bool_decide_eq_true.
  - split; [discriminate | intros [? ?]; discriminate].
Qed.

Lemma term_freq_of_None server word document_id :
  has_word server word document_id = false
  <-> term_freq_of server word document_id = None.
Proof.
  unfold has_word, term_freq_of.
  destruct (word_to_document_freqs_ server !! word) as [postings|]; [|tauto].
  rewrite bool_decide_eq_false. split.
  - intros Hnone. destruct (postings !! document_id) eqn:E; [|reflexivity].
    exfalso. apply Hnone. eauto.
  - intros -> [term_freq Htf]. discriminate.
Qed.

Section Search.
Variable std_log : float -> float.
Variable server : SearchServer.
Variable doc_pred : DocPredicate.

Lemma add_plus_word_unfold document_to_relevance word :
  add_plus_word std_log server doc_pred document_to_relevance word =
  match word_to_document_freqs_ server !! word with
  | None => Ok document_to_relevance
  | Some postings =>
      for_each (add_posting server doc_pred
                  (std_log (double_of_int (GetDocumentCount server) * 1
                            / double_of_size (size postings))%float))
               (sorted_items postings) document_to_relevance
  end.
Proof.
  unfold add_plus_word, ComputeWordInverseDocumentFreq.
  destruct (word_to_document_freqs_ server !! word); reflexivity.
Qed.

(** An invariant of the relevance map [P] that every accepted posting
    keeps is kept by the loop over the plus-words. *)
Lemma plus_loop_invariant (P : gmap Z float -> Prop) words acc acc' :
  P acc ->
  (forall word postings document_id term_freq document_info acc1,
      In word words ->
      word_to_document_freqs_ server !! word = Some postings ->
      postings !! document_id = Some term_freq ->
      documents_ server !! document_id = Some document_info ->
      doc_pred document_id (data_status document_info) (data_rating document_info) = true ->
      P acc1 ->
      P (<[document_id :=
             (default 0%float (acc1 !! document_id)
              + term_freq * std_log (double_of_int (GetDocumentCount server) * 1
                                     / double_of_size (size postings)))%float]> acc1)) ->
  for_each (add_plus_word std_log server doc_pred) words acc = Ok acc' ->
  P acc'.
Proof.
  intros Hacc Hstep. apply for_each_invariant; [assumption|].
  intros acc1 word acc2 Hword Hacc1. rewrite add_plus_word_unfold.
  destruct (word_to_document_freqs_ server !! word) as [postings|] eqn:Hpostings;
    [|intros [= <-]; assumption].
  apply for_each_invariant; [assumption|].
  intros acc3 [document_id term_freq] acc4 Hin Hacc3. unfold add_posting.
  apply sorted_items_In in Hin.
  destruct (documents_ server !! document_id) as [document_info|] eqn:Hinfo;
    [|discriminate].
  destruct (doc_pred _ _ _) eqn:Hpred; intros [= <-]; [|assumption].
  eapply Hstep; eauto.
Qed.

Lemma erase_postings_lookup (items : list (Z * float)) :
  forall (acc : gmap Z float) document_id relevance,
  foldl (fun acc '(id, _) => delete id acc) acc items !! document_id = Some relevance ->
  acc !! document_id = Some relevance
  /\ forall term_freq, ~ In (document_id, term_freq) items.
Proof.
  induction items as [|[id tf] items IH]; intros acc document_id relevance H;
    simpl in H.
  - split; [assumption | intros ? []].
  - apply IH in H as [Hlookup Hnotin].
    destruct (decide (id = document_id)) as [-> | Hne].
    + rewrite lookup_delete_eq in Hlookup. discriminate.
    + rewrite lookup_delete_ne in Hlookup by congruence.
      split; [assumption|].
      intros term_freq [[= ? ?] | Hin]; [congruence|].
      apply (Hnotin term_freq Hin).
Qed.

Lemma erase_minus_word_lookup acc word document_id relevance :
  erase_minus_word server acc word !! document_id = Some relevance ->
  acc !! document_id = Some relevance /\ has_word server word document_id = false.
Proof.
  unfold erase_minus_word. intros H. rewrite has_word_false.
  destruct (word_to_document_freqs_ server !! word) as [postings|] eqn:Hpostings.
  - apply erase_postings_lookup in H as [Hlookup Hnotin].
    split; [assumption|]. intros postings' [= <-].
    destruct (postings !! document_id) as [term_freq|] eqn:Hid; [|reflexivity].
    exfalso. apply (Hnotin term_freq). apply sorted_items_In. assumption.
  - split; [assumption | discriminate].
Qed.

Lemma minus_loop_lookup words : forall acc document_id relevance,
  foldl (erase_minus_word server) acc words !! document_id = Some relevance ->
  acc !! document_id = Some relevance
  /\ forall word, In word words -> has_word server word document_id = false.
Proof.
  induction words as [|word words IH]; intros acc document_id relevance H;
    simpl in H.
  - split; [assumption | intros ? []].
  - apply IH in H as [Hlookup Hrest].
    apply erase_minus_word_lookup in Hlookup as [Hlookup Hword].
    split; [assumption|]. intros word' [<- | Hin]; auto.
Qed.

Lemma push_loop_In (acc : gmap Z float) matched document :
  for_each (push_document server) (sorted_items acc) [] = Ok matched ->
  In document matched ->
  acc !! doc_id document = Some (relevance document)
  /\ exists document_info,
       documents_ server !! doc_id document = Some document_info
       /\ rating document = data_rating document_info.
Proof.
  intros Hloop. revert document.
  apply (for_each_invariant
           (fun matched => forall document, In document matched ->
              acc !! doc_id document = Some (relevance document)
              /\ exists document_info,
                   documents_ server !! doc_id document = Some document_info
                   /\ rating document = data_rating document_info)
           (push_document server) (sorted_items acc) [] matched);
    [intros ? [] | | exact Hloop].
  intros matched1 [document_id rel] matched2 Hin Hinv. unfold push_document.
  apply sorted_items_In in Hin.
  destruct (documents_ server !! document_id) as [document_info|] eqn:Hinfo;
    [|discriminate].
  intros [= <-] document Hdoc. apply in_app_or in Hdoc as [Hdoc | [<- | []]]; eauto.
Qed.

Lemma FindAllDocuments_unfold query :
  FindAllDocuments std_log server query doc_pred =
  match for_each (add_plus_word std_log server doc_pred)
                 (sorted_words (plus_words query)) ∅ with
  | Throw e => Throw e
  | Ok document_to_relevance =>
      for_each (push_document server)
        (sorted_items (foldl (erase_minus_word server) document_to_relevance
                             (sorted_words (minus_words query)))) []
  end.
Proof. reflexivity. Qed.

(** Every document found matches a plus-word under the predicate and
    holds no minus-word; its rating is the rating of the table. *)
Lemma FindAllDocuments_In query matched document :
  FindAllDocuments std_log server query doc_pred = Ok matched ->
  In document matched ->
  matches_plus server doc_pred query (doc_id document)
  /\ (forall word, word ∈ minus_words query ->
                   has_word server word (doc_id document) = false)
  /\ exists document_info,
       documents_ server !! doc_id document = Some document_info
       /\ rating document = data_rating document_info.
Proof.
  rewrite FindAllDocuments_unfold.
  destruct (for_each _ (sorted_words (plus_words query)) ∅) as [acc|e] eqn:Hplus;
    [|discriminate].
  intros Hpush Hin.
  destruct (push_loop_In _ _ _ Hpush Hin) as [Hlookup Hinfo].
  apply minus_loop_lookup in Hlookup as [Hlookup Hminus].
  split; [|split; [|assumption]].
  - assert (Hinv : forall id rel, acc !! id = Some rel ->
                                matches_plus server doc_pred query id).
    { eapply (plus_loop_invariant
                (fun acc => forall id rel, acc !! id = Some rel ->
                                           matches_plus server doc_pred query id));
        [| |exact Hplus].
      - intros id rel. rewrite lookup_empty. discriminate.
      - intros word postings document_id term_freq document_info acc1
               Hword Hpostings Htf Hinfo' Hpred Hacc1 id rel.
        destruct (decide (id = document_id)) as [-> | Hne].
        + intros _. exists word, document_info. repeat split; try assumption.
          * apply sorted_words_In, Hword.
          * apply has_word_true. eauto.
        + rewrite lookup_insert_ne by congruence. apply Hacc1. }
    eapply Hinv, Hlookup.
  - intros word Hword. apply Hminus, sorted_words_In, Hword.
Qed.
End Search.

Lemma FindAllDocuments_ext std_log server query doc_pred1 doc_pred2 :
  agree_on_plus server query doc_pred1 doc_pred2 ->
  FindAllDocuments std_log server query doc_pred1
  = FindAllDocuments std_log server query doc_pred2.
Proof.
  intros Hagree. rewrite !FindAllDocuments_unfold.
  rewrite (for_each_ext (add_plus_word std_log server doc_pred1)
                        (add_plus_word std_log server doc_pred2)); [reflexivity|].
  intros acc word Hword. rewrite !add_plus_word_unfold.
  destruct (word_to_document_freqs_ server !! word) as [postings|] eqn:Hpostings;
    [|reflexivity].
  apply for_each_ext. intros acc1 [document_id term_freq] Hin.
  apply sorted_items_In in Hin. unfold add_posting.
  destruct (documents_ server !! document_id) as [document_info|] eqn:Hinfo;
    [|reflexivity].
  rewrite (Hagree word document_id document_info); try assumption; [reflexivity| |].
  - apply sorted_words_In, Hword.
  - apply has_word_true. eauto.
Qed.

Lemma FindTopDocuments_Ok std_log std_sort server raw_query predict docs :
  FindTopDocuments std_log std_sort server raw_query predict = Ok docs ->
  IsValidWord raw_query = true
  /\ exists query matched,
       ParseQuery server raw_query = Ok query
       /\ FindAllDocuments std_log server query predict = Ok matched
       /\ docs = take 5 (std_sort by_relevance matched).
Proof.
  unfold FindTopDocuments. intros H.
  destruct (IsValidWord raw_query); simpl in H; [|discriminate].
  split; [reflexivity|].
  destruct (ParseQuery server raw_query) as [query|e]; [|discriminate].
  change (result_bind ?f (Ok ?a)) with (f a) in H.
  unfold mbind, result_mbind, result_bind in H.
  destruct (FindAllDocuments std_log server query predict) as [matched|e]
    eqn:Hmatched; [|discriminate].
  exists query, matched. split; [reflexivity|]. split; [assumption|].
  destruct (MAX_RESULT_DOCUMENT_COUNT <? _) eqn:Hmany; inversion H; subst.
  - reflexivity.
  - symmetry. apply take_ge. apply Z.ltb_ge in Hmany.
    unfold MAX_RESULT_DOCUMENT_COUNT in Hmany. lia.
Qed.

Lemma FindTopDocuments_In std_log std_sort server raw_query predict docs document :
  permutes std_sort ->
  FindTopDocuments std_log std_sort server raw_query predict = Ok docs ->
  In document docs ->
  exists query matched,
    ParseQuery server raw_query = Ok query
    /\ FindAllDocuments std_log server query predict = Ok matched
    /\ In document matched.
Proof.
  intros Hsort Hrun Hin.
  apply FindTopDocuments_Ok in Hrun as (_ & query & matched & Hquery & Hall & ->).
  exists query, matched. repeat split; try assumption.
  apply (Permutation_in _ (Hsort by_relevance matched)). apply list_elem_of_In.
  apply list_elem_of_In in Hin. eapply subseteq_take, Hin.
Qed.

(** On a consistent server a search throws only for its query. *)
Lemma FindAllDocuments_total std_log server query doc_pred :
  consistent server ->
  exists matched, FindAllDocuments std_log server query doc_pred = Ok matched.
Proof.
  intros Hcons. rewrite FindAllDocuments_unfold.
  pose (known := fun acc : gmap Z float =>
                   forall id rel, acc !! id = Some rel ->
                                  is_Some (documents_ server !! id)).
  destruct (for_each_total known (add_plus_word std_log server doc_pred)
              (sorted_words (plus_words query)) ∅) as (acc & -> & Hacc).
  { intros id rel. rewrite lookup_empty. discriminate. }
  { intros acc word _ Hacc. rewrite add_plus_word_unfold.
    destruct (word_to_document_freqs_ server !! word) as [postings|] eqn:Hword;
      [|eauto].
    apply for_each_total; [assumption|].
    intros acc1 [document_id term_freq] Hin Hacc1. unfold add_posting.
    apply sorted_items_In in Hin.
    destruct (postings_known _ Hcons word postings document_id term_freq Hword Hin)
      as [info Hinfo].
    rewrite Hinfo. destruct (doc_pred _ _ _); [|eauto].
    eexists. split; [reflexivity|]. intros id rel.
    destruct (decide (id = document_id)) as [-> | Hne].
    - intros _. eauto.
    - rewrite lookup_insert_ne by congruence. apply Hacc1. }
  destruct (for_each_total (fun _ => True) (push_document server)
              (sorted_items (foldl (erase_minus_word server) acc
                                   (sorted_words (minus_words query)))) [])
    as (matched & -> & _); [exact I | | eauto].
  intros matched [document_id rel] Hin _. unfold push_document.
  apply sorted_items_In, minus_loop_lookup in Hin as [Hin _].
  destruct (Hacc _ _ Hin) as [info ->]. eauto.
Qed.

Lemma FindTopDocuments_total std_log std_sort server raw_query predict query :
  consistent server ->
  IsValidWord raw_query = true ->
  ParseQuery server raw_query = Ok query ->
  exists docs, FindTopDocuments std_log std_sort server raw_query predict = Ok docs.
Proof.
  intros Hcons Hvalid Hquery. unfold FindTopDocuments.
  rewrite Hvalid, Hquery. simpl.
  change (result_bind ?f (Ok ?a)) with (f a).
  unfold mbind, result_mbind, result_bind.
  destruct (FindAllDocuments_total std_log server query predict Hcons) as [matched ->].
  destruct (_ <? _); eauto.
Qed.

(** ** The order of the results *)

Lemma ranked_by_relevance a b : ranked a b = negb (by_relevance b a).
Proof.
  unfold ranked, by_relevance.
  rewrite (abs_sub_comm (relevance b) (relevance a)).
  destruct (abs _ <? epsilon)%float; [|reflexivity].
  apply Z.leb_antisym.
Qed.

Lemma by_relevance_asym a b : by_relevance a b = true -> by_relevance b a = false.
Proof.
  unfold by_relevance.
  rewrite (abs_sub_comm (relevance b) (relevance a)).
  destruct (abs _ <? epsilon)%float.
  - rewrite Z.ltb_lt, Z.ltb_ge. lia.
  - apply ltb_asym.
Qed.

(** When every element may stand before the next one for the comparator, it
    may for [ranked]. *)
Lemma Sorted_ranked l :
  Sorted (in_order by_relevance) l -> Sorted (fun a b => ranked a b = true) l.
Proof.
  induction 1 as [|a l _ IH Hhd]; constructor; [assumption|].
  destruct Hhd as [|b l Hab]; constructor.
  rewrite ranked_by_relevance. unfold in_order in Hab. rewrite Hab. reflexivity.
Qed.

(** The comparator is a strict weak ordering on documents among which
    [ranked] is transitive. *)
Lemma by_relevance_strict_weak_order matched :
  (forall a b c, In a matched -> In b matched -> In c matched ->
                 ranked a b = true -> ranked b c = true -> ranked a c = true) ->
  strict_weak_order_on by_relevance matched.
Proof.
  intros Htrans.
  assert (Hcomp : forall a b, by_relevance a b = negb (ranked b a)).
  { intros a b. rewrite ranked_by_relevance, negb_involutive. reflexivity. }
  assert (Htotal : forall a b, ranked a b = false -> ranked b a = true).
  { intros a b H. rewrite ranked_by_relevance in H. apply negb_false_iff in H.
    rewrite ranked_by_relevance, (by_relevance_asym _ _ H). reflexivity. }
  split; [|split].
  - intros a _. destruct (by_relevance a a) eqn:H; [|reflexivity].
    pose proof (by_relevance_asym _ _ H). congruence.
  - intros a b c Ha Hb Hc. rewrite !Hcomp, !negb_true_iff. intros Hab Hbc.
    destruct (ranked c a) eqn:Hca; [|reflexivity].
    rewrite (Htrans c a b Hc Ha Hb Hca (Htotal _ _ Hab)) in Hbc. discriminate.
  - intros a b c Ha Hb Hc. rewrite !Hcomp, !negb_false_iff.
    intros Hba Hab Hcb Hbc. split; eauto.
Qed.

(** The search of a valid query that parses, on documents found. *)
Lemma FindTopDocuments_run std_log std_sort server raw_query predict query matched :
  IsValidWord raw_query = true ->
  ParseQuery server raw_query = Ok query ->
  FindAllDocuments std_log server query predict = Ok matched ->
  FindTopDocuments std_log std_sort server raw_query predict
  = Ok (take 5 (std_sort by_relevance matched)).
Proof.
  intros Hvalid Hquery Hmatched. unfold FindTopDocuments.
  rewrite Hvalid, Hquery. simpl.
  change (result_bind ?f (Ok ?a)) with (f a).
  unfold mbind, result_mbind, result_bind. rewrite Hmatched.
  destruct (MAX_RESULT_DOCUMENT_COUNT <? _) eqn:Hmany; [reflexivity|].
  f_equal. symmetry. apply take_ge. apply Z.ltb_ge in Hmany.
  unfold MAX_RESULT_DOCUMENT_COUNT in Hmany. lia.
Qed.

(** ** Example servers *)

Lemma new_server_made : MakeSearchServer_text "in the" = Ok new_server.
Proof. vm_compute. reflexivity. Qed.

Lemma added_later server document_id document status ratings :
  later new_server server ->
  later new_server (added server document_id document status ratings).
Proof. apply later_AddDocument. Qed.

Lemma cat_server_reachable : reachable cat_server.
Proof.
  exists ["in"; "the"]%string, new_server. split; [vm_compute; reflexivity|].
  repeat apply added_later. constructor.
Qed.

Lemma chain_server_reachable : reachable chain_server.
Proof.
  exists ["in"; "the"]%string, new_server. split; [vm_compute; reflexivity|].
  repeat apply added_later. constructor.
Qed.

(** ** C1: the results of a search *)

(** C1 (amended). The list [FindTopDocuments] returns has at most 5
    documents, whatever [std::sort] does. When [std::sort] leaves a sorted
    permutation of every range on which its comparator is a strict weak
    ordering, and the order of the comparator is transitive on the documents
    found, the list is sorted: every document may stand before each later
    one, that is, its relevance is not the lower one or, the two relevances
    being closer than epsilon = 2^-52, its rating is not the lower one. *)
Theorem FindTopDocuments_ranked std_log std_sort server raw_query predict docs :
  FindTopDocuments std_log std_sort server raw_query predict = Ok docs ->
  (length docs <= 5)%nat
  /\ (permutes std_sort -> sorts std_sort ->
      forall query matched,
        ParseQuery server raw_query = Ok query ->
        FindAllDocuments std_log server query predict = Ok matched ->
        (forall a b c, In a matched -> In b matched -> In c matched ->
                       ranked a b = true -> ranked b c = true -> ranked a c = true) ->
        StronglySorted (fun a b => ranked a b = true) docs).
Proof.
  intros Hrun.
  apply FindTopDocuments_Ok in Hrun as (_ & query' & matched' & Hquery' & Hmatched' & ->).
  split.
  - rewrite length_take. lia.
  - intros Hpermutes Hsorts query matched Hquery Hmatched Htrans.
    rewrite Hquery in Hquery'. injection Hquery' as <-.
    rewrite Hmatched in Hmatched'. injection Hmatched' as <-.
    apply StronglySorted_take, Sorted_StronglySorted_on.
    + intros a b c Ha Hb Hc.
      apply Htrans; apply (Permutation_in _ (Hpermutes by_relevance matched)); assumption.
    + apply Sorted_ranked, Hsorts, by_relevance_strict_weak_order, Htrans.
Qed.

Lemma FindTopDocuments_ranked_witness :
  FindTopDocuments example_log example_sort cat_server "cat" any_document = Ok cat_results
  /\ (length cat_results <= 5)%nat
  /\ StronglySorted (fun a b => ranked a b = true) cat_results.
Proof.
  assert (Hrun : FindTopDocuments example_log example_sort cat_server "cat" any_document
                 = Ok cat_results) by (vm_compute; reflexivity).
  split; [exact Hrun|].
  destruct (FindTopDocuments_ranked example_log example_sort cat_server "cat"
              any_document cat_results Hrun) as [Hlength Hsorted].
  split; [exact Hlength|].
  eapply (Hsorted example_sort_permutes example_sort_sorts).
  - vm_compute. reflexivity.
  - vm_compute. reflexivity.
  - intros a b c Ha Hb Hc. simpl in Ha, Hb, Hc.
    repeat match goal with
           | H : _ \/ _ |- _ => destruct H
           | H : False |- _ => destruct H
           end; subst; vm_compute; intros; congruence.
Defined.

(** [FindAllDocuments] finds [chain_documents] whatever [std::log] is,
    provided that [std::log(2.0)] is the double nearest to ln 2. *)
Lemma chain_server_documents std_log :
  std_log 2%float = 0x1.62e42fefa39efp-1%float ->
  ParseQuery chain_server "a" = Ok chain_query
  /\ FindAllDocuments std_log chain_server chain_query any_document = Ok chain_documents.
Proof.
  intros Hlog. split; [vm_compute; reflexivity|].
  vm_compute. rewrite Hlog. vm_compute. reflexivity.
Qed.

(** No order of the three documents is sorted: 1 ties with 0 and with 2 and
    has the rating between theirs, while 0 and 2 do not tie. *)
Lemma chain_documents_no_order l :
  Permutation l chain_documents -> ~ StronglySorted (fun a b => ranked a b = true) l.
Proof.
  intros Hperm Hsorted. symmetry in Hperm.
  pose proof (Permutation_length Hperm) as Hlen.
  destruct l as [|x [|y [|z [|]]]]; try discriminate Hlen.
  assert (H0 : In (nth 0 chain_documents x) [x; y; z])
    by (apply (Permutation_in _ Hperm); simpl; auto).
  assert (H1 : In (nth 1 chain_documents x) [x; y; z])
    by (apply (Permutation_in _ Hperm); simpl; auto).
  assert (H2 : In (nth 2 chain_documents x) [x; y; z])
    by (apply (Permutation_in _ Hperm); simpl; auto).
  inversion Hsorted as [|? ? Hyz Hx]; subst.
  inversion Hyz as [|? ? _ Hy]; subst.
  inversion Hx as [|? ? Hxy Hx']; subst.
  inversion Hx' as [|? ? Hxz _]; subst.
  inversion Hy as [|? ? Hyz' _]; subst.
  clear Hsorted Hyz Hx Hx' Hy Hperm Hlen.
  simpl in H0, H1, H2.
  destruct H0 as [-> | [-> | [-> | []]]];
    destruct H1 as [H1 | [H1 | [H1 | []]]]; try discriminate H1;
    destruct H2 as [H2 | [H2 | [H2 | []]]]; try discriminate H2;
    subst; vm_compute in Hxy, Hxz, Hyz'; congruence.
Qed.

(** C1 (as stated) fails on [chain_server], whatever [std::sort] does with
    the three documents [FindAllDocuments] finds. Document 1 must stand before document 0 and
    document 2 before document 1, each pair being closer than epsilon with
    the higher rating first; document 0 must stand before document 2, their
    relevances being epsilon apart with the higher one first. No order of
    the three meets the three demands, so the list the search returns, an
    order of the three, is not sorted. The order 2, 1, 0, for one, has the
    lowest relevance first. *)
Lemma FindTopDocuments_chained_ties :
  FindAllDocuments example_log chain_server chain_query any_document = Ok chain_documents
  /\ (forall d0 d1 d2,
     chain_documents = [d0; d1; d2] ->
     ranked d0 d1 = false /\ ranked d1 d2 = false /\ ranked d2 d0 = false)
  /\ (forall docs, Permutation docs chain_documents ->
                   ~ StronglySorted (fun a b => ranked a b = true) docs)
  /\ (forall std_sort, permutes std_sort ->
        exists docs,
          FindTopDocuments example_log std_sort chain_server "a" any_document = Ok docs
          /\ (length docs <= 5)%nat
          /\ Permutation docs chain_documents
          /\ ~ StronglySorted (fun a b => ranked a b = true) docs).
Proof.
  destruct (chain_server_documents example_log eq_refl) as [Hquery Hmatched].
  split; [exact Hmatched|].
  split; [intros d0 d1 d2 [= <- <- <-]; vm_compute; auto|].
  split; [exact chain_documents_no_order|].
  intros std_sort Hpermutes.
  pose proof (Hpermutes by_relevance chain_documents) as Hperm.
  exists (std_sort by_relevance chain_documents).
  split; [|split; [|split]].
  - rewrite (FindTopDocuments_run example_log std_sort chain_server "a" any_document
               chain_query chain_documents eq_refl Hquery Hmatched).
    f_equal. apply take_ge. rewrite (Permutation_length Hperm). simpl. lia.
  - rewrite (Permutation_length Hperm). simpl. lia.
  - exact Hperm.
  - apply chain_documents_no_order, Hperm.
Qed.

(** ** C2: minus-words exclude, whatever the predicate *)

Lemma FindTopDocuments_found std_log std_sort server raw_query predict query docs document :
  permutes std_sort ->
  ParseQuery server raw_query = Ok query ->
  FindTopDocuments std_log std_sort server raw_query predict = Ok docs ->
  In document docs ->
  (forall word, word ∈ minus_words query ->
                has_word server word (doc_id document) = false)
  /\ matches_plus server predict query (doc_id document).
Proof.
  intros Hsort Hquery Hrun Hin.
  destruct (FindTopDocuments_In _ _ _ _ _ _ _ Hsort Hrun Hin)
    as (query' & matched & Hquery' & Hmatched & Hin').
  rewrite Hquery in Hquery'. injection Hquery' as <-.
  destruct (FindAllDocuments_In _ _ _ _ _ _ Hmatched Hin') as (Hplus & Hminus & _).
  auto.
Qed.

(** C2. A document in the list [FindTopDocuments] returns is in the posting
    list of no minus-word of the query, whatever the predicate is; and it is
    in the posting list of a plus-word, with the predicate accepting it, so
    that a document with no plus-word match is not returned even when the
    predicate would accept it. The predicate is read only at the documents
    of the posting lists of the plus-words: a predicate that agrees with it
    there gives the same list. Of [std::sort] the first part assumes that
    it adds no document, the second part nothing. *)
Theorem FindTopDocuments_minus_words std_log std_sort server raw_query predict query docs :
  ParseQuery server raw_query = Ok query ->
  FindTopDocuments std_log std_sort server raw_query predict = Ok docs ->
  (permutes std_sort ->
   forall document,
     In document docs ->
     (forall word, word ∈ minus_words query ->
                   has_word server word (doc_id document) = false)
     /\ matches_plus server predict query (doc_id document))
  /\ (forall predict',
        agree_on_plus server query predict' predict ->
        FindTopDocuments std_log std_sort server raw_query predict' = Ok docs).
Proof.
  intros Hquery Hrun. split.
  - intros Hsort document Hin. eapply FindTopDocuments_found; eassumption.
  - intros predict' Hagree. rewrite <- Hrun. unfold FindTopDocuments.
    destruct (IsValidWord raw_query); [|reflexivity]. simpl.
    rewrite Hquery.
    change (result_bind ?f (Ok ?a)) with (f a).
    unfold mbind, result_mbind, result_bind.
    rewrite (FindAllDocuments_ext _ _ _ _ _ Hagree). reflexivity.
Qed.

Lemma FindTopDocuments_minus_words_witness :
  FindTopDocuments example_log example_sort cat_server "cat -dog" any_document
  = Ok cat_not_dog_results
  /\ has_word cat_server "dog" 1 = false
  /\ matches_plus cat_server any_document cat_not_dog_query 1.
Proof.
  split; [vm_compute; reflexivity|].
  destruct (FindTopDocuments_minus_words example_log example_sort cat_server "cat -dog"
              any_document cat_not_dog_query cat_not_dog_results)
    as [Hfound _].
  - vm_compute. reflexivity.
  - vm_compute. reflexivity.
  - destruct (Hfound example_sort_permutes
                {| doc_id := 1; relevance := 0x1.14cc29dd51032p-2%float;
                        rating := 5 |}) as [Hminus Hplus]; [simpl; auto|].
    split; [|exact Hplus].
    apply Hminus. vm_compute. reflexivity.
Defined.

(** ** C10: a word both required and excluded *)

(** C10. When a word that is not a stop word is a token of the query both
    as it is and with a leading ['-'], the parsed query holds it as a
    plus-word and as a minus-word, and no document of the list
    [FindTopDocuments] returns has the word, [std::sort] adding no
    document. *)
Theorem ParseQuery_plus_and_minus std_log std_sort server raw_query word query :
  In word (SplitIntoWords raw_query) ->
  In (String "-" word) (SplitIntoWords raw_query) ->
  IsStopWord server word = false ->
  ParseQuery server raw_query = Ok query ->
  word ∈ plus_words query
  /\ word ∈ minus_words query
  /\ (permutes std_sort ->
      forall predict docs document,
        FindTopDocuments std_log std_sort server raw_query predict = Ok docs ->
        In document docs ->
        has_word server word (doc_id document) = false).
Proof.
  intros Hplus Hminus Hstop Hquery.
  destruct (ParseQuery_classified _ _ _ _ Hquery Hminus) as (minus_word & Hparse_minus & Hin_minus).
  destruct (ParseQuery_classified _ _ _ _ Hquery Hplus) as (plus_word & Hparse_plus & Hin_plus).
  apply ParseQueryWord_Ok in Hparse_minus. cbn [starts_with_minus substr_1] in Hparse_minus.
  rewrite Ascii.eqb_refl in Hparse_minus.
  destruct Hparse_minus as (-> & _ & Hno_minus & _). simpl in Hin_minus.
  apply ParseQueryWord_Ok in Hparse_plus. rewrite Hno_minus in Hparse_plus.
  destruct Hparse_plus as (-> & _). simpl in Hin_plus.
  specialize (Hin_minus Hstop). specialize (Hin_plus Hstop).
  repeat split; try assumption.
  intros Hsort predict docs document Hrun Hin.
  destruct (FindTopDocuments_found _ _ _ _ _ _ _ _ Hsort Hquery Hrun Hin) as [Hexcluded _].
  apply Hexcluded, Hin_minus.
Qed.

Lemma ParseQuery_plus_and_minus_witness :
  ParseQuery cat_server "cat -cat" = Ok cat_and_not_cat_query
  /\ FindTopDocuments example_log example_sort cat_server "cat -cat" any_document = Ok []
  /\ "cat"%string ∈ plus_words cat_and_not_cat_query
  /\ "cat"%string ∈ minus_words cat_and_not_cat_query.
Proof.
  split; [vm_compute; reflexivity|].
  split; [vm_compute; reflexivity|].
  destruct (ParseQuery_plus_and_minus example_log example_sort cat_server "cat -cat" "cat"
              cat_and_not_cat_query) as (Hplus & Hminus & _).
  - vm_compute. auto.
  - vm_compute. auto.
  - vm_compute. reflexivity.
  - vm_compute. reflexivity.
  - split; assumption.
Defined.

(** ** C3: the identifier check and the document count *)

Lemma GetDocumentCount_small server :
  Z.of_nat (size (documents_ server)) <= INT_MAX ->
  GetDocumentCount server = Z.of_nat (size (documents_ server)).
Proof.
  intros Hsize. unfold GetDocumentCount. apply int_wrap_small.
  unfold INT_MAX in Hsize. lia.
Qed.

Lemma int_wrap_succ z : int_wrap (int_wrap z + 1) = int_wrap (z + 1).
Proof.
  unfold int_wrap.
  replace (((z + 2 ^ 31) mod 2 ^ 32 - 2 ^ 31 + 1 + 2 ^ 31))
    with ((z + 2 ^ 31) mod 2 ^ 32 + 1) by lia.
  replace (z + 1 + 2 ^ 31) with ((z + 2 ^ 31) + 1) by lia.
  rewrite Zplus_mod_idemp_l. reflexivity.
Qed.

Lemma int_wrap_range z : - 2 ^ 31 <= int_wrap z < 2 ^ 31.
Proof.
  unfold int_wrap.
  pose proof (Z.mod_pos_bound (z + 2 ^ 31) (2 ^ 32)). lia.
Qed.

(** C3. [AddDocument] with a negative or already present identifier throws
    the exception of the identifier check and leaves the server as it was.
    A call that does not throw adds one document to the table, and the
    document count, an [int], is one more: exactly one more unless it was
    INT_MAX. A call that throws, for whatever reason, leaves the server,
    and so the count, as they were. *)
Theorem AddDocument_id_check_and_count server document_id document status ratings :
  ((document_id < 0 \/ is_Some (documents_ server !! document_id)) ->
   AddDocument server document_id document status ratings
   = (Some DuplicateOrInvalidId, server))
  /\ (fst (AddDocument server document_id document status ratings) = None ->
      size (documents_ (snd (AddDocument server document_id document status ratings)))
      = S (size (documents_ server))
      /\ GetDocumentCount (snd (AddDocument server document_id document status ratings))
         = int_wrap (GetDocumentCount server + 1)
      /\ (GetDocumentCount server < INT_MAX ->
          GetDocumentCount (snd (AddDocument server document_id document status ratings))
          = GetDocumentCount server + 1))
  /\ (fst (AddDocument server document_id document status ratings) <> None ->
      snd (AddDocument server document_id document status ratings) = server
      /\ GetDocumentCount (snd (AddDocument server document_id document status ratings))
         = GetDocumentCount server).
Proof.
  split; [apply AddDocument_bad_id|].
  destruct (AddDocument_cases server document_id document status ratings)
    as [[e ->] | (Hpos & Hfresh & words & _ & ->)]; simpl.
  - split; [discriminate | auto].
  - split; [|congruence]. intros _.
    assert (Hcount : GetDocumentCount
                       {| stop_words_ := stop_words_ server;
                          word_to_document_freqs_ :=
                            foldl (add_word_freq document_id
                                     (1 / double_of_size (length words)))
                                  (word_to_document_freqs_ server) words;
                          documents_ :=
                            <[document_id :=
                                {| data_rating := ComputeAverageRating ratings;
                                   data_status := status |}]> (documents_ server);
                          document_ids := document_ids server ++ [document_id] |}
                     = int_wrap (GetDocumentCount server + 1)).
    { unfold GetDocumentCount. simpl.
      rewrite map_size_insert_None by assumption.
      rewrite int_wrap_succ. f_equal. lia. }
    split; [apply map_size_insert_None; assumption|].
    split; [exact Hcount|].
    intros Hroom. rewrite Hcount. apply int_wrap_small.
    pose proof (int_wrap_range (Z.of_nat (size (documents_ server)))).
    unfold GetDocumentCount, INT_MAX in *. lia.
Qed.

Lemma AddDocument_id_check_and_count_witness :
  AddDocument cat_server 1 "bird" ACTUAL [4] = (Some DuplicateOrInvalidId, cat_server)
  /\ AddDocument cat_server (-1) "bird" ACTUAL [4] = (Some DuplicateOrInvalidId, cat_server)
  /\ GetDocumentCount (snd (AddDocument cat_server 3 "bird" ACTUAL [4]))
     = GetDocumentCount cat_server + 1
  /\ snd (AddDocument cat_server 3 (String "007" "bird") ACTUAL [4]) = cat_server.
Proof.
  split; [|split; [|split]].
  - apply (proj1 (AddDocument_id_check_and_count cat_server 1 "bird" ACTUAL [4])).
    right. vm_compute. eauto.
  - apply (proj1 (AddDocument_id_check_and_count cat_server (-1) "bird" ACTUAL [4])).
    left. lia.
  - apply (proj1 (proj2 (AddDocument_id_check_and_count cat_server 3 "bird" ACTUAL [4]))).
    + vm_compute. reflexivity.
    + vm_compute. reflexivity.
  - apply (proj2 (proj2 (AddDocument_id_check_and_count
                           cat_server 3 (String "007" "bird") ACTUAL [4]))).
    vm_compute. discriminate.
Defined.

(** ** C9: a document without words *)

Lemma consistent_unposted server document_id :
  consistent server -> documents_ server !! document_id = None ->
  unposted (word_to_document_freqs_ server) document_id.
Proof.
  intros Hcons Hfresh word postings Hword.
  destruct (postings !! document_id) as [term_freq|] eqn:Hid; [|reflexivity].
  destruct (postings_known _ Hcons word postings document_id term_freq Hword Hid)
    as [info Hinfo].
  congruence.
Qed.

(** C9. On a server that calls have produced, [AddDocument] of a text whose
    words are all valid stop words (an empty text has no word), with a fresh
    identifier that is not negative, does not throw; the index is left as it
    was, so that the quotient 1 / 0 is stored nowhere; the document is in the
    table and is counted; and whatever calls of [AddDocument] follow, no
    list [FindTopDocuments] returns holds the document, [std::sort] adding
    no document. *)
Theorem AddDocument_without_words std_log std_sort server document_id document status ratings :
  reachable server ->
  0 <= document_id ->
  documents_ server !! document_id = None ->
  (forall word, In word (SplitIntoWords document) ->
                IsValidWord word = true /\ IsStopWord server word = true) ->
  exists server',
    AddDocument server document_id document status ratings = (None, server')
    /\ word_to_document_freqs_ server' = word_to_document_freqs_ server
    /\ documents_ server' !! document_id
       = Some {| data_rating := ComputeAverageRating ratings; data_status := status |}
    /\ size (documents_ server') = S (size (documents_ server))
    /\ GetDocumentCount server' = int_wrap (GetDocumentCount server + 1)
    /\ (permutes std_sort ->
        forall server'' raw_query predict docs,
          later server' server'' ->
          FindTopDocuments std_log std_sort server'' raw_query predict = Ok docs ->
          ~ In document_id (map doc_id docs)).
Proof.
  intros Hreach Hpos Hfresh Hstop.
  apply reachable_consistent in Hreach.
  pose proof (consistent_unposted _ _ Hreach Hfresh) as Hun.
  rewrite AddDocument_good_id by assumption.
  rewrite SplitIntoWordsNoStop_unfold, (no_stop_loop_stop_words _ _ _ Hstop).
  eexists. split; [reflexivity|]. simpl.
  split; [reflexivity|]. split; [apply lookup_insert_eq|].
  split; [apply map_size_insert_None; assumption|]. split.
  - unfold GetDocumentCount. simpl.
    rewrite map_size_insert_None by assumption.
    rewrite int_wrap_succ. f_equal. lia.
  - intros Hsort server'' raw_query predict docs Hlater Hrun Hin.
    apply in_map_iff in Hin as (found & <- & Hin).
    apply (later_unposted _ _ (doc_id found)) in Hlater as [_ Hun''].
    + apply FindTopDocuments_In with (document := found) in Hrun
        as (query & matched & _ & Hmatched & Hin'); [|assumption|assumption].
      destruct (FindAllDocuments_In _ _ _ _ _ _ Hmatched Hin')
        as ((word & info & _ & Hhas & _) & _).
      apply has_word_true in Hhas as (postings & term_freq & Hword & Hid).
      rewrite (Hun'' word postings Hword) in Hid. discriminate.
    + simpl. rewrite lookup_insert_eq. eauto.
    + exact Hun.
Qed.

Lemma AddDocument_without_words_witness :
  AddDocument cat_server 7 "in the  the" ACTUAL [] = (None, silent_server)
  /\ word_to_document_freqs_ silent_server = word_to_document_freqs_ cat_server
  /\ GetDocumentCount silent_server = 4
  /\ FindTopDocuments example_log example_sort silent_server "in the cat" any_document
     = Ok [ {| doc_id := 1; relevance := 0x1.d9303fea2f7e9p-2%float; rating := 5 |};
            {| doc_id := 0; relevance := 0x1.62e42fefa39efp-2%float; rating := 5 |} ].
Proof.
  destruct (AddDocument_without_words example_log example_sort cat_server 7
              "in the  the" ACTUAL [])
    as (server' & Hadd & Hfreqs & _ & _ & Hcount & _).
  - apply cat_server_reachable.
  - lia.
  - vm_compute. reflexivity.
  - intros word Hin. vm_compute in Hin.
    destruct Hin as [<- | [<- | [<- | []]]]; vm_compute; auto.
  - assert (Hserver : server' = silent_server).
    { unfold silent_server, added. rewrite Hadd. reflexivity. }
    subst server'. split; [assumption|]. split; [assumption|].
    split; vm_compute; reflexivity.
Defined.

(** ** C8: relevance is not negative *)

Lemma consistent_postings_size server word postings :
  consistent server ->
  word_to_document_freqs_ server !! word = Some postings ->
  (0 < size postings <= size (documents_ server))%nat.
Proof.
  intros Hcons Hword. split.
  - pose proof (postings_nonempty _ Hcons word postings Hword) as Hne.
    destruct (size postings) eqn:Hsize; [|lia].
    apply map_size_empty_iff in Hsize. contradiction.
  - rewrite <- !size_dom. apply subseteq_size.
    intros id Hid. apply elem_of_dom in Hid as [term_freq Hid].
    apply elem_of_dom. eapply postings_known; eassumption.
Qed.

(** The argument of the logarithm: the document count, as a double, times
    1.0, divided by the size of a posting list that is not larger. *)
Lemma count_quotient_ge_one (n : Z) (d : nat) :
  (0 < d)%nat -> Z.of_nat d <= n <= INT_MAX ->
  (1 <=? double_of_int n * 1 / double_of_size d)%float = true.
Proof.
  intros Hd Hn. unfold double_of_int, double_of_size.
  destruct (Z.ltb_spec n 0) as [Hneg|_]; [lia|].
  apply quotient_ge_one; [lia|].
  unfold INT_MAX, prec in *.
  assert (2 ^ 31 < 2 ^ 53) by reflexivity. lia.
Qed.

Section RelevanceSign.
Variable std_log : float -> float.

(** What the proof asks of the C library: the logarithm of a double that is
    not below one is not below zero. *)
Hypothesis std_log_ge_one : forall x : float,
  (1 <=? x)%float = true -> not_negative (std_log x).

Lemma FindAllDocuments_not_negative server query doc_pred matched document :
  consistent server ->
  Z.of_nat (size (documents_ server)) <= INT_MAX ->
  FindAllDocuments std_log server query doc_pred = Ok matched ->
  In document matched ->
  not_negative (relevance document).
Proof.
  intros Hcons Hsize. rewrite FindAllDocuments_unfold.
  destruct (for_each _ (sorted_words (plus_words query)) ∅) as [acc|e] eqn:Hplus;
    [|discriminate].
  intros Hpush Hin.
  destruct (push_loop_In _ _ _ _ Hpush Hin) as [Hlookup _].
  apply minus_loop_lookup in Hlookup as [Hlookup _].
  assert (Hinv : forall id rel, acc !! id = Some rel -> not_negative rel);
    [|eapply Hinv, Hlookup].
  eapply (plus_loop_invariant std_log server doc_pred
            (fun acc => forall id rel, acc !! id = Some rel -> not_negative rel));
    [| |exact Hplus].
  - intros id rel. rewrite lookup_empty. discriminate.
  - intros word postings document_id term_freq document_info acc1
           _ Hword Htf _ _ Hacc1 id rel.
    destruct (decide (id = document_id)) as [-> | Hne];
      [|rewrite lookup_insert_ne by congruence; apply Hacc1].
    rewrite lookup_insert_eq. intros [= <-].
    apply add_not_negative.
    + destruct (acc1 !! document_id) as [old|] eqn:Hold; simpl;
        [eapply Hacc1, Hold | apply zero_not_negative].
    + apply mul_not_negative.
      * eapply above_zero_not_negative, postings_above_zero; eassumption.
      * destruct (consistent_postings_size _ _ _ Hcons Hword) as [Hpos Hle].
        apply std_log_ge_one, count_quotient_ge_one; [assumption|].
        rewrite GetDocumentCount_small by assumption. lia.
Qed.

End RelevanceSign.

Lemma example_log_not_negative x : not_negative (example_log x).
Proof.
  unfold example_log.
  repeat match goal with |- context [if ?b then _ else _] => destruct b end;
    reflexivity.
Qed.


(** ** C5: the words of a query a document matches *)

(** C5. For a query that is valid and parses, and a document of the table,
    [MatchDocument] returns the status of the document with a list of words:
    the empty list when the index holds a term frequency for a minus-word of
    the query and the document, and otherwise the plus-words of the query
    for which the index holds a term frequency for the document, each
    once. *)
Theorem MatchDocument_words server raw_query document_id query document_info :
  IsValidWord raw_query = true ->
  ParseQuery server raw_query = Ok query ->
  documents_ server !! document_id = Some document_info ->
  exists words,
    MatchDocument server raw_query document_id
    = Ok (words, data_status document_info)
    /\ ((exists word, word ∈ minus_words query
                      /\ is_Some (term_freq_of server word document_id)) ->
        words = [])
    /\ ((forall word, word ∈ minus_words query ->
                      term_freq_of server word document_id = None) ->
        NoDup words
        /\ forall word, In word words <->
                        word ∈ plus_words query
                        /\ is_Some (term_freq_of server word document_id)).
Proof.
  intros Hvalid Hquery Hinfo. unfold MatchDocument.
  rewrite Hvalid, Hquery. simpl.
  change (result_bind ?f (Ok ?a)) with (f a).
  unfold mbind, result_mbind, result_bind. rewrite Hinfo.
  eexists. split; [reflexivity|].
  destruct (existsb _ (sorted_words (minus_words query))) eqn:Hminus.
  - split; [reflexivity|]. intros Hnone.
    apply existsb_exists in Hminus as (word & Hin & Hhas).
    apply sorted_words_In in Hin. apply term_freq_of_has_word in Hhas as [term_freq Hhas].
    rewrite (Hnone word Hin) in Hhas. discriminate.
  - split.
    + intros (word & Hin & Hhas). exfalso.
      assert (Hyes : existsb (fun word => has_word server word document_id)
                             (sorted_words (minus_words query)) = true).
      { apply existsb_exists. exists word. split; [apply sorted_words_In, Hin|].
        apply term_freq_of_has_word, Hhas. }
      congruence.
    + intros _. split.
      * apply NoDup_filter, sorted_words_NoDup.
      * intros word. rewrite <- list_elem_of_In, list_elem_of_filter,
          list_elem_of_In, sorted_words_In, term_freq_of_has_word. tauto.
Qed.

(** "cat -dog mouse in" on the three documents: document 1 has "cat" and
    "mouse" and not "dog"; document 0 has "dog". *)
Example MatchDocument_cat_server :
  MatchDocument cat_server "cat -dog mouse in" 1 = Ok (["cat"; "mouse"]%string, ACTUAL)
  /\ MatchDocument cat_server "cat -dog mouse in" 0 = Ok ([], ACTUAL)
  /\ term_freq_of cat_server "cat" 1 = Some 0x1.5555555555555p-1%float
  /\ term_freq_of cat_server "mouse" 1 = Some 0x1.5555555555555p-2%float
  /\ term_freq_of cat_server "dog" 1 = None
  /\ term_freq_of cat_server "dog" 0 = Some 0x1p-1%float.
Proof. repeat split; vm_compute; reflexivity. Qed.

Lemma MatchDocument_words_witness :
  exists words,
    MatchDocument cat_server "cat -dog mouse in" 1 = Ok (words, ACTUAL)
    /\ ((exists word, word ∈ minus_words cat_mouse_not_dog_query
                      /\ is_Some (term_freq_of cat_server word 1)) ->
        words = [])
    /\ ((forall word, word ∈ minus_words cat_mouse_not_dog_query ->
                      term_freq_of cat_server word 1 = None) ->
        NoDup words
        /\ forall word, In word words <->
                        word ∈ plus_words cat_mouse_not_dog_query
                        /\ is_Some (term_freq_of cat_server word 1)).
Proof.
  apply (MatchDocument_words cat_server "cat -dog mouse in" 1
           cat_mouse_not_dog_query {| data_rating := 5; data_status := ACTUAL |});
    vm_compute; reflexivity.
Defined.

(** ** C6: malformed minus-words *)

(** C6 (amended). A query of valid characters with a malformed minus-token
    makes [ParseQuery], and so [FindTopDocuments] and [MatchDocument], throw
    the exception of the minus-words; with a character of the control range
    anywhere, [FindTopDocuments] and [MatchDocument] throw the exception of
    invalid text instead. Either is thrown whatever the server holds and
    whatever the predicate is: the index is not read. *)
Theorem ParseQuery_malformed_minus std_log std_sort server raw_query token predict document_id :
  In token (SplitIntoWords raw_query) ->
  malformed_minus_token token ->
  (IsValidWord raw_query = true ->
   ParseQuery server raw_query = Throw InvalidMinusWord
   /\ FindTopDocuments std_log std_sort server raw_query predict = Throw InvalidMinusWord
   /\ MatchDocument server raw_query document_id = Throw InvalidMinusWord)
  /\ (IsValidWord raw_query = false ->
      FindTopDocuments std_log std_sort server raw_query predict
      = Throw (invalid_argument "Invalid word in FindTopDocument function")
      /\ MatchDocument server raw_query document_id
         = Throw (invalid_argument "Invalid word in MatchDocument function")).
Proof.
  intros Hin Hbad. split; intros Hvalid.
  - assert (Hparse : ParseQuery server raw_query = Throw InvalidMinusWord).
    { rewrite ParseQuery_unfold. apply parse_loop_malformed; [|eauto].
      intros token' Hin'. eapply SplitIntoWords_valid; eassumption. }
    unfold FindTopDocuments, MatchDocument. rewrite Hvalid, Hparse. auto.
  - unfold FindTopDocuments, MatchDocument. rewrite Hvalid. auto.
Qed.

Lemma ParseQuery_malformed_minus_witness :
  FindTopDocuments example_log example_sort cat_server "cat --dog" any_document
  = Throw InvalidMinusWord
  /\ FindTopDocuments example_log example_sort cat_server "cat -" any_document
     = Throw InvalidMinusWord.
Proof.
  split.
  - apply (proj1 (ParseQuery_malformed_minus example_log example_sort cat_server
                    "cat --dog" "--dog" any_document 0 ltac:(vm_compute; auto)
                    (or_intror (ex_intro _ "dog"%string eq_refl)))).
    vm_compute. reflexivity.
  - apply (proj1 (ParseQuery_malformed_minus example_log example_sort cat_server "cat -" "-"
                    any_document 0 ltac:(vm_compute; auto) (or_introl eq_refl))).
    vm_compute. reflexivity.
Defined.

(** C6 (as stated) fails: the token "--dog" followed by the character of
    code 7 is a malformed minus-token, and the exception is the one of
    invalid text, from [ParseQuery] as from [FindTopDocuments]. *)
Lemma ParseQuery_malformed_minus_invalid_text :
  In (String "-" (String "-" (String "007" "dog")))
     (SplitIntoWords (String "-" (String "-" (String "007" "dog"))))
  /\ malformed_minus_token (String "-" (String "-" (String "007" "dog")))
  /\ ParseQuery cat_server (String "-" (String "-" (String "007" "dog")))
     = Throw (invalid_argument "Invalid word in ParseQueryWord function")
  /\ FindTopDocuments example_log example_sort cat_server
       (String "-" (String "-" (String "007" "dog"))) any_document
     = Throw (invalid_argument "Invalid word in FindTopDocument function")
  /\ invalid_argument "Invalid word in ParseQueryWord function" <> InvalidMinusWord
  /\ invalid_argument "Invalid word in FindTopDocument function" <> InvalidMinusWord.
Proof.
  split; [vm_compute; auto|].
  split; [right; eexists; reflexivity|].
  split; [vm_compute; reflexivity|].
  split; [vm_compute; reflexivity|].
  split; discriminate.
Qed.

(** ** C7: valid words *)




(** ** C4: the window of the request queue *)

Lemma count_no_results_cons request requests :
  count_no_results (request :: requests) =
  (if 0 =? results request then 1 else 0) + count_no_results requests.
Proof.
  unfold count_no_results. rewrite filter_cons.
  destruct (decide (results request = 0)) as [Hzero | Hsome].
  - rewrite Hzero. simpl. lia.
  - destruct (Z.eqb_spec 0 (results request)); [congruence | lia].
Qed.

Lemma count_no_results_app requests1 requests2 :
  count_no_results (requests1 ++ requests2) =
  count_no_results requests1 + count_no_results requests2.
Proof.
  unfold count_no_results. rewrite filter_app, length_app. lia.
Qed.

Lemma count_no_results_bounds requests :
  0 <= count_no_results requests <= Z.of_nat (length requests).
Proof.
  unfold count_no_results.
  pose proof (length_filter (fun request => results request = 0) requests). lia.
Qed.

Lemma filter_all {A} (P : A -> Prop) `{forall x, Decision (P x)} (l : list A) :
  Forall P l -> filter P l = l.
Proof.
  induction 1 as [|x l Hx _ IH]; [reflexivity|].
  rewrite filter_cons_True by assumption. congruence.
Qed.

Lemma StronglySorted_filter {A} (R : A -> A -> Prop) (P : A -> Prop)
    `{forall x, Decision (P x)} (l : list A) :
  StronglySorted R l -> StronglySorted R (filter P l).
Proof.
  induction 1 as [|x l _ IH Hx]; [constructor|].
  rewrite filter_cons. destruct (decide (P x)); [|assumption].
  constructor; [assumption|].
  rewrite Forall_forall in *. intros y Hy.
  apply list_elem_of_filter in Hy as [_ Hy]. auto.
Qed.

(** Increasing integers of a half-open interval are no more than its length. *)
Lemma increasing_length (times : list Z) : forall low high,
  StronglySorted Z.lt times ->
  Forall (fun time => low < time <= high) times ->
  Z.of_nat (length times) <= Z.max 0 (high - low).
Proof.
  induction times as [|time times IH]; intros low high Hsorted Hrange; simpl length.
  - lia.
  - apply StronglySorted_cons in Hsorted as [Hfirst Hsorted].
    apply Forall_cons in Hrange as [Htime Hrange].
    assert (Hrest : Forall (fun time' => time < time' <= high) times).
    { rewrite Forall_forall in *. intros time' Hin.
      specialize (Hfirst time' Hin). specialize (Hrange time' Hin). lia. }
    specialize (IH time high Hsorted Hrest). lia.
Qed.

(** The loop of [AddRequest] keeps the requests less than a day old, and
    the counter follows, when the requests are in the order of their times,
    none of them later than [current_time]. *)
Lemma drop_outdated_spec current_time requests : forall no_results_requests,
  StronglySorted older requests ->
  Forall (fun request => 0 <= current_time - timestamp request < 2 ^ 64) requests ->
  Z.of_nat (length requests) < 2 ^ 31 ->
  no_results_requests = count_no_results requests ->
  drop_outdated current_time requests no_results_requests =
  (filter (in_day current_time) requests,
   count_no_results (filter (in_day current_time) requests)).
Proof.
  induction requests as [|front requests IH];
    intros no_results_requests Hsorted Hrange Hlength Hcount; [subst; reflexivity|].
  apply StronglySorted_cons in Hsorted as [Hfront Hsorted].
  apply Forall_cons in Hrange as [Hfront_range Hrange].
  simpl length in Hlength. cbn [drop_outdated].
  unfold uint64_wrap. rewrite Z.mod_small by assumption.
  destruct (min_in_day_ <=? current_time - timestamp front) eqn:Hold.
  - apply Z.leb_le in Hold.
    rewrite filter_cons_False by (unfold in_day; lia).
    apply IH; try assumption; [lia|].
    rewrite count_no_results_cons in Hcount.
    pose proof (count_no_results_bounds requests).
    destruct (0 =? results front); [|lia].
    rewrite int_wrap_small; lia.
  - apply Z.leb_gt in Hold.
    rewrite filter_all; [subst; reflexivity|].
    constructor; [exact Hold|].
    rewrite Forall_forall in *. intros request Hin.
    specialize (Hfront request Hin). unfold in_day, older in *. lia.
Qed.

Lemma window_length queue :
  window queue -> Z.of_nat (length (requests_ queue)) <= min_in_day_.
Proof.
  intros [Htimes Hday _ _].
  rewrite <- (length_fmap timestamp).
  etransitivity;
    [apply (increasing_length _ (current_time_ queue - min_in_day_) (current_time_ queue))|].
  - apply StronglySorted_fmap with (R1 := older); [|assumption].
    intros a b Hab. exact Hab.
  - apply Forall_fmap. exact Hday.
  - unfold min_in_day_. lia.
Qed.

Lemma MakeRequestQueue_window : window MakeRequestQueue.
Proof. split; simpl; try constructor; reflexivity || lia. Qed.

(** One call of [AddRequest], the clock not wrapping: the requests that stay
    are those not yet a day old at the new time, and the new one follows. *)
Lemma AddRequest_requests queue results_num :
  window queue -> current_time_ queue + 1 < 2 ^ 64 ->
  AddRequest queue results_num =
  let current_time := current_time_ queue + 1 in
  let requests :=
    filter (in_day current_time) (requests_ queue)
    ++ [{| timestamp := current_time; results := results_num |}] in
  {| requests_ := requests;
     no_results_requests_ := count_no_results requests;
     current_time_ := current_time |}.
Proof.
  intros Hwindow Hclock.
  pose proof (window_length _ Hwindow) as Hlength.
  destruct Hwindow as [Htimes Hday Hcount Hpos].
  unfold AddRequest, uint64_wrap. rewrite Z.mod_small by lia.
  rewrite (drop_outdated_spec _ _ _ Htimes); try assumption.
  - cbv zeta. f_equal.
    rewrite count_no_results_app, count_no_results_cons. simpl results.
    pose proof (count_no_results_bounds
                  (filter (in_day (current_time_ queue + 1)) (requests_ queue))).
    pose proof (length_filter (in_day (current_time_ queue + 1)) (requests_ queue)).
    unfold min_in_day_ in Hlength.
    change (count_no_results []) with 0.
    destruct (0 =? results_num); [|lia].
    rewrite int_wrap_small by lia. lia.
  - rewrite Forall_forall in *. intros request Hin.
    specialize (Hday request Hin). unfold min_in_day_ in Hday. lia.
  - unfold min_in_day_ in Hlength. lia.
Qed.

Lemma AddRequest_window queue results_num :
  window queue -> current_time_ queue + 1 < 2 ^ 64 ->
  window (AddRequest queue results_num)
  /\ current_time_ (AddRequest queue results_num) = current_time_ queue + 1.
Proof.
  intros Hwindow Hclock. rewrite AddRequest_requests by assumption.
  destruct Hwindow as [Htimes Hday Hcount Hpos]. cbv zeta.
  split; [|reflexivity]. split; simpl.
  - apply StronglySorted_app_2.
    + intros old new Hold Hnew.
      apply list_elem_of_filter in Hold as [_ Hold].
      apply list_elem_of_singleton in Hnew as ->.
      rewrite Forall_forall in Hday. specialize (Hday old Hold).
      unfold older. simpl. lia.
    + apply StronglySorted_filter, Htimes.
    + repeat constructor.
  - apply Forall_app. split.
    + rewrite Forall_forall in *. intros request Hin.
      apply list_elem_of_filter in Hin as [Hin_day Hin].
      specialize (Hday request Hin). unfold in_day in Hin_day. lia.
    + repeat constructor; simpl; unfold min_in_day_; lia.
  - reflexivity.
  - lia.
Qed.

Lemma AddFindRequest_queue std_log std_sort server queue raw_query document_predicate :
  snd (AddFindRequest std_log std_sort server queue raw_query document_predicate) = queue
  \/ exists results_num,
       snd (AddFindRequest std_log std_sort server queue raw_query document_predicate)
       = AddRequest queue results_num.
Proof.
  unfold AddFindRequest. destruct (FindTopDocuments _ _ _ _); simpl; eauto.
Qed.

Lemma AddFindRequest_status_queue std_log std_sort server queue raw_query status :
  snd (AddFindRequest_status std_log std_sort server queue raw_query status) = queue
  \/ exists results_num,
       snd (AddFindRequest_status std_log std_sort server queue raw_query status)
       = AddRequest queue results_num.
Proof.
  unfold AddFindRequest_status. destruct (FindTopDocuments_status _ _ _ _); simpl; eauto.
Qed.

(** The call without a status is the call with the status [ACTUAL]. *)
Lemma AddFindRequest_default_status std_log std_sort server queue raw_query :
  AddFindRequest_default std_log std_sort server queue raw_query
  = AddFindRequest_status std_log std_sort server queue raw_query ACTUAL.
Proof. reflexivity. Qed.

Lemma recorded_window std_log std_sort n queue :
  recorded std_log std_sort n queue -> Z.of_nat n < 2 ^ 64 ->
  window queue /\ current_time_ queue <= Z.of_nat n.
Proof.
  induction 1 as [|n queue server raw_query document_predicate _ IH
                  |n queue server raw_query status _ IH]; intros Hcalls.
  - split; [apply MakeRequestQueue_window | simpl; lia].
  - destruct IH as [Hwindow Hclock]; [lia|].
    destruct (AddFindRequest_queue std_log std_sort server queue raw_query document_predicate)
      as [-> | [results_num ->]]; [split; [assumption | lia]|].
    destruct (AddRequest_window queue results_num) as [Hwindow' ->];
      [assumption | lia |]. split; [assumption | lia].
  - destruct IH as [Hwindow Hclock]; [lia|].
    destruct (AddFindRequest_status_queue std_log std_sort server queue raw_query status)
      as [-> | [results_num ->]]; [split; [assumption | lia]|].
    destruct (AddRequest_window queue results_num) as [Hwindow' ->];
      [assumption | lia |]. split; [assumption | lia].
Qed.

(** C4. After any number of calls of [AddFindRequest] (fewer than 2^64 - 1,
    so that the 64-bit clock does not wrap), the timestamps of the queue are
    strictly increasing, every request is less than 1440 ticks old, at most
    1440 requests are kept, and the counter is the number of kept requests
    with no result. The next call that records a request gives it the next
    tick, and keeps a request exactly when its age at that tick is not 1440:
    a request reaches the age 1440 at the call that drops it. *)
Theorem RequestQueue_window std_log std_sort n queue :
  recorded std_log std_sort n queue ->
  Z.of_nat n + 1 < 2 ^ 64 ->
  StronglySorted older (requests_ queue)
  /\ Forall (fun request =>
               current_time_ queue - min_in_day_ < timestamp request
               <= current_time_ queue) (requests_ queue)
  /\ Z.of_nat (length (requests_ queue)) <= min_in_day_
  /\ GetNoResultRequests queue = count_no_results (requests_ queue)
  /\ forall results_num,
       requests_ (AddRequest queue results_num)
       = filter (in_day (current_time_ queue + 1)) (requests_ queue)
         ++ [{| timestamp := current_time_ queue + 1; results := results_num |}]
       /\ current_time_ (AddRequest queue results_num) = current_time_ queue + 1
       /\ GetNoResultRequests (AddRequest queue results_num)
          = count_no_results (requests_ (AddRequest queue results_num))
       /\ forall request,
            In request (requests_ queue) ->
            (In request (requests_ (AddRequest queue results_num)) <->
             current_time_ queue + 1 - timestamp request <> min_in_day_).
Proof.
  intros Hrecorded Hcalls.
  destruct (recorded_window _ _ _ _ Hrecorded) as [Hwindow Hclock]; [lia|].
  pose proof (window_length _ Hwindow) as Hlength.
  split; [apply Hwindow|]. split; [apply Hwindow|]. split; [assumption|].
  split; [apply Hwindow|].
  intros results_num. rewrite AddRequest_requests by (assumption || lia).
  cbv zeta. simpl. split; [reflexivity|]. split; [reflexivity|].
  split; [reflexivity|].
  intros request Hin.
  pose proof (window_day _ Hwindow) as Hday.
  rewrite Forall_forall in Hday. apply list_elem_of_In in Hin.
  specialize (Hday request Hin).
  rewrite <- list_elem_of_In, elem_of_app, list_elem_of_filter, list_elem_of_singleton.
  unfold in_day. split.
  - intros [[Hday' _] | ->]; simpl in *; lia.
  - intros Hage. left. split; [lia | assumption].
Qed.

Lemma RequestQueue_window_witness :
  two_requests
  = {| requests_ := [ {| timestamp := 1; results := 0 |};
                      {| timestamp := 2; results := 2 |} ];
       no_results_requests_ := 1;
       current_time_ := 2 |}
  /\ StronglySorted older (requests_ two_requests)
  /\ GetNoResultRequests two_requests = count_no_results (requests_ two_requests).
Proof.
  split; [vm_compute; reflexivity|].
  destruct (RequestQueue_window example_log example_sort 2 two_requests)
    as (Htimes & _ & _ & Hcount & _).
  - apply recorded_status, recorded_predicate, recorded_new.
  - vm_compute. reflexivity.
  - split; assumption.
Defined.

(** The request of tick 1 is still counted at tick 1440, and the call of
    tick 1441 drops it. *)
Example one_day_and_a_tick :
  GetNoResultRequests one_day = 1
  /\ head (requests_ one_day) = Some {| timestamp := 1; results := 0 |}
  /\ length (requests_ one_day) = 1440%nat
  /\ GetNoResultRequests (AddRequest one_day 1) = 0
  /\ head (requests_ (AddRequest one_day 1)) = Some {| timestamp := 2; results := 1 |}
  /\ length (requests_ (AddRequest one_day 1)) = 1440%nat.
Proof. vm_compute. repeat split. Qed.

(** A tab is white space for [SplitIntoWords] and a control character for
    [IsValidWord]: as a document the text below has the two valid words "cat"
    and "dog" and is added; as a query it is rejected before it is split. *)
Example tab_in_document_and_query :
  fst (AddDocument new_server 0 (String "c" (String "a" (String "t" (String "009" "dog"))))
         ACTUAL []) = None
  /\ FindTopDocuments example_log example_sort new_server
       (String "c" (String "a" (String "t" (String "009" "dog")))) any_document
     = Throw (invalid_argument "Invalid word in FindTopDocument function").
Proof. split; vm_compute; reflexivity. Qed.

(** * Further properties of the code *)

(** ** SplitIntoWords *)

Lemma list_ascii_of_string_app a b :
  list_ascii_of_string (String.append a b)
  = (list_ascii_of_string a ++ list_ascii_of_string b)%list.
Proof.
  induction a as [|c a IH]; [reflexivity|]. simpl. f_equal. exact IH.
Qed.

Lemma append_empty_r a : String.append a EmptyString = a.
Proof.
  induction a as [|c a IH]; [reflexivity|].
  change (String c (String.append a EmptyString) = String c a). f_equal. exact IH.
Qed.

Lemma append_assoc a b c :
  String.append (String.append a b) c = String.append a (String.append b c).
Proof.
  induction a as [|x a IH]; [reflexivity|].
  change (String x (String.append (String.append a b) c)
          = String x (String.append a (String.append b c))).
  f_equal. exact IH.
Qed.

Lemma append_not_empty word c :
  String.append word (String c EmptyString) <> EmptyString.
Proof. destruct word; discriminate. Qed.

(** The words read are tokens, when the word being read has no white space. *)
Lemma read_words_tokens text : forall word w,
  (forall c, In c (list_ascii_of_string word) -> isspace c = false) ->
  In w (read_words text word) -> is_token w.
Proof.
  induction text as [|c text IH]; intros word w Hword Hin; simpl in Hin.
  - destruct word as [|c' word]; simpl in Hin; [contradiction|].
    destruct Hin as [<- | []]. split; [discriminate | exact Hword].
  - destruct (isspace c) eqn:Hc.
    + destruct word as [|c' word]; simpl in Hin.
      * apply (IH EmptyString); [intros c' []|assumption].
      * destruct Hin as [<- | Hin]; [split; [discriminate | exact Hword]|].
        apply (IH EmptyString); [intros c'' []|assumption].
    + apply (IH (String.append word (String c EmptyString))); [|assumption].
      intros c'. rewrite list_ascii_of_string_app, in_app_iff. simpl.
      intros [Hin' | [<- | []]]; [auto | exact Hc].
Qed.

(** Every character that is not white space ends up in a word. *)
Lemma read_words_covers text : forall word c,
  In c (list_ascii_of_string word) \/
  (In c (list_ascii_of_string text) /\ isspace c = false) ->
  exists w, In w (read_words text word) /\ In c (list_ascii_of_string w).
Proof.
  induction text as [|c' text IH]; intros word c Hc; simpl.
  - destruct Hc as [Hc | [[] _]].
    destruct word as [|c' word]; [destruct Hc|].
    exists (String c' word). split; [left; reflexivity | exact Hc].
  - destruct (isspace c') eqn:Hspace.
    + destruct Hc as [Hc | [[-> | Hc] Hns]]; [| congruence |].
      * destruct word as [|c'' word]; [destruct Hc|].
        exists (String c'' word). split; [left; reflexivity | exact Hc].
      * destruct (IH EmptyString c) as (w & Hw & Hin); [right; auto|].
        exists w. split; [|exact Hin].
        destruct word; [exact Hw | right; exact Hw].
    + apply IH. rewrite list_ascii_of_string_app, in_app_iff. simpl.
      destruct Hc as [Hc | [[-> | Hc] Hns]]; auto.
Qed.

Lemma read_words_nil text : forall word,
  read_words text word = [] <->
  word = EmptyString /\ forall c, In c (list_ascii_of_string text) -> isspace c = true.
Proof.
  induction text as [|c text IH]; intros word; simpl.
  - destruct word; split.
    + intros _. split; [reflexivity | intros c []].
    + reflexivity.
    + discriminate.
    + intros [? _]. discriminate.
  - destruct (isspace c) eqn:Hc.
    + destruct word as [|c' word].
      * rewrite IH. split.
        -- intros [_ Hall]. split; [reflexivity|]. intros c' [<- | Hin]; auto.
        -- intros [_ Hall]. split; [reflexivity|]. intros c' Hin. apply Hall. right. exact Hin.
      * split; [discriminate | intros [? _]; discriminate].
    + rewrite IH. split.
      * intros [Hne _]. destruct (append_not_empty _ _ Hne).
      * intros [-> Hall]. specialize (Hall c (or_introl eq_refl)). congruence.
Qed.

(** X1. The words [SplitIntoWords] returns are not empty and hold no white
    space; every character of the text that is not white space is in one of
    them; and the result is empty exactly when the text holds nothing but
    white space. *)
Theorem SplitIntoWords_tokens text :
  (forall word, In word (SplitIntoWords text) -> is_token word)
  /\ (forall c, In c (list_ascii_of_string text) -> isspace c = false ->
        exists word, In word (SplitIntoWords text)
                     /\ In c (list_ascii_of_string word))
  /\ (SplitIntoWords text = [] <->
      forall c, In c (list_ascii_of_string text) -> isspace c = true).
Proof.
  unfold SplitIntoWords. split; [|split].
  - intros word. apply read_words_tokens. intros c [].
  - intros c Hin Hc. apply read_words_covers. right. auto.
  - rewrite read_words_nil. split; [intros [_ H]; exact H | auto].
Qed.

(** Reading on after a white-space character starts a new word. *)
Lemma read_words_app a c b : forall word,
  isspace c = true ->
  read_words (String.append a (String c b)) word
  = (read_words a word ++ read_words b EmptyString)%list.
Proof.
  induction a as [|c' a IH]; intros word Hc; simpl.
  - rewrite Hc. destruct word; reflexivity.
  - destruct (isspace c').
    + destruct word; simpl; rewrite IH by assumption; reflexivity.
    + apply IH. assumption.
Qed.

(** The characters of a token are read into the word. *)
Lemma read_words_token w : forall text word,
  (forall c, In c (list_ascii_of_string w) -> isspace c = false) ->
  read_words (String.append w text) word = read_words text (String.append word w).
Proof.
  induction w as [|c w IH]; intros text word Hw; simpl.
  - rewrite append_empty_r. reflexivity.
  - rewrite (Hw c) by (left; reflexivity).
    rewrite IH by (intros c' Hin; apply Hw; right; exact Hin).
    rewrite append_assoc. reflexivity.
Qed.

Lemma SplitIntoWords_token w : is_token w -> SplitIntoWords w = [w].
Proof.
  intros [Hne Hw]. unfold SplitIntoWords.
  rewrite <- (append_empty_r w) at 1. rewrite read_words_token by assumption.
  simpl. destruct w; [contradiction | reflexivity].
Qed.

(** X2. White space separates: the words of a text, a white-space character
    and another text are the words of the first text followed by the words
    of the second. *)
Theorem SplitIntoWords_app a c b :
  isspace c = true ->
  SplitIntoWords (String.append a (String c b))
  = (SplitIntoWords a ++ SplitIntoWords b)%list.
Proof. intros Hc. apply read_words_app, Hc. Qed.

Lemma SplitIntoWords_app_witness :
  SplitIntoWords "cat  dog" = ["cat"; "dog"]%string.
Proof.
  change "cat  dog"%string with (String.append "cat " (String " " "dog")).
  rewrite (SplitIntoWords_app "cat " " " "dog" eq_refl). reflexivity.
Defined.

(** X3. Splitting is the inverse of joining: words that are not empty and
    hold no white space, joined by single spaces, are split into the same
    words. *)
Theorem SplitIntoWords_concat words :
  (forall word, In word words -> is_token word) ->
  SplitIntoWords (String.concat " " words) = words.
Proof.
  induction words as [|w words IH]; intros Hwords; [reflexivity|].
  assert (Hw : is_token w) by (apply Hwords; left; reflexivity).
  destruct words as [|w' words]; [apply SplitIntoWords_token, Hw|].
  change (String.concat " " (w :: w' :: words))
    with (String.append w (String " " (String.concat " " (w' :: words)))).
  unfold SplitIntoWords. rewrite read_words_app by reflexivity.
  fold (SplitIntoWords w). fold (SplitIntoWords (String.concat " " (w' :: words))).
  rewrite SplitIntoWords_token by exact Hw.
  rewrite IH by (intros word Hin; apply Hwords; right; exact Hin).
  reflexivity.
Qed.

Lemma SplitIntoWords_concat_witness :
  SplitIntoWords (String.concat " " ["cat"; "-dog"; "in"]%string)
  = ["cat"; "-dog"; "in"]%string.
Proof.
  apply (SplitIntoWords_concat ["cat"; "-dog"; "in"]%string).
  intros word Hin. split.
  - destruct Hin as [<- | [<- | [<- | []]]]; discriminate.
  - intros c Hc.
    destruct Hin as [<- | [<- | [<- | []]]]; simpl in Hc;
      repeat (destruct Hc as [<- | Hc]; [reflexivity|]); destruct Hc.
Defined.

(** ** The constructors *)

Lemma MakeUniqueNonEmptyStrings_loop strings : forall (acc : gset string) w,
  w ∈ foldl (fun non_empty_strings str =>
               match str with
               | EmptyString => non_empty_strings
               | _ => {[str]} ∪ non_empty_strings
               end) acc strings
  <-> w ∈ acc \/ (w <> EmptyString /\ In w strings).
Proof.
  induction strings as [|str strings IH]; intros acc w; simpl.
  - tauto.
  - rewrite IH. destruct str as [|c str].
    + split; [intros [?|[? ?]]; auto | intros [?|[? [<-|?]]]; auto; contradiction].
    + rewrite elem_of_union, elem_of_singleton. split.
      * intros [[-> | ?] | [? ?]]; auto.
      * intros [? | [? [<- | ?]]]; auto.
Qed.

Lemma MakeUniqueNonEmptyStrings_spec strings w :
  w ∈ MakeUniqueNonEmptyStrings strings <-> w <> EmptyString /\ In w strings.
Proof.
  unfold MakeUniqueNonEmptyStrings. rewrite MakeUniqueNonEmptyStrings_loop.
  rewrite elem_of_empty. tauto.
Qed.

Lemma IsStopWord_true server word :
  IsStopWord server word = true <-> word ∈ stop_words_ server.
Proof. unfold IsStopWord. apply bool_decide_eq_true. Qed.

(** The characters of the words read are characters of the text, or of the
    word being read. *)
Lemma read_words_chars c text : forall word w,
  In w (read_words text word) -> In c (list_ascii_of_string w) ->
  In c (list_ascii_of_string word) \/ In c (list_ascii_of_string text).
Proof.
  induction text as [|c' text IH]; intros word w Hw Hc; simpl in Hw.
  - destruct word; [destruct Hw|]. destruct Hw as [<- | []]. left. exact Hc.
  - destruct (isspace c').
    + destruct word as [|c'' word].
      * destruct (IH _ _ Hw Hc) as [[] | ?]. right. right. assumption.
      * destruct Hw as [<- | Hw]; [left; exact Hc|].
        destruct (IH _ _ Hw Hc) as [[] | ?]. right. right. assumption.
    + destruct (IH _ _ Hw Hc) as [Hword | ?]; [|right; right; assumption].
      rewrite list_ascii_of_string_app, in_app_iff in Hword. simpl in Hword.
      destruct Hword as [? | [<- | []]];
        [left; assumption | right; left; reflexivity].
Qed.

(** The words of a text are valid exactly when its control characters are
    all white space. *)
Lemma SplitIntoWords_all_valid text :
  (forall word, In word (SplitIntoWords text) -> IsValidWord word = true)
  <-> forall c, In c (list_ascii_of_string text) -> is_control c = true ->
                isspace c = true.
Proof.
  split.
  - intros Hwords c Hin Hcontrol.
    destruct (isspace c) eqn:Hspace; [reflexivity|].
    destruct (read_words_covers text EmptyString c) as (w & Hw & Hc);
      [right; auto|].
    specialize (Hwords w Hw). unfold IsValidWord in Hwords.
    rewrite forallb_forall in Hwords. specialize (Hwords c Hc).
    rewrite Hcontrol in Hwords. discriminate.
  - intros Htext word Hword.
    destruct (IsValidWord word) eqn:Hvalid; [reflexivity|].
    apply IsValidWord_false_iff in Hvalid as (c & Hc & Hrange).
    apply is_control_spec in Hrange.
    destruct (read_words_tokens text EmptyString word) as [_ Hspace];
      [intros c' [] | exact Hword |].
    destruct (read_words_chars c text EmptyString word Hword Hc) as [[] | Hin].
    specialize (Hspace c Hc). rewrite (Htext c Hin Hrange) in Hspace.
    discriminate.
Qed.

(** X4. The constructor from a container throws when a stop word holds a
    control character, and otherwise makes a server without documents whose
    stop words are the strings of the container that are not empty. The
    constructor from a text succeeds exactly when every control character of
    the text is white space, and its stop words are the words of the text. *)
Theorem MakeSearchServer_stop_words stop_words stop_words_text :
  ((forall word, In word stop_words -> IsValidWord word = true) ->
   exists server,
     MakeSearchServer stop_words = Ok server
     /\ (forall word, IsStopWord server word = true
                      <-> word <> EmptyString /\ In word stop_words)
     /\ word_to_document_freqs_ server = ∅
     /\ document_ids server = []
     /\ GetDocumentCount server = 0)
  /\ ((exists word, In word stop_words /\ IsValidWord word = false) ->
      MakeSearchServer stop_words
      = Throw (invalid_argument "invalid word in class constructor"))
  /\ ((exists server,
         MakeSearchServer_text stop_words_text = Ok server
         /\ forall word, IsStopWord server word = true
                         <-> In word (SplitIntoWords stop_words_text))
      <-> forall c, In c (list_ascii_of_string stop_words_text) ->
                    is_control c = true -> isspace c = true).
Proof.
  assert (Hvalid : forall strings,
             (forall word, In word strings -> IsValidWord word = true) ->
             forallb IsValidWord (sorted_words (MakeUniqueNonEmptyStrings strings))
             = true).
  { intros strings Hall. apply forallb_forall. intros word Hin.
    apply sorted_words_In, MakeUniqueNonEmptyStrings_spec in Hin as [_ Hin].
    apply Hall, Hin. }
  assert (Hinvalid : forall strings,
             (exists word, In word strings /\ IsValidWord word = false) ->
             forallb IsValidWord (sorted_words (MakeUniqueNonEmptyStrings strings))
             = false).
  { intros strings (word & Hin & Hword).
    destruct (forallb _ _) eqn:Hall; [|reflexivity].
    rewrite forallb_forall in Hall. rewrite <- Hword. symmetry. apply Hall.
    apply sorted_words_In, MakeUniqueNonEmptyStrings_spec. split; [|exact Hin].
    intros ->. discriminate. }
  split; [|split].
  - intros Hall. unfold MakeSearchServer. rewrite Hvalid by exact Hall.
    eexists. split; [reflexivity|]. split; [|repeat split].
    intros word. rewrite IsStopWord_true. simpl.
    apply MakeUniqueNonEmptyStrings_spec.
  - intros Hbad. unfold MakeSearchServer. rewrite Hinvalid by exact Hbad.
    reflexivity.
  - rewrite <- SplitIntoWords_all_valid. unfold MakeSearchServer_text. split.
    + intros (server & Hmade & _) word Hin.
      destruct (IsValidWord word) eqn:Hword; [reflexivity|].
      unfold MakeSearchServer in Hmade. rewrite Hinvalid in Hmade by eauto.
      discriminate.
    + intros Hall. unfold MakeSearchServer. rewrite Hvalid by exact Hall.
      eexists. split; [reflexivity|].
      intros word. rewrite IsStopWord_true. simpl.
      rewrite MakeUniqueNonEmptyStrings_spec. split; [tauto|].
      intros Hin. split; [|exact Hin].
      eapply (read_words_tokens stop_words_text EmptyString word);
        [intros c [] | exact Hin].
Qed.

Lemma MakeSearchServer_stop_words_witness :
  exists server,
    MakeSearchServer ["in"; ""; "the"; "in"]%string = Ok server
    /\ IsStopWord server "the" = true /\ IsStopWord server "" = false.
Proof.
  destruct (proj1 (MakeSearchServer_stop_words ["in"; ""; "the"; "in"]%string ""))
    as (server & Hmade & Hstop & _).
  { intros word [<- | [<- | [<- | [<- | []]]]]; reflexivity. }
  exists server. split; [exact Hmade|]. split.
  - apply Hstop. split; [discriminate | simpl; auto].
  - destruct (IsStopWord server "") eqn:Hempty; [|reflexivity].
    apply Hstop in Hempty as [Hne _]. contradiction.
Defined.

(** ** AddDocument *)

(** The loop of [SplitIntoWordsNoStop] on valid words keeps those that are
    not stop words, in their order. *)
Lemma no_stop_loop_Ok server tokens : forall words,
  (forall word, In word tokens -> IsValidWord word = true) ->
  for_each (no_stop_step server) tokens words
  = Ok (words ++ List.filter (fun word => negb (IsStopWord server word)) tokens)%list.
Proof.
  induction tokens as [|token tokens IH]; intros words Hvalid; simpl.
  - rewrite app_nil_r. reflexivity.
  - unfold no_stop_step at 1. rewrite (Hvalid token) by (left; reflexivity). simpl.
    destruct (IsStopWord server token); simpl.
    + apply IH. intros word Hin. apply Hvalid. right. exact Hin.
    + rewrite IH by (intros word Hin; apply Hvalid; right; exact Hin).
      rewrite <- app_assoc. reflexivity.
Qed.

Lemma SplitIntoWordsNoStop_Ok server text words :
  SplitIntoWordsNoStop server text = Ok words <->
  (forall word, In word (SplitIntoWords text) -> IsValidWord word = true)
  /\ words = List.filter (fun word => negb (IsStopWord server word))
                         (SplitIntoWords text).
Proof.
  rewrite SplitIntoWordsNoStop_unfold. split.
  - intros Hrun.
    assert (Hvalid : forall word, In word (SplitIntoWords text) ->
                                  IsValidWord word = true).
    { intros word Hin. destruct (IsValidWord word) eqn:Hword; [reflexivity|].
      rewrite (no_stop_loop_invalid server _ [] word Hin Hword) in Hrun.
      discriminate. }
    split; [exact Hvalid|].
    rewrite no_stop_loop_Ok in Hrun by exact Hvalid.
    injection Hrun as <-. reflexivity.
  - intros [Hvalid ->]. apply no_stop_loop_Ok, Hvalid.
Qed.

(** X5. [AddDocument] accepts a document exactly when its identifier is not
    negative and not in use and every control character of its text is white
    space. *)
Theorem AddDocument_accepts server document_id document status ratings :
  fst (AddDocument server document_id document status ratings) = None
  <-> 0 <= document_id
      /\ documents_ server !! document_id = None
      /\ forall c, In c (list_ascii_of_string document) ->
                   is_control c = true -> isspace c = true.
Proof.
  rewrite <- SplitIntoWords_all_valid. split.
  - intros Hrun.
    destruct (AddDocument_cases server document_id document status ratings)
      as [[e Hthrow] | (Hpos & Hfresh & words & Hwords & _)].
    + rewrite Hthrow in Hrun. discriminate.
    + apply SplitIntoWordsNoStop_Ok in Hwords as [Hvalid _]. auto.
  - intros (Hpos & Hfresh & Hvalid).
    rewrite AddDocument_good_id by assumption.
    rewrite (proj2 (SplitIntoWordsNoStop_Ok server document _) (conj Hvalid eq_refl)).
    reflexivity.
Qed.

(** One step of the loop of [AddDocument], at a word and a document. *)
Lemma add_word_freq_at document_id inv freqs word word' other :
  match add_word_freq document_id inv freqs word !! word' with
  | Some postings => postings !! other
  | None => None
  end
  = if decide (word' = word /\ other = document_id)
    then Some (match freqs !! word with
               | Some postings => default 0%float (postings !! document_id)
               | None => 0%float
               end + inv)%float
    else match freqs !! word' with
         | Some postings => postings !! other
         | None => None
         end.
Proof.
  unfold add_word_freq.
  destruct (decide (word' = word)) as [-> | Hword].
  - rewrite lookup_insert_eq.
    destruct (decide (other = document_id)) as [-> | Hother].
    + rewrite lookup_insert_eq, decide_True by auto.
      destruct (freqs !! word); reflexivity.
    + rewrite lookup_insert_ne by congruence.
      rewrite decide_False by tauto.
      destruct (freqs !! word); [reflexivity | apply lookup_empty].
  - rewrite lookup_insert_ne by congruence. rewrite decide_False by tauto.
    reflexivity.
Qed.

(** The loop of [AddDocument] leaves the other documents as they were, and
    gives the document the words of the loop. *)
Lemma add_words_at document_id inv words : forall freqs word other,
  (other <> document_id ->
   match foldl (add_word_freq document_id inv) freqs words !! word with
   | Some postings => postings !! other
   | None => None
   end
   = match freqs !! word with
     | Some postings => postings !! other
     | None => None
     end)
  /\ (is_Some match foldl (add_word_freq document_id inv) freqs words !! word with
              | Some postings => postings !! document_id
              | None => None
              end
      <-> In word words
          \/ is_Some match freqs !! word with
                     | Some postings => postings !! document_id
                     | None => None
                     end).
Proof.
  induction words as [|w words IH]; intros freqs word other; simpl.
  - split; [reflexivity | tauto].
  - destruct (IH (add_word_freq document_id inv freqs w) word other) as [IH1 IH2].
    split.
    + intros Hother. rewrite IH1 by assumption.
      rewrite add_word_freq_at, decide_False by tauto. reflexivity.
    + rewrite IH2, add_word_freq_at.
      destruct (decide (word = w /\ document_id = document_id)) as [[-> _] | Hne].
      * split; [auto | intros _; right; eauto].
      * assert (word <> w) by tauto. split; intros [? | ?]; auto.
        -- destruct H0 as [<- | ?]; [contradiction | auto].
Qed.

(** X6. After a successful [AddDocument] of a document on a server that calls
    have produced, the index holds the document for exactly the words of its
    text that are not stop words, the table holds its status and the average
    of its ratings, and the other documents, their postings and the stop
    words are as before. *)
Theorem AddDocument_index server document_id document status ratings server' :
  reachable server ->
  AddDocument server document_id document status ratings = (None, server') ->
  (forall word,
     has_word server' word document_id = true
     <-> In word (SplitIntoWords document) /\ IsStopWord server word = false)
  /\ documents_ server' !! document_id
     = Some {| data_rating := ComputeAverageRating ratings; data_status := status |}
  /\ document_ids server' = (document_ids server ++ [document_id])%list
  /\ stop_words_ server' = stop_words_ server
  /\ forall other,
       other <> document_id ->
       documents_ server' !! other = documents_ server !! other
       /\ forall word, term_freq_of server' word other = term_freq_of server word other.
Proof.
  intros Hreach Hrun. apply reachable_consistent in Hreach.
  destruct (AddDocument_cases server document_id document status ratings)
    as [[e Hthrow] | (Hpos & Hfresh & words & Hwords & Hadd)];
    [congruence|].
  rewrite Hadd in Hrun. injection Hrun as <-.
  apply SplitIntoWordsNoStop_Ok in Hwords as [Hvalid ->].
  split; [|split; [|split; [|split]]]; simpl.
  - intros word. rewrite term_freq_of_has_word. unfold term_freq_of. simpl.
    rewrite (proj2 (add_words_at _ _ _ _ word document_id)).
    rewrite filter_In, negb_true_iff.
    assert (Hnone : match word_to_document_freqs_ server !! word with
                    | Some postings => postings !! document_id
                    | None => None
                    end = None).
    { destruct (word_to_document_freqs_ server !! word) as [postings|] eqn:Hword;
        [|reflexivity].
      eapply consistent_unposted; eassumption. }
    rewrite Hnone. split; [intros [? | [? ?]]; [assumption | discriminate] | auto].
  - apply lookup_insert_eq.
  - reflexivity.
  - reflexivity.
  - intros other Hother. split; [apply lookup_insert_ne; congruence|].
    intros word. unfold term_freq_of. simpl.
    apply (proj1 (add_words_at _ _ _ _ word other)). exact Hother.
Qed.

Lemma AddDocument_index_witness :
  has_word cat_server "mouse" 2 = true /\ has_word cat_server "in" 2 = false.
Proof.
  destruct (AddDocument_index
              (added (added new_server 0 "cat dog" ACTUAL [5])
                     1 "cat cat mouse" ACTUAL [5])
              2 "mouse in the house" BANNED [1; 2; 3] cat_server)
    as (Hwords & _).
  - exists ["in"; "the"]%string, new_server. split; [vm_compute; reflexivity|].
    repeat apply added_later. constructor.
  - vm_compute. reflexivity.
  - split.
    + apply Hwords. split; [vm_compute; auto | vm_compute; reflexivity].
    + destruct (has_word cat_server "in" 2) eqn:Hin; [|reflexivity].
      apply Hwords in Hin as [_ Hstop]. vm_compute in Hstop. discriminate.
Defined.

(** The term frequency after the loop of [AddDocument]: the loop adds
    [inv] once for each occurrence of the word. *)
Lemma add_words_value document_id inv word words : forall freqs,
  match foldl (add_word_freq document_id inv) freqs words !! word with
  | Some postings => postings !! document_id
  | None => None
  end
  = match count_occ string_dec words word with
    | O => match freqs !! word with
           | Some postings => postings !! document_id
           | None => None
           end
    | S n => Some (Nat.iter (S n) (fun term_freq => (term_freq + inv)%float)
                            match freqs !! word with
                            | Some postings => default 0%float (postings !! document_id)
                            | None => 0%float
                            end)
    end.
Proof.
  induction words as [|w words IH]; intros freqs; [reflexivity|].
  cbn [foldl count_occ]. rewrite IH.
  pose proof (add_word_freq_at document_id inv freqs w word document_id) as Hstep.
  destruct (string_dec w word) as [-> | Hne].
  - rewrite decide_True in Hstep by auto.
    destruct (add_word_freq document_id inv freqs word !! word) as [postings|];
      [|discriminate].
    rewrite Hstep. simpl default.
    destruct (count_occ string_dec words word) as [|n]; [reflexivity|].
    rewrite (Nat.iter_succ_r (S n)). reflexivity.
  - rewrite decide_False in Hstep by (intros [? _]; congruence).
    destruct (count_occ string_dec words word) as [|n].
    + exact Hstep.
    + assert (Hdefault : forall m : option (gmap Z float),
                 match m with
                 | Some postings => default 0%float (postings !! document_id)
                 | None => 0%float
                 end
                 = default 0%float match m with
                                   | Some postings => postings !! document_id
                                   | None => None
                                   end)
        by (intros [?|]; reflexivity).
      rewrite !Hdefault, Hstep. reflexivity.
Qed.

(** X7. After a successful [AddDocument], the term frequency of a word in
    the document is the sum, from 0, of one over the number of words of the
    document that are not stop words, added once for each occurrence of the
    word among them; the index holds no term frequency for a word that does
    not occur. *)
Theorem AddDocument_term_freq server document_id document status ratings server'
    words word :
  reachable server ->
  AddDocument server document_id document status ratings = (None, server') ->
  SplitIntoWordsNoStop server document = Ok words ->
  term_freq_of server' word document_id
  = match count_occ string_dec words word with
    | O => None
    | S n =>
        Some (Nat.iter (S n)
                (fun term_freq =>
                   (term_freq + 1 / double_of_size (length words))%float)
                0%float)
    end.
Proof.
  intros Hreach Hrun Hwords. apply reachable_consistent in Hreach.
  destruct (AddDocument_cases server document_id document status ratings)
    as [[e Hthrow] | (Hpos & Hfresh & words' & Hwords' & Hadd)];
    [congruence|].
  assert (words' = words) as -> by congruence.
  rewrite Hadd in Hrun. injection Hrun as <-.
  unfold term_freq_of. cbn [word_to_document_freqs_].
  rewrite add_words_value.
  pose proof (consistent_unposted server document_id Hreach Hfresh) as Hunposted.
  destruct (word_to_document_freqs_ server !! word) as [postings|] eqn:Hword;
    [rewrite (Hunposted word postings Hword)|]; reflexivity.
Qed.

Lemma AddDocument_term_freq_witness :
  term_freq_of (added (added new_server 0 "a" ACTUAL [1]) 1 "a a a a a a" ACTUAL [2])
               "a" 1
  = Some 0x1.fffffffffffffp-1%float.
Proof.
  rewrite (AddDocument_term_freq (added new_server 0 "a" ACTUAL [1])
             1 "a a a a a a" ACTUAL [2]
             (added (added new_server 0 "a" ACTUAL [1]) 1 "a a a a a a" ACTUAL [2])
             ["a"; "a"; "a"; "a"; "a"; "a"]%string "a").
  - vm_compute. reflexivity.
  - exists ["in"; "the"]%string, new_server. split; [vm_compute; reflexivity|].
    apply added_later. constructor.
  - vm_compute. reflexivity.
  - vm_compute. reflexivity.
Defined.

(** ** Documents once added *)

Lemma ParseQuery_stop_words server1 server2 text :
  stop_words_ server1 = stop_words_ server2 ->
  ParseQuery server1 text = ParseQuery server2 text.
Proof.
  intros Hstop. unfold ParseQuery. apply for_each_ext. intros query word _.
  unfold parse_step, ParseQueryWord, IsStopWord. rewrite Hstop. reflexivity.
Qed.

Lemma has_word_term_freq_of server1 server2 word document_id :
  term_freq_of server1 word document_id = term_freq_of server2 word document_id ->
  has_word server1 word document_id = has_word server2 word document_id.
Proof.
  intros Hsame. apply Bool.eq_iff_eq_true.
  rewrite !term_freq_of_has_word, Hsame. reflexivity.
Qed.

Lemma existsb_same {A} (f g : A -> bool) l :
  (forall a, f a = g a) -> existsb f l = existsb g l.
Proof.
  intros Hfg. induction l as [|a l IH]; [reflexivity|]. simpl.
  rewrite Hfg, IH. reflexivity.
Qed.

(** What a search or a match reads of a document, on two servers. *)
Lemma MatchDocument_same server1 server2 raw_query document_id :
  stop_words_ server1 = stop_words_ server2 ->
  documents_ server1 !! document_id = documents_ server2 !! document_id ->
  (forall word, term_freq_of server1 word document_id
                = term_freq_of server2 word document_id) ->
  MatchDocument server1 raw_query document_id
  = MatchDocument server2 raw_query document_id.
Proof.
  intros Hstop Hdoc Hfreq. unfold MatchDocument.
  destruct (negb (IsValidWord raw_query)); [reflexivity|].
  rewrite (ParseQuery_stop_words server1 server2) by exact Hstop.
  destruct (ParseQuery server2 raw_query) as [query|e]; [|reflexivity]. simpl.
  rewrite Hdoc.
  rewrite (existsb_same (fun word => has_word server1 word document_id)
                        (fun word => has_word server2 word document_id))
    by (intros word; apply has_word_term_freq_of, Hfreq).
  rewrite (list_filter_iff (fun word => has_word server1 word document_id = true)
                           (fun word => has_word server2 word document_id = true))
    by (intros word; rewrite (has_word_term_freq_of server1 server2) by apply Hfreq;
        reflexivity).
  reflexivity.
Qed.

Lemma later_document server server' document_id document_info :
  later server server' ->
  documents_ server !! document_id = Some document_info ->
  documents_ server' !! document_id = Some document_info
  /\ (forall word, term_freq_of server' word document_id
                   = term_freq_of server word document_id)
  /\ stop_words_ server' = stop_words_ server
  /\ exists more, document_ids server' = (document_ids server ++ more)%list.
Proof.
  intros Hlater Hdoc. induction Hlater as [|server' id' document status ratings Hlater IH].
  - repeat split; auto. exists []. rewrite app_nil_r. reflexivity.
  - destruct IH as (Hdoc' & Hfreq & Hstop & more & Hids).
    destruct (AddDocument_cases server' id' document status ratings)
      as [[e ->] | (Hpos & Hfresh & words & _ & ->)]; simpl.
    + repeat split; auto. exists more. exact Hids.
    + assert (Hne : document_id <> id') by congruence.
      split; [|split; [|split]].
      * rewrite lookup_insert_ne by congruence. exact Hdoc'.
      * intros word. rewrite <- Hfreq. unfold term_freq_of at 1. simpl.
        apply (proj1 (add_words_at _ _ _ _ word document_id)). exact Hne.
      * exact Hstop.
      * exists (more ++ [id'])%list. rewrite Hids, app_assoc. reflexivity.
Qed.

(** X8. A document once added stays as it is: whatever calls of
    [AddDocument] follow, the table holds it with the same status and rating,
    the index holds the same term frequencies for it, the stop words are the
    same, the list of identifiers only grows at its end, and [MatchDocument]
    returns for it what it returned before. *)
Theorem later_keeps_document server server' document_id document_info :
  later server server' ->
  documents_ server !! document_id = Some document_info ->
  documents_ server' !! document_id = Some document_info
  /\ (forall word, term_freq_of server' word document_id
                   = term_freq_of server word document_id)
  /\ stop_words_ server' = stop_words_ server
  /\ (exists more, document_ids server' = (document_ids server ++ more)%list)
  /\ forall raw_query,
       MatchDocument server' raw_query document_id
       = MatchDocument server raw_query document_id.
Proof.
  intros Hlater Hdoc.
  destruct (later_document _ _ _ _ Hlater Hdoc) as (Hdoc' & Hfreq & Hstop & Hids).
  repeat split; try assumption.
  intros raw_query. apply MatchDocument_same; [assumption | congruence | assumption].
Qed.

Lemma later_keeps_document_witness :
  MatchDocument cat_server "cat -mouse dog" 0 = Ok (["cat"; "dog"]%string, ACTUAL).
Proof.
  destruct (later_keeps_document
              (added new_server 0 "cat dog" ACTUAL [5]) cat_server 0
              {| data_rating := 5; data_status := ACTUAL |})
    as (_ & _ & _ & _ & Hmatch).
  - unfold cat_server. do 2 apply later_AddDocument. constructor.
  - vm_compute. reflexivity.
  - rewrite Hmatch. vm_compute. reflexivity.
Defined.

(** What [AddDocument] keeps true of the list of identifiers. *)
Lemma later_document_ids server server' :
  later server server' ->
  NoDup (document_ids server)
  /\ (forall id, In id (document_ids server) <-> is_Some (documents_ server !! id))
  /\ length (document_ids server) = size (documents_ server)
  /\ (forall id, In id (document_ids server) -> 0 <= id) ->
  NoDup (document_ids server')
  /\ (forall id, In id (document_ids server') <-> is_Some (documents_ server' !! id))
  /\ length (document_ids server') = size (documents_ server')
  /\ (forall id, In id (document_ids server') -> 0 <= id).
Proof.
  intros Hlater Hstart.
  induction Hlater as [|server' id' document status ratings Hlater IH];
    [exact Hstart|].
  destruct IH as (Hnodup & Hin & Hlen & Hpos).
  destruct (AddDocument_cases server' id' document status ratings)
    as [[e ->] | (Hpos' & Hfresh & words & _ & ->)]; simpl; [auto|].
  assert (Hnew : ~ In id' (document_ids server')).
  { rewrite Hin, Hfresh. intros [? ?]. discriminate. }
  split; [|split; [|split]].
  - apply NoDup_app. split; [exact Hnodup|]. split.
    + intros id Hid Hid'. apply list_elem_of_In in Hid.
      apply list_elem_of_singleton in Hid'. subst. contradiction.
    + apply NoDup_singleton.
  - intros id. rewrite in_app_iff, Hin. simpl.
    destruct (decide (id = id')) as [-> | Hne].
    + rewrite lookup_insert_eq. split; eauto.
    + rewrite lookup_insert_ne by congruence.
      split; [intros [? | [? | []]]; [assumption | congruence] | auto].
  - rewrite length_app, Hlen, map_size_insert_None by exact Hfresh. simpl. lia.
  - intros id. rewrite in_app_iff. simpl.
    intros [? | [<- | []]]; [auto | exact Hpos'].
Qed.

(** X9. On a server that calls have produced, the list of identifiers holds
    each document of the table once, and no negative identifier;
    [GetDocumentId] returns the identifier at an index from 0 to the number
    of documents, excluded, which is a document of the table, and throws
    [out_of_range] at any other index. *)
Theorem reachable_document_ids server :
  reachable server ->
  NoDup (document_ids server)
  /\ (forall id, In id (document_ids server) <-> is_Some (documents_ server !! id))
  /\ length (document_ids server) = size (documents_ server)
  /\ (forall id, In id (document_ids server) -> 0 <= id)
  /\ forall index,
       (0 <= index < Z.of_nat (size (documents_ server)) ->
        exists id, GetDocumentId server index = Ok id
                   /\ document_ids server !! Z.to_nat index = Some id
                   /\ is_Some (documents_ server !! id))
       /\ (index < 0 \/ Z.of_nat (size (documents_ server)) <= index ->
           GetDocumentId server index = Throw out_of_range).
Proof.
  intros (stop_words & server0 & Hnew & Hlater).
  assert (Hstart : document_ids server0 = [] /\ documents_ server0 = ∅).
  { unfold MakeSearchServer in Hnew. destruct (forallb _ _); [|discriminate].
    injection Hnew as <-. auto. }
  destruct Hstart as [Hids0 Hdocs0].
  destruct (later_document_ids _ _ Hlater) as (Hnodup & Hin & Hlen & Hpos).
  { rewrite Hids0, Hdocs0. split; [constructor|]. split; [|split].
    - intros id. rewrite lookup_empty. split; [intros [] | intros [? ?]; discriminate].
    - reflexivity.
    - intros id []. }
  repeat split; try assumption; try apply Hin.
  - intros Hindex. unfold GetDocumentId. rewrite Hlen.
    destruct (Z.ltb_spec index 0); [lia|].
    destruct (Z.leb_spec (Z.of_nat (size (documents_ server))) index); [lia|]. simpl.
    destruct (document_ids server !! Z.to_nat index) as [id|] eqn:Hid.
    + exists id. split; [reflexivity|]. split; [reflexivity|].
      apply Hin, list_elem_of_In, (list_elem_of_lookup_2 _ _ _ Hid).
    + apply lookup_ge_None in Hid. lia.
  - intros Hindex. unfold GetDocumentId. rewrite Hlen.
    destruct (Z.ltb_spec index 0); [reflexivity|].
    destruct (Z.leb_spec (Z.of_nat (size (documents_ server))) index);
      [reflexivity | lia].
Qed.

Lemma reachable_document_ids_witness :
  GetDocumentId cat_server 2 = Ok 2 /\ GetDocumentId cat_server 3 = Throw out_of_range.
Proof.
  destruct (reachable_document_ids cat_server cat_server_reachable)
    as (_ & _ & _ & _ & Hindex).
  split.
  - destruct (proj1 (Hindex 2)) as (id & Hget & Hid & _);
      [vm_compute; split; [discriminate | reflexivity]|].
    rewrite Hget. vm_compute in Hid. congruence.
  - apply (proj2 (Hindex 3)). right. vm_compute. discriminate.
Defined.

(** The keys of the index after the loop of [AddDocument]. *)
Lemma add_words_keys document_id inv words : forall freqs word postings,
  foldl (add_word_freq document_id inv) freqs words !! word = Some postings ->
  is_Some (freqs !! word) \/ In word words.
Proof.
  induction words as [|w words IH]; intros freqs word postings Hlookup;
    simpl in Hlookup.
  - left. eauto.
  - destruct (IH _ _ _ Hlookup) as [[postings' Hstep] | Hin]; [|right; right; exact Hin].
    apply add_word_freq_lookup in Hstep as [[-> _] | [_ Hold]];
      [right; left; reflexivity | left; eauto].
Qed.

(** X10. On a server that calls have produced, every word of the index is
    a valid word, is not empty, holds no white space, and is not a stop
    word. *)
Theorem reachable_index_words server word postings :
  reachable server ->
  word_to_document_freqs_ server !! word = Some postings ->
  is_token word /\ IsValidWord word = true /\ IsStopWord server word = false.
Proof.
  intros (stop_words & server0 & Hnew & Hlater). revert word postings.
  assert (Hstart : word_to_document_freqs_ server0 = ∅).
  { unfold MakeSearchServer in Hnew. destruct (forallb _ _); [|discriminate].
    injection Hnew as <-. reflexivity. }
  induction Hlater as [|server' id' document status ratings Hlater IH];
    intros word postings Hword.
  - rewrite Hstart, lookup_empty in Hword. discriminate.
  - destruct (AddDocument_cases server' id' document status ratings)
      as [[e Hrun] | (_ & _ & words & Hwords & Hrun)];
      rewrite Hrun in Hword |- *; simpl in Hword |- *; [eauto|].
    change (IsStopWord _ word) with (IsStopWord server' word).
    apply add_words_keys in Hword as [[postings' Hold] | Hin]; [eauto|].
    apply SplitIntoWordsNoStop_Ok in Hwords as [Hvalid ->].
    apply filter_In in Hin as [Hin Hstop]. apply negb_true_iff in Hstop.
    split; [|split; [apply Hvalid, Hin | exact Hstop]].
    apply (read_words_tokens document EmptyString); [intros c [] | exact Hin].
Qed.

Lemma reachable_index_words_witness :
  IsStopWord cat_server "mouse" = false /\ IsValidWord "mouse" = true.
Proof.
  destruct (reachable_index_words cat_server "mouse"
              {[1 := 0x1.5555555555555p-2%float; 2 := 0x1p-1%float]}
              cat_server_reachable)
    as (_ & Hvalid & Hstop).
  - vm_compute. reflexivity.
  - split; assumption.
Defined.

(** ** ComputeAverageRating *)

Lemma sum_ratings_in_range low high n ratings : forall sum k,
  (forall r, In r ratings -> low <= r <= high) ->
  - 2 ^ 31 <= low * n -> high * n < 2 ^ 31 ->
  0 <= k -> k + Z.of_nat (length ratings) <= n ->
  low * k <= sum <= high * k ->
  foldl (fun sum r => int_wrap (sum + r)) sum ratings
  = sum + fold_right Z.add 0 ratings
  /\ low * (k + Z.of_nat (length ratings))
     <= sum + fold_right Z.add 0 ratings
     <= high * (k + Z.of_nat (length ratings)).
Proof.
  induction ratings as [|r ratings IH]; intros sum k Hall Hlow Hhigh Hk Hlen Hsum.
  - simpl. split; lia.
  - cbn [foldl fold_right length] in *. rewrite Nat2Z.inj_succ in *.
    assert (Hr : low <= r <= high) by (apply Hall; left; reflexivity).
    assert (Hstep : low * (k + 1) <= sum + r <= high * (k + 1)) by lia.
    rewrite int_wrap_small by nia.
    destruct (IH (sum + r) (k + 1)) as [Hfold Hbounds];
      [intros r' Hin; apply Hall; right; exact Hin
      | assumption | assumption | lia | lia | lia |].
    rewrite Hfold. split; lia.
Qed.

(** X11. The rating of a document without ratings is 0. Otherwise, when the
    ratings lie between two bounds whose products with the number of ratings
    fit in an [int], the rating is the sum of the ratings divided by their
    number, rounded towards zero, and lies between the bounds. *)
Theorem ComputeAverageRating_between ratings low high :
  ComputeAverageRating [] = 0
  /\ (ratings <> [] ->
      (forall r, In r ratings -> low <= r <= high) ->
      - 2 ^ 31 <= low * Z.of_nat (length ratings) ->
      high * Z.of_nat (length ratings) < 2 ^ 31 ->
      Z.of_nat (length ratings) <= INT_MAX ->
      ComputeAverageRating ratings
      = Z.quot (fold_right Z.add 0 ratings) (Z.of_nat (length ratings))
      /\ low <= ComputeAverageRating ratings <= high).
Proof.
  split; [reflexivity|]. intros Hne Hall Hlow Hhigh Hlen.
  destruct (sum_ratings_in_range low high (Z.of_nat (length ratings)) ratings 0 0)
    as [Hsum Hbounds]; try assumption; try lia.
  assert (Hn : 0 < Z.of_nat (length ratings)).
  { destruct ratings; [contradiction | simpl; lia]. }
  assert (Hcompute : ComputeAverageRating ratings
                     = Z.quot (fold_right Z.add 0 ratings) (Z.of_nat (length ratings))).
  { unfold ComputeAverageRating. destruct ratings as [|r ratings]; [contradiction|].
    rewrite Hsum, int_wrap_small by (unfold INT_MAX in Hlen; lia).
    reflexivity. }
  split; [exact Hcompute|]. rewrite Hcompute.
  simpl in Hbounds.
  set (total := fold_right Z.add 0 ratings) in *.
  set (n := Z.of_nat (length ratings)) in *.
  clearbody total n. clear - Hn Hbounds.
  pose proof (Z.quot_rem' total n) as Hqr.
  pose proof (Z.rem_bound_abs total n ltac:(lia)) as Hrem.
  destruct (Z.le_gt_cases 0 total) as [Hpos | Hneg].
  - pose proof (Z.rem_nonneg total n ltac:(lia) Hpos). nia.
  - pose proof (Z.rem_nonpos total n ltac:(lia) ltac:(lia)). nia.
Qed.

Lemma ComputeAverageRating_between_witness :
  ComputeAverageRating [-1; -2] = -1 /\ -2 <= ComputeAverageRating [-1; -2] <= -1.
Proof.
  apply (proj2 (ComputeAverageRating_between [-1; -2] (-2) (-1))).
  - discriminate.
  - intros r [<- | [<- | []]]; lia.
  - vm_compute. discriminate.
  - reflexivity.
  - vm_compute. discriminate.
Defined.

(** ** ParseQuery *)

Lemma starts_with_minus_false_not_malformed token :
  starts_with_minus token = false -> ~ malformed_minus_token token.
Proof.
  intros Hstart [-> | [rest ->]]; discriminate.
Qed.

(** What [ParseQueryWord] accepts, and what it returns. *)
Lemma ParseQueryWord_cases server token query_word :
  ParseQueryWord server token = Ok query_word ->
  IsValidWord token = true /\ ~ malformed_minus_token token
  /\ ((starts_with_minus token = false
       /\ query_word = {| data := token; is_minus := false;
                          is_stop := IsStopWord server token |})
      \/ exists word,
           token = String "-" word
           /\ query_word = {| data := word; is_minus := true;
                              is_stop := IsStopWord server word |}).
Proof.
  intros Hparse. apply ParseQueryWord_Ok in Hparse. cbv zeta in Hparse.
  destruct (starts_with_minus token) eqn:Hminus.
  - apply starts_with_minus_true in Hminus as [word ->]. simpl in Hparse.
    destruct Hparse as (-> & Hvalid & Hstart & Hne).
    split; [|split].
    + change (IsValidWord (String "-" word))
        with (negb (is_control "-") && IsValidWord word).
      rewrite Hvalid. reflexivity.
    + intros [[= ->] | [rest [= ->]]]; [contradiction | discriminate].
    + right. exists word. auto.
  - destruct Hparse as (-> & Hvalid & _ & _).
    split; [exact Hvalid|].
    split; [apply starts_with_minus_false_not_malformed, Hminus|].
    left. auto.
Qed.

(** A word that is rejected as a minus-word is malformed. *)
Lemma ParseQueryWord_accepts server token :
  token <> EmptyString ->
  IsValidWord token = true -> ~ malformed_minus_token token ->
  exists query_word, ParseQueryWord server token = Ok query_word.
Proof.
  intros Hne Hvalid Hwell.
  destruct (ParseQueryWord_valid server token Hvalid) as [Hthrow | ?];
    [|assumption].
  destruct (Hwell (ParseQueryWord_rejects server token Hne Hvalid Hthrow)).
Qed.

(** The loop of [ParseQuery] on valid words returns a query, or meets a
    malformed minus-word and throws. *)
Lemma parse_loop_outcome server tokens : forall query,
  (forall token, In token tokens -> token <> EmptyString /\ IsValidWord token = true) ->
  (exists query', for_each (parse_step server) tokens query = Ok query')
  \/ ((exists token, In token tokens /\ malformed_minus_token token)
      /\ for_each (parse_step server) tokens query = Throw InvalidMinusWord).
Proof.
  induction tokens as [|token tokens IH]; intros query Htokens; cbn [for_each].
  - left. eauto.
  - destruct (Htokens token (or_introl eq_refl)) as [Hne Hvalid].
    destruct (parse_step server query token) as [query1|e] eqn:Hstep.
    + destruct (IH query1) as [? | [(t & Hin & Hbad) ?]];
        [intros t Hin; apply Htokens; right; exact Hin | left; assumption |].
      right. split; [|assumption]. exists t. split; [right; exact Hin | exact Hbad].
    + right. unfold parse_step in Hstep.
      destruct (ParseQueryWord_valid server token Hvalid)
        as [Hthrow | [query_word Hword]].
      * rewrite Hthrow in Hstep. injection Hstep as <-. split; [|reflexivity].
        exists token. split; [left; reflexivity|].
        apply (ParseQueryWord_rejects server); assumption.
      * rewrite Hword in Hstep. simpl in Hstep.
        destruct (is_stop query_word); [discriminate|].
        destruct (is_minus query_word); discriminate.
Qed.

(** The sets of a query after the loop of [ParseQuery], from the sets before
    it and the tokens. *)
Lemma parse_loop_words server tokens : forall query query',
  for_each (parse_step server) tokens query = Ok query' ->
  (forall token, In token tokens ->
                 IsValidWord token = true /\ ~ malformed_minus_token token)
  /\ (forall word,
        word ∈ plus_words query' <->
        word ∈ plus_words query
        \/ (In word tokens /\ starts_with_minus word = false
            /\ IsStopWord server word = false))
  /\ (forall word,
        word ∈ minus_words query' <->
        word ∈ minus_words query
        \/ (In (String "-" word) tokens /\ IsStopWord server word = false)).
Proof.
  induction tokens as [|token tokens IH]; intros query query' Hloop; simpl in Hloop.
  - injection Hloop as <-. split; [intros token []|]. split; intros word; simpl; tauto.
  - destruct (parse_step server query token) as [query1|e] eqn:Hstep; [|discriminate].
    destruct (IH _ _ Hloop) as (Htokens & Hplus & Hminus). clear IH Hloop.
    unfold parse_step in Hstep.
    destruct (ParseQueryWord server token) as [query_word|e] eqn:Hword;
      [|discriminate].
    apply ParseQueryWord_cases in Hword
      as (Hvalid & Hwell & [[Hstart ->] | (w & -> & ->)]);
      simpl in Hstep.
    + split; [intros t [<- | Hin]; auto|].
      destruct (IsStopWord server token) eqn:Hstop; injection Hstep as <-;
        simpl in Hplus, Hminus; split; intros word;
        rewrite ?Hplus, ?Hminus, ?elem_of_union, ?elem_of_singleton; simpl;
        intuition (simplify_eq; auto; congruence).
    + split; [intros t [<- | Hin]; auto|].
      destruct (IsStopWord server w) eqn:Hstop; injection Hstep as <-;
        simpl in Hplus, Hminus; split; intros word;
        rewrite ?Hplus, ?Hminus, ?elem_of_union, ?elem_of_singleton; simpl;
        intuition (simplify_eq; auto; congruence).
Qed.

Lemma parse_loop_accepts server tokens : forall query,
  (forall token, In token tokens -> token <> EmptyString) ->
  (forall token, In token tokens ->
                 IsValidWord token = true /\ ~ malformed_minus_token token) ->
  exists query', for_each (parse_step server) tokens query = Ok query'.
Proof.
  intros query Hne Htokens.
  destruct (for_each_total (fun _ => True) (parse_step server) tokens query I)
    as (query' & Hloop & _); [|eauto].
  intros query1 token Hin _. destruct (Htokens token Hin) as [Hvalid Hwell].
  destruct (ParseQueryWord_accepts server token (Hne token Hin) Hvalid Hwell)
    as [query_word Hword].
  unfold parse_step. rewrite Hword. simpl.
  destruct (is_stop query_word); [eauto|]. destruct (is_minus query_word); eauto.
Qed.

(** X12. [ParseQuery] returns a query exactly when every word of the text is
    valid and none is a malformed minus-word. The plus-words of the query
    are then the words of the text that do not start with ['-'] and are not
    stop words, and its minus-words are the words that follow a ['-'] in a
    word of the text and are not stop words. *)
Theorem ParseQuery_words server text :
  ((exists query, ParseQuery server text = Ok query)
   <-> forall token, In token (SplitIntoWords text) ->
                     IsValidWord token = true /\ ~ malformed_minus_token token)
  /\ forall query,
       ParseQuery server text = Ok query ->
       (forall word,
          word ∈ plus_words query <->
          In word (SplitIntoWords text) /\ starts_with_minus word = false
          /\ IsStopWord server word = false)
       /\ (forall word,
             word ∈ minus_words query <->
             In (String "-" word) (SplitIntoWords text)
             /\ IsStopWord server word = false).
Proof.
  split; [split|].
  - intros [query Hparse]. rewrite ParseQuery_unfold in Hparse.
    apply (parse_loop_words _ _ _ _ Hparse).
  - intros Htokens. rewrite ParseQuery_unfold.
    apply parse_loop_accepts; [|exact Htokens].
    intros token Hin.
    apply (read_words_tokens text EmptyString token); [intros c [] | exact Hin].
  - intros query Hparse. rewrite ParseQuery_unfold in Hparse.
    destruct (parse_loop_words _ _ _ _ Hparse) as (_ & Hplus & Hminus).
    split; intros word; rewrite ?Hplus, ?Hminus; simpl;
      rewrite elem_of_empty; tauto.
Qed.

Lemma ParseQuery_same_tokens server text1 text2 query :
  (forall token, In token (SplitIntoWords text1) <-> In token (SplitIntoWords text2)) ->
  ParseQuery server text1 = Ok query ->
  ParseQuery server text2 = Ok query.
Proof.
  intros Hsame Hparse. rewrite ParseQuery_unfold in Hparse.
  destruct (parse_loop_words _ _ _ _ Hparse) as (Htokens & Hplus & Hminus).
  destruct (parse_loop_accepts server (SplitIntoWords text2) empty_query)
    as [query2 Hparse2].
  { intros token Hin.
    apply (read_words_tokens text2 EmptyString token); [intros c [] | exact Hin]. }
  { intros token Hin. apply Htokens, Hsame, Hin. }
  rewrite ParseQuery_unfold, Hparse2. f_equal.
  destruct (parse_loop_words _ _ _ _ Hparse2) as (_ & Hplus2 & Hminus2).
  destruct query as [plus minus], query2 as [plus2 minus2]. simpl in *.
  f_equal; apply set_eq; intros word.
  - rewrite Hplus, Hplus2, Hsame. reflexivity.
  - rewrite Hminus, Hminus2, Hsame. reflexivity.
Qed.

(** X13. The order and the repetitions of the words of a query do not
    matter: two texts with the same words parse to the same query, and a
    search with either returns the same. *)
Theorem ParseQuery_order std_log std_sort server text1 text2 query predict :
  (forall token, In token (SplitIntoWords text1) <-> In token (SplitIntoWords text2)) ->
  ParseQuery server text1 = Ok query ->
  ParseQuery server text2 = Ok query
  /\ (IsValidWord text1 = true -> IsValidWord text2 = true ->
      FindTopDocuments std_log std_sort server text2 predict
      = FindTopDocuments std_log std_sort server text1 predict).
Proof.
  intros Hsame Hparse.
  pose proof (ParseQuery_same_tokens _ _ _ _ Hsame Hparse) as Hparse2.
  split; [exact Hparse2|]. intros Hvalid1 Hvalid2.
  unfold FindTopDocuments. rewrite Hvalid1, Hvalid2, Hparse, Hparse2. reflexivity.
Qed.

Lemma ParseQuery_order_witness :
  FindTopDocuments example_log example_sort cat_server "-dog cat  cat" any_document
  = Ok cat_not_dog_results.
Proof.
  destruct (ParseQuery_order example_log example_sort cat_server "cat -dog" "-dog cat  cat"
              cat_not_dog_query any_document) as [_ Hsearch].
  - intros token. vm_compute. tauto.
  - vm_compute. reflexivity.
  - rewrite Hsearch by reflexivity. vm_compute. reflexivity.
Defined.

(** ** The search, document by document *)

Lemma sorted_items_NoDup {V} (m : gmap Z V) : NoDup (map fst (sorted_items m)).
Proof.
  unfold sorted_items.
  rewrite (Permutation_map fst (insertion_sort_Permutation _ (map_to_list m))).
  apply NoDup_fst_map_to_list.
Qed.

Section SearchByDocument.
Variable std_log : float -> float.
Variable server : SearchServer.
Variable doc_pred : DocPredicate.

(** The inner loop over a posting list visits a document once. *)
Lemma posting_loop_lookup idf (items : list (Z * float)) :
  NoDup (map fst items) ->
  forall acc acc',
    for_each (add_posting server doc_pred idf) items acc = Ok acc' ->
    forall id,
      (forall term_freq,
         In (id, term_freq) items ->
         exists document_info,
           documents_ server !! id = Some document_info
           /\ acc' !! id
              = if doc_pred id (data_status document_info) (data_rating document_info)
                then Some (default 0%float (acc !! id) + term_freq * idf)%float
                else acc !! id)
      /\ ((forall term_freq, ~ In (id, term_freq) items) -> acc' !! id = acc !! id).
Proof.
  induction items as [|[k tf0] items IH]; intros Hnodup acc acc' Hloop id;
    cbn [for_each] in Hloop.
  - injection Hloop as <-. split; [intros ? [] | reflexivity].
  - apply NoDup_cons in Hnodup as [Hk Hnodup]. simpl in Hk.
    destruct (add_posting server doc_pred idf acc (k, tf0)) as [acc1|e] eqn:Hbody;
      [|discriminate].
    destruct (IH Hnodup _ _ Hloop id) as [IHin IHout]. clear IH.
    unfold add_posting in Hbody.
    destruct (documents_ server !! k) as [info|] eqn:Hinfo; [|discriminate].
    assert (Hacc1 : forall id', id' <> k -> acc1 !! id' = acc !! id').
    { intros id' Hne. destruct (doc_pred k _ _); injection Hbody as <-;
        [apply lookup_insert_ne; congruence | reflexivity]. }
    split.
    + intros term_freq [[= <- <-] | Hin].
      * exists info. split; [exact Hinfo|].
        rewrite IHout.
        -- destruct (doc_pred k _ _); injection Hbody as <-;
             [apply lookup_insert_eq | reflexivity].
        -- intros tf Hin. apply Hk, list_elem_of_In, in_map_iff.
           exists (k, tf). auto.
      * assert (Hne : id <> k).
        { intros ->. apply Hk, list_elem_of_In, in_map_iff.
          exists (k, term_freq). auto. }
        destruct (IHin term_freq Hin) as (info' & Hinfo' & Hacc').
        exists info'. split; [exact Hinfo'|].
        rewrite Hacc', Hacc1 by exact Hne. reflexivity.
    + intros Hout.
      assert (Hne : id <> k).
      { intros ->. apply (Hout tf0). left. reflexivity. }
      rewrite IHout, Hacc1 by (exact Hne || (intros tf Hin; apply (Hout tf); right; exact Hin)).
      reflexivity.
Qed.

(** One plus-word adds its term to the relevance of each document. *)
Lemma add_plus_word_lookup acc word acc' :
  add_plus_word std_log server doc_pred acc word = Ok acc' ->
  forall id, acc' !! id = add_term std_log server doc_pred id (acc !! id) word.
Proof.
  rewrite add_plus_word_unfold. unfold add_term. intros Hloop id.
  destruct (word_to_document_freqs_ server !! word) as [postings|] eqn:Hword;
    [|injection Hloop as <-; reflexivity].
  destruct (posting_loop_lookup _ _ (sorted_items_NoDup postings) _ _ Hloop id)
    as [Hin Hout].
  destruct (postings !! id) as [term_freq|] eqn:Hid.
  - destruct (Hin term_freq) as (info & -> & ->); [apply sorted_items_In, Hid|].
    reflexivity.
  - apply Hout. intros term_freq Hitem. apply sorted_items_In in Hitem. congruence.
Qed.

Lemma plus_loop_lookup words : forall acc acc',
  for_each (add_plus_word std_log server doc_pred) words acc = Ok acc' ->
  forall id, acc' !! id = foldl (add_term std_log server doc_pred id) (acc !! id) words.
Proof.
  induction words as [|word words IH]; intros acc acc' Hloop id;
    cbn [for_each foldl] in Hloop |- *.
  - injection Hloop as <-. reflexivity.
  - destruct (add_plus_word std_log server doc_pred acc word) as [acc1|e] eqn:Hword;
      [|discriminate].
    rewrite (IH _ _ Hloop id), (add_plus_word_lookup _ _ _ Hword id). reflexivity.
Qed.

(** A term is added exactly for a word the document has, when the predicate
    accepts the document. *)
Lemma add_term_is_Some id relevance word :
  is_Some (add_term std_log server doc_pred id relevance word) <->
  is_Some relevance
  \/ exists document_info,
       has_word server word id = true
       /\ documents_ server !! id = Some document_info
       /\ doc_pred id (data_status document_info) (data_rating document_info) = true.
Proof.
  unfold add_term. setoid_rewrite has_word_true.
  destruct (word_to_document_freqs_ server !! word) as [postings|] eqn:Hword.
  - destruct (postings !! id) as [term_freq|] eqn:Hid.
    + destruct (documents_ server !! id) as [info|] eqn:Hinfo.
      * destruct (doc_pred id _ _) eqn:Hpred.
        -- split; [intros _; right; exists info; eauto 10 | eauto].
        -- split; [auto|]. intros [? | (info' & _ & [= <-] & Hpred')]; [assumption|].
           congruence.
      * split; [auto | intros [? | (? & _ & ? & _)]; [assumption | discriminate]].
    + split; [auto|].
      intros [? | (? & (? & ? & [= <-] & ?) & _)]; [assumption | congruence].
  - split; [auto|].
    intros [? | (? & (? & ? & ? & ?) & _)]; [assumption | discriminate].
Qed.

Lemma relevance_of_is_Some query id :
  is_Some (relevance_of std_log server doc_pred query id)
  <-> matches_plus server doc_pred query id.
Proof.
  unfold relevance_of, matches_plus.
  assert (Hgen : forall words relevance,
             is_Some (foldl (add_term std_log server doc_pred id) relevance words)
             <-> is_Some relevance
                 \/ exists word document_info,
                      In word words
                      /\ has_word server word id = true
                      /\ documents_ server !! id = Some document_info
                      /\ doc_pred id (data_status document_info)
                                  (data_rating document_info) = true).
  { induction words as [|word words IH]; intros relevance; simpl.
    - split; [auto | intros [? | (? & ? & [] & _)]; assumption].
    - rewrite IH, add_term_is_Some. split.
      + intros [[? | (info & ? & ? & ?)] | (w & info & ? & ?)]; eauto 10.
      + intros [? | (w & info & [<- | ?] & ? & ? & ?)]; eauto 10. }
  rewrite Hgen. split.
  - intros [[? ?] | (word & info & Hin & ?)]; [discriminate|].
    exists word, info. rewrite <- sorted_words_In. tauto.
  - intros (word & info & Hin & ?). right. exists word, info.
    rewrite sorted_words_In. tauto.
Qed.

(** The loops over the minus-words keep a document that has none of them. *)
Lemma erase_postings_keeps (items : list (Z * float)) :
  forall (acc : gmap Z float) document_id relevance,
  acc !! document_id = Some relevance ->
  (forall term_freq, ~ In (document_id, term_freq) items) ->
  foldl (fun acc '(id, _) => delete id acc) acc items !! document_id = Some relevance.
Proof.
  induction items as [|[id tf] items IH]; intros acc document_id relevance Hacc Hout;
    simpl; [exact Hacc|].
  apply IH.
  - rewrite lookup_delete_ne; [exact Hacc|].
    intros ->. apply (Hout tf). left. reflexivity.
  - intros term_freq Hin. apply (Hout term_freq). right. exact Hin.
Qed.

Lemma minus_loop_keeps words : forall acc document_id relevance,
  acc !! document_id = Some relevance ->
  (forall word, In word words -> has_word server word document_id = false) ->
  foldl (erase_minus_word server) acc words !! document_id = Some relevance.
Proof.
  induction words as [|word words IH]; intros acc document_id relevance Hacc Hout;
    simpl; [exact Hacc|].
  apply IH; [|intros w Hin; apply Hout; right; exact Hin].
  unfold erase_minus_word.
  destruct (word_to_document_freqs_ server !! word) as [postings|] eqn:Hword;
    [|exact Hacc].
  apply erase_postings_keeps; [exact Hacc|].
  intros term_freq Hin. apply sorted_items_In in Hin.
  pose proof (Hout word (or_introl eq_refl)) as Hhas.
  rewrite has_word_false in Hhas. rewrite (Hhas postings Hword) in Hin. discriminate.
Qed.

(** The last loop makes one document of each entry of the map. *)
Lemma push_loop_ids (items : list (Z * float)) : forall matched matched',
  for_each (push_document server) items matched = Ok matched' ->
  map doc_id matched' = (map doc_id matched ++ map fst items)%list
  /\ forall id relevance,
       In (id, relevance) items ->
       exists document_info,
         documents_ server !! id = Some document_info
         /\ In {| doc_id := id; relevance := relevance;
                  rating := data_rating document_info |} matched'.
Proof.
  induction items as [|[k rel] items IH]; intros matched matched' Hloop;
    cbn [for_each] in Hloop.
  - injection Hloop as <-. rewrite app_nil_r. split; [reflexivity | intros ? ? []].
  - unfold push_document at 1 in Hloop.
    destruct (documents_ server !! k) as [info|] eqn:Hinfo; [|discriminate].
    destruct (IH _ _ Hloop) as [Hids Hall]. split.
    + rewrite Hids, map_app, <- app_assoc. reflexivity.
    + intros id relevance [[= <- <-] | Hin]; [|apply Hall, Hin].
      exists info. split; [exact Hinfo|].
      assert (Hkept : forall items matched matched' document,
                 for_each (push_document server) items matched = Ok matched' ->
                 In document matched -> In document matched').
      { clear. induction items as [|[k rel] items IH];
          intros matched matched' document Hloop Hin; cbn [for_each] in Hloop.
        - injection Hloop as <-. exact Hin.
        - unfold push_document at 1 in Hloop.
          destruct (documents_ server !! k); [|discriminate].
          apply (IH _ _ _ Hloop). apply in_or_app. left. exact Hin. }
      apply (Hkept _ _ _ _ Hloop). apply in_or_app. right. left. reflexivity.
Qed.

(** The documents [FindAllDocuments] returns: one for each document that
    matches the query, with the relevance summed document by document. *)
Lemma FindAllDocuments_exact query matched :
  FindAllDocuments std_log server query doc_pred = Ok matched ->
  NoDup (map doc_id matched)
  /\ (forall document,
        In document matched ->
        relevance_of std_log server doc_pred query (doc_id document)
        = Some (relevance document))
  /\ (forall id, In id (map doc_id matched) <-> matches server doc_pred query id).
Proof.
  intros Hfind. pose proof Hfind as Hrun. rewrite FindAllDocuments_unfold in Hrun.
  destruct (for_each _ (sorted_words (plus_words query)) ∅) as [acc|e] eqn:Hplus;
    [|discriminate].
  pose proof (plus_loop_lookup _ _ _ Hplus) as Hacc.
  destruct (push_loop_ids _ _ _ Hrun) as [Hids Hall]. simpl in Hids.
  split; [rewrite Hids; apply sorted_items_NoDup|]. split.
  - intros document Hin.
    destruct (push_loop_In server _ _ _ Hrun Hin) as [Hlookup _].
    apply minus_loop_lookup in Hlookup as [Hlookup _].
    rewrite Hacc, lookup_empty in Hlookup. exact Hlookup.
  - intros id. split.
    + intros Hin. apply in_map_iff in Hin as (document & <- & Hin).
      destruct (FindAllDocuments_In _ _ _ _ _ _ Hfind Hin) as (Hmatch & Hminus & _).
      split; assumption.
    + intros [Hmatch Hminus]. apply relevance_of_is_Some in Hmatch as [rel Hrel].
      rewrite Hids. apply in_map_iff. exists (id, rel). split; [reflexivity|].
      apply sorted_items_In, minus_loop_keeps.
      * rewrite Hacc, lookup_empty. exact Hrel.
      * intros word Hword. apply Hminus, sorted_words_In, Hword.
Qed.
End SearchByDocument.

(** ** The inverse document frequency *)

(** A double divided by itself is 1.0. *)
Lemma SFdiv_same m e :
  Zpos (digits2_pos m) = prec -> 1 - prec <= e <= 0 ->
  SFdiv prec emax (S754_finite false m e) (S754_finite false m e) = sf_one.
Proof.
  intros Hdigits He. unfold SFdiv, SFdiv_core_binary.
  rewrite !Zdigits2_pos, Hdigits.
  replace (prec + e - (prec + e)) with 0 by lia.
  replace (e - e) with 0 by lia.
  change (Z.min (fexp prec emax 0) 0) with (-53).
  change (0 - -53) with 53.
  rewrite Z.shiftl_mul_pow2 by lia.
  pose proof (Z.div_mul (2 ^ 53) (Zpos m) ltac:(lia)) as Hdiv.
  pose proof (Z.mod_mul (2 ^ 53) (Zpos m) ltac:(lia)) as Hmod.
  rewrite (Z.mul_comm (2 ^ 53)) in Hdiv, Hmod.
  unfold Z.div in Hdiv. unfold Z.modulo in Hmod.
  destruct (Z.div_eucl (Zpos m * 2 ^ 53) (Zpos m)) as [q r].
  cbn [fst snd] in Hdiv, Hmod. subst q r.
  assert (Hloc : new_location (Zpos m) 0 = loc_Exact).
  { unfold new_location. destruct (Z.even (Zpos m)); reflexivity. }
  rewrite Hloc. reflexivity.
Qed.

Lemma quotient_same (n : Z) :
  0 < n < 2 ^ prec ->
  (of_uint63 (Uint63.of_Z n) * 1 / of_uint63 (Uint63.of_Z n))%float = 1%float.
Proof.
  intros Hn. apply Prim2SF_inj.
  destruct (of_uint63_normal n Hn) as (m & e & Hx & Hdigits & He & _).
  rewrite FloatAxioms.div_spec, FloatAxioms.mul_spec, Prim2SF_one, Hx.
  unfold SF64div, SF64mul.
  rewrite SFmul_one by (assumption || (unfold emin, prec, emax in *; lia)).
  apply SFdiv_same; assumption.
Qed.

(** X14. On a server that calls have produced, with a document count that
    fits in an [int], the inverse document frequency of a word that every
    document holds is the logarithm of exactly 1.0: the quotient of the
    count by itself is not rounded. *)
Theorem ComputeWordInverseDocumentFreq_every_document std_log server word postings :
  reachable server ->
  Z.of_nat (size (documents_ server)) <= INT_MAX ->
  word_to_document_freqs_ server !! word = Some postings ->
  size postings = size (documents_ server) ->
  ComputeWordInverseDocumentFreq std_log server word = Ok (std_log 1%float).
Proof.
  intros Hreach Hcount Hword Hall. apply reachable_consistent in Hreach.
  destruct (consistent_postings_size _ _ _ Hreach Hword) as [Hpos _].
  unfold ComputeWordInverseDocumentFreq. rewrite Hword.
  rewrite GetDocumentCount_small by exact Hcount.
  unfold double_of_int, double_of_size. rewrite Hall.
  destruct (Z.ltb_spec (Z.of_nat (size (documents_ server))) 0); [lia|].
  rewrite quotient_same; [reflexivity|].
  unfold INT_MAX, prec in *. assert (2 ^ 31 < 2 ^ 53) by reflexivity. lia.
Qed.

Lemma ComputeWordInverseDocumentFreq_every_document_witness :
  ComputeWordInverseDocumentFreq example_log
    (added (added new_server 0 "cat dog" ACTUAL [5]) 1 "cat cat mouse" ACTUAL [5])
    "cat"
  = Ok 0%float.
Proof.
  apply (ComputeWordInverseDocumentFreq_every_document example_log
           (added (added new_server 0 "cat dog" ACTUAL [5])
                  1 "cat cat mouse" ACTUAL [5])
           "cat" {[0 := 0x1p-1%float; 1 := 0x1.5555555555555p-1%float]}).
  - exists ["in"; "the"]%string, new_server. split; [vm_compute; reflexivity|].
    do 2 apply added_later. constructor.
  - vm_compute. discriminate.
  - vm_compute. reflexivity.
  - vm_compute. reflexivity.
Defined.

(** ** FindTopDocuments *)

Lemma In_take {A} (x : A) n : forall l, In x (take n l) -> In x l.
Proof.
  induction n as [|n IH]; intros [|a l] Hin; simpl in Hin; try contradiction.
  destruct Hin as [<- | Hin]; [left; reflexivity | right; apply IH, Hin].
Qed.

Lemma NoDup_map_take {A B} (f : A -> B) n : forall l : list A,
  NoDup (map f l) -> NoDup (map f (take n l)).
Proof.
  induction n as [|n IH]; intros [|a l] Hnodup; simpl; try constructor.
  - simpl in Hnodup. apply NoDup_cons in Hnodup as [Ha Hl].
    intros Hin. apply Ha. apply list_elem_of_In in Hin. apply list_elem_of_In.
    apply in_map_iff in Hin as (x & Hx & Hin). apply in_map_iff. exists x.
    split; [exact Hx | eapply In_take, Hin].
  - simpl in Hnodup. apply NoDup_cons in Hnodup as [_ Hl]. apply IH, Hl.
Qed.

Lemma SplitIntoWords_ok text token :
  IsValidWord text = true -> In token (SplitIntoWords text) ->
  token <> EmptyString /\ IsValidWord token = true.
Proof.
  intros Hvalid Hin. split; [|eapply SplitIntoWords_valid; eassumption].
  apply (read_words_tokens text EmptyString token); [intros c [] | exact Hin].
Qed.

(** X15. On a server that calls have produced, [FindTopDocuments] has three
    outcomes: the exception of invalid text, when the query holds a control
    character; the exception of the minus-words, when the query is valid and
    holds a malformed minus-word; and a list of documents otherwise. The
    lookups of the search never fail. *)
Theorem FindTopDocuments_outcome std_log std_sort server raw_query predict :
  reachable server ->
  (IsValidWord raw_query = false
   /\ FindTopDocuments std_log std_sort server raw_query predict
      = Throw (invalid_argument "Invalid word in FindTopDocument function"))
  \/ (IsValidWord raw_query = true
      /\ (exists token, In token (SplitIntoWords raw_query)
                        /\ malformed_minus_token token)
      /\ FindTopDocuments std_log std_sort server raw_query predict = Throw InvalidMinusWord)
  \/ (IsValidWord raw_query = true
      /\ (forall token, In token (SplitIntoWords raw_query) ->
                        ~ malformed_minus_token token)
      /\ exists query docs,
           ParseQuery server raw_query = Ok query
           /\ FindTopDocuments std_log std_sort server raw_query predict = Ok docs).
Proof.
  intros Hreach. apply reachable_consistent in Hreach.
  destruct (IsValidWord raw_query) eqn:Hvalid.
  - right.
    destruct (parse_loop_outcome server (SplitIntoWords raw_query) empty_query)
      as [[query Hparse] | [Hbad Hparse]].
    { intros token. apply SplitIntoWords_ok, Hvalid. }
    + right. split; [reflexivity|].
      split; [intros token Hin; apply (parse_loop_words _ _ _ _ Hparse), Hin|].
      destruct (FindTopDocuments_total std_log std_sort server raw_query predict query
                  Hreach Hvalid Hparse) as [docs Hdocs].
      eauto.
    + left. split; [reflexivity|]. split; [exact Hbad|].
      unfold FindTopDocuments. rewrite Hvalid. simpl.
      rewrite ParseQuery_unfold, Hparse. reflexivity.
  - left. split; [reflexivity|]. unfold FindTopDocuments. rewrite Hvalid. reflexivity.
Qed.

Lemma FindTopDocuments_outcome_witness :
  exists docs,
    FindTopDocuments example_log example_sort cat_server "-cat  house" any_document
    = Ok docs.
Proof.
  destruct (FindTopDocuments_outcome example_log example_sort cat_server "-cat  house"
              any_document cat_server_reachable)
    as [[Hinvalid _] | [(_ & (token & Hin & Hbad) & _) | (_ & _ & query & docs & _ & Hdocs)]].
  - vm_compute in Hinvalid. discriminate.
  - exfalso. vm_compute in Hin.
    destruct Hin as [<- | [<- | []]]; destruct Hbad as [? | [rest ?]]; discriminate.
  - exists docs. exact Hdocs.
Defined.

(** X16. The list [FindTopDocuments] returns is the first five documents of
    the list [std::sort] leaves of all the documents that match the query,
    each of them once, when [std::sort] neither adds nor loses a document: a
    document that has a plus-word of the query, that the predicate accepts
    and that has no minus-word of the query is in the list whenever the list
    has fewer than five documents. *)
Theorem FindTopDocuments_complete std_log std_sort server raw_query predict query docs :
  permutes std_sort ->
  ParseQuery server raw_query = Ok query ->
  FindTopDocuments std_log std_sort server raw_query predict = Ok docs ->
  NoDup (map doc_id docs)
  /\ (exists matched,
        docs = take 5 (std_sort by_relevance matched)
        /\ NoDup (map doc_id matched)
        /\ forall id, In id (map doc_id matched) <-> matches server predict query id)
  /\ ((length docs < 5)%nat ->
      forall id, In id (map doc_id docs) <-> matches server predict query id).
Proof.
  intros Hsort Hparse Hrun.
  destruct (FindTopDocuments_Ok _ _ _ _ _ _ Hrun)
    as (_ & query' & matched & Hparse' & Hfind & ->).
  assert (query' = query) as -> by congruence.
  destruct (FindAllDocuments_exact _ _ _ _ _ Hfind) as (Hnodup & _ & Hmatches).
  assert (Hsorted : NoDup (map doc_id (std_sort by_relevance matched))).
  { rewrite (Permutation_map doc_id (Hsort by_relevance matched)).
    exact Hnodup. }
  split; [apply NoDup_map_take, Hsorted|].
  split; [exists matched; auto|].
  intros Hshort id. rewrite <- Hmatches.
  rewrite take_ge.
  - rewrite !in_map_iff. split; intros (d & <- & Hin); exists d;
      (split; [reflexivity|]);
      [apply (Permutation_in _ (Hsort by_relevance matched))
      |apply (Permutation_in _ (Permutation_sym (Hsort by_relevance matched)))];
      exact Hin.
  - rewrite length_take in Hshort. lia.
Qed.

Lemma FindTopDocuments_complete_witness :
  In 1 (map doc_id cat_not_dog_results)
  <-> matches cat_server any_document cat_not_dog_query 1.
Proof.
  destruct (FindTopDocuments_complete example_log example_sort cat_server "cat -dog"
              any_document cat_not_dog_query cat_not_dog_results) as (_ & _ & Hall).
  - apply example_sort_permutes.
  - vm_compute. reflexivity.
  - vm_compute. reflexivity.
  - apply Hall. simpl. lia.
Defined.

(** X17. The relevance of a document that [FindTopDocuments] returns is the
    sum of the products of term frequency and inverse document frequency over
    the plus-words of the query that the document has, added to 0 in the
    increasing order of the words; its rating is the rating of the table.
    [std::sort] is assumed to add no document. *)
Theorem FindTopDocuments_relevance std_log std_sort server raw_query predict query docs
    document :
  permutes std_sort ->
  ParseQuery server raw_query = Ok query ->
  FindTopDocuments std_log std_sort server raw_query predict = Ok docs ->
  In document docs ->
  relevance_of std_log server predict query (doc_id document)
  = Some (relevance document)
  /\ exists document_info,
       documents_ server !! doc_id document = Some document_info
       /\ rating document = data_rating document_info.
Proof.
  intros Hsort Hparse Hrun Hin.
  destruct (FindTopDocuments_In _ _ _ _ _ _ _ Hsort Hrun Hin)
    as (query' & matched & Hparse' & Hfind & Hin').
  assert (query' = query) as -> by congruence.
  destruct (FindAllDocuments_exact _ _ _ _ _ Hfind) as (_ & Hrel & _).
  split; [apply Hrel, Hin'|].
  apply (FindAllDocuments_In _ _ _ _ _ _ Hfind Hin').
Qed.

Lemma FindTopDocuments_relevance_witness :
  relevance_of example_log cat_server any_document cat_not_dog_query 1
  = Some 0x1.14cc29dd51032p-2%float.
Proof.
  apply (FindTopDocuments_relevance example_log example_sort cat_server "cat -dog" any_document
           cat_not_dog_query cat_not_dog_results
           {| doc_id := 1; relevance := 0x1.14cc29dd51032p-2%float; rating := 5 |}).
  - apply example_sort_permutes.
  - vm_compute. reflexivity.
  - vm_compute. reflexivity.
  - left. reflexivity.
Defined.

(** X18. The search by status returns what the search by predicate returns
    for the predicate that compares the status, and every document it
    returns has that status in the table, [std::sort] adding no document. *)
Theorem FindTopDocuments_status_results std_log std_sort server raw_query status docs :
  permutes std_sort ->
  FindTopDocuments_status std_log std_sort server raw_query status = Ok docs ->
  FindTopDocuments std_log std_sort server raw_query
    (fun _ doc_status _ => bool_decide (doc_status = status)) = Ok docs
  /\ forall document,
       In document docs ->
       exists document_info,
         documents_ server !! doc_id document = Some document_info
         /\ data_status document_info = status
         /\ rating document = data_rating document_info.
Proof.
  intros Hsort. unfold FindTopDocuments_status.
  destruct (negb (IsValidWord raw_query)); [discriminate|].
  intros Hrun. split; [exact Hrun|]. intros document Hin.
  destruct (FindTopDocuments_In _ _ _ _ _ _ _ Hsort Hrun Hin)
    as (query & matched & _ & Hfind & Hin').
  destruct (FindAllDocuments_In _ _ _ _ _ _ Hfind Hin')
    as ((word & info & _ & _ & Hinfo & Hpred) & _ & info' & Hinfo' & Hrating).
  assert (info' = info) as -> by congruence.
  exists info. split; [exact Hinfo|]. split; [|exact Hrating].
  apply bool_decide_eq_true in Hpred. exact Hpred.
Qed.

Lemma FindTopDocuments_status_results_witness :
  FindTopDocuments_status example_log example_sort cat_server "mouse" BANNED
  = Ok [{| doc_id := 2; relevance := 0x1.9f323ecbf984cp-3%float; rating := 2 |}]
  /\ exists document_info,
       documents_ cat_server !! 2 = Some document_info
       /\ data_status document_info = BANNED.
Proof.
  assert (Hrun : FindTopDocuments_status example_log example_sort cat_server "mouse" BANNED
                 = Ok [{| doc_id := 2; relevance := 0x1.9f323ecbf984cp-3%float;
                          rating := 2 |}])
    by (vm_compute; reflexivity).
  split; [exact Hrun|].
  destruct (proj2 (FindTopDocuments_status_results _ _ _ _ _ _ example_sort_permutes Hrun)
              {| doc_id := 2; relevance := 0x1.9f323ecbf984cp-3%float; rating := 2 |})
    as (info & Hinfo & Hstatus & _); [left; reflexivity|].
  exists info. auto.
Defined.

Lemma sorted_words_empty : sorted_words ∅ = [].
Proof. unfold sorted_words. rewrite elements_empty. reflexivity. Qed.

Lemma sorted_items_empty {V} : sorted_items (∅ : gmap Z V) = [].
Proof. unfold sorted_items. rewrite map_to_list_empty. reflexivity. Qed.

Lemma minus_loop_empty server words :
  foldl (erase_minus_word server) ∅ words = ∅.
Proof.
  induction words as [|word words IH]; [reflexivity|]. simpl.
  assert (Hword : erase_minus_word server ∅ word = ∅); [|rewrite Hword; exact IH].
  unfold erase_minus_word.
  destruct (word_to_document_freqs_ server !! word) as [postings|]; [|reflexivity].
  induction (sorted_items postings) as [|[id tf] items IHitems]; [reflexivity|].
  simpl. rewrite delete_empty. exact IHitems.
Qed.

(** X19. A valid query without plus-words finds nothing: when every word of
    the query is a well-formed minus-word or a stop word, and so when the
    query is empty or blank, [FindTopDocuments] returns the empty list,
    whatever the server holds, [std::sort] adding no document. *)
Theorem FindTopDocuments_no_plus_words std_log std_sort server raw_query predict :
  permutes std_sort ->
  IsValidWord raw_query = true ->
  (forall token, In token (SplitIntoWords raw_query) ->
                 ~ malformed_minus_token token) ->
  (forall token, In token (SplitIntoWords raw_query) ->
                 starts_with_minus token = true \/ IsStopWord server token = true) ->
  FindTopDocuments std_log std_sort server raw_query predict = Ok [].
Proof.
  intros Hsort Hvalid Hwell Hminus.
  destruct (parse_loop_accepts server (SplitIntoWords raw_query) empty_query)
    as [query Hparse].
  { intros token Hin. apply (SplitIntoWords_ok raw_query token Hvalid Hin). }
  { intros token Hin. split; [apply (SplitIntoWords_ok raw_query token Hvalid Hin)|].
    apply Hwell, Hin. }
  assert (Hplus : plus_words query = ∅).
  { apply set_eq. intros word.
    rewrite (proj1 (proj2 (parse_loop_words _ _ _ _ Hparse)) word). simpl.
    rewrite elem_of_empty. split; [|tauto].
    intros [[] | (Hin & Hstart & Hstop)].
    destruct (Hminus word Hin); congruence. }
  unfold FindTopDocuments. rewrite Hvalid. simpl.
  rewrite ParseQuery_unfold, Hparse. simpl.
  rewrite FindAllDocuments_unfold, Hplus, sorted_words_empty. cbn [for_each].
  rewrite minus_loop_empty, sorted_items_empty. cbn [for_each].
  unfold mbind, result_mbind, result_bind.
  rewrite (proj1 (Permutation_nil_r _) (Hsort by_relevance [])). reflexivity.
Qed.

Lemma FindTopDocuments_no_plus_words_witness :
  FindTopDocuments example_log example_sort cat_server " -cat  the" any_document = Ok [].
Proof.
  apply FindTopDocuments_no_plus_words.
  - apply example_sort_permutes.
  - reflexivity.
  - intros token Hin [-> | [rest ->]]; vm_compute in Hin;
      destruct Hin as [Hin | [Hin | []]]; discriminate.
  - intros token Hin. vm_compute in Hin.
    destruct Hin as [<- | [<- | []]]; [left | right]; reflexivity.
Defined.

(** ** MatchDocument *)

(** X20. [MatchDocument] has four outcomes, in this order: the exception of
    invalid text, when the query holds a control character; the exception of
    the minus-words, when the query is valid and holds a malformed
    minus-word; [out_of_range], when the document is not in the table; and
    otherwise a list of words with the status of the document. *)
Theorem MatchDocument_outcome server raw_query document_id :
  (IsValidWord raw_query = false
   /\ MatchDocument server raw_query document_id
      = Throw (invalid_argument "Invalid word in MatchDocument function"))
  \/ (IsValidWord raw_query = true
      /\ (exists token, In token (SplitIntoWords raw_query)
                        /\ malformed_minus_token token)
      /\ MatchDocument server raw_query document_id = Throw InvalidMinusWord)
  \/ (IsValidWord raw_query = true
      /\ (forall token, In token (SplitIntoWords raw_query) ->
                        ~ malformed_minus_token token)
      /\ documents_ server !! document_id = None
      /\ MatchDocument server raw_query document_id = Throw out_of_range)
  \/ (IsValidWord raw_query = true
      /\ (forall token, In token (SplitIntoWords raw_query) ->
                        ~ malformed_minus_token token)
      /\ exists document_info words,
           documents_ server !! document_id = Some document_info
           /\ MatchDocument server raw_query document_id
              = Ok (words, data_status document_info)).
Proof.
  unfold MatchDocument. destruct (IsValidWord raw_query) eqn:Hvalid; simpl;
    [right | left; auto].
  rewrite ParseQuery_unfold.
  destruct (parse_loop_outcome server (SplitIntoWords raw_query) empty_query)
    as [[query Hparse] | [Hbad Hparse]].
  { intros token. apply SplitIntoWords_ok, Hvalid. }
  - right. rewrite Hparse. simpl.
    assert (Hwell : forall token, In token (SplitIntoWords raw_query) ->
                                  ~ malformed_minus_token token).
    { intros token Hin. apply (parse_loop_words _ _ _ _ Hparse), Hin. }
    destruct (documents_ server !! document_id) as [info|] eqn:Hinfo.
    + right. split; [reflexivity|]. split; [exact Hwell|]. eauto.
    + left. auto.
  - left. rewrite Hparse. auto.
Qed.

(** X21. Every document [FindTopDocuments] returns matches the query:
    [MatchDocument], for the same query and the document, returns a list of
    words that is not empty, with the status of the document, which the
    predicate of the search has accepted. [std::sort] is assumed to add no
    document. *)
Theorem FindTopDocuments_MatchDocument std_log std_sort server raw_query predict docs document :
  permutes std_sort ->
  FindTopDocuments std_log std_sort server raw_query predict = Ok docs ->
  In document docs ->
  exists words document_info,
    MatchDocument server raw_query (doc_id document)
    = Ok (words, data_status document_info)
    /\ words <> []
    /\ documents_ server !! doc_id document = Some document_info
    /\ predict (doc_id document) (data_status document_info)
                (data_rating document_info) = true
    /\ rating document = data_rating document_info.
Proof.
  intros Hsort Hrun Hin.
  destruct (FindTopDocuments_Ok _ _ _ _ _ _ Hrun) as (Hvalid & _).
  destruct (FindTopDocuments_In _ _ _ _ _ _ _ Hsort Hrun Hin)
    as (query & matched & Hparse & Hfind & Hin').
  destruct (FindAllDocuments_In _ _ _ _ _ _ Hfind Hin')
    as ((word & info & Hword & Hhas & Hinfo & Hpred) & Hminus & info' & Hinfo' & Hrating).
  assert (info' = info) as -> by congruence.
  unfold MatchDocument. rewrite Hvalid, Hparse. simpl.
  change (result_bind ?f (Ok ?a)) with (f a).
  unfold mbind, result_mbind, result_bind. rewrite Hinfo.
  assert (Hnone : existsb (fun word => has_word server word (doc_id document))
                          (sorted_words (minus_words query)) = false).
  { destruct (existsb _ _) eqn:Hsome; [|reflexivity].
    apply existsb_exists in Hsome as (w & Hw & Hhas').
    apply sorted_words_In in Hw. rewrite (Hminus w Hw) in Hhas'. discriminate. }
  rewrite Hnone. eexists. exists info. split; [reflexivity|].
  split; [|auto].
  intros Hempty.
  assert (Hmember : word ∈ filter (fun word => has_word server word (doc_id document) = true)
                                  (sorted_words (plus_words query))).
  { apply list_elem_of_filter. split; [exact Hhas|].
    apply list_elem_of_In, sorted_words_In, Hword. }
  rewrite Hempty in Hmember. apply elem_of_nil in Hmember. exact Hmember.
Qed.

Lemma FindTopDocuments_MatchDocument_witness :
  exists words, MatchDocument cat_server "cat -dog" 1 = Ok (words, ACTUAL) /\ words <> [].
Proof.
  destruct (FindTopDocuments_MatchDocument example_log example_sort cat_server "cat -dog"
              any_document cat_not_dog_results
              {| doc_id := 1; relevance := 0x1.14cc29dd51032p-2%float; rating := 5 |})
    as (words & info & Hmatch & Hne & Hinfo & _).
  - apply example_sort_permutes.
  - vm_compute. reflexivity.
  - left. reflexivity.
  - exists words. vm_compute in Hinfo. injection Hinfo as <-. auto.
Defined.

Lemma sorted_words_singleton word : sorted_words ({[word]} ∪ ∅) = [word].
Proof.
  rewrite (right_id_L ∅ (∪)). unfold sorted_words. rewrite elements_singleton.
  reflexivity.
Qed.

(** The query of one plus-word. *)
Lemma ParseQuery_single server word :
  is_token word -> IsValidWord word = true ->
  starts_with_minus word = false -> IsStopWord server word = false ->
  ParseQuery server word
  = Ok {| plus_words := {[word]} ∪ ∅; minus_words := ∅ |}.
Proof.
  intros Htoken Hvalid Hplus Hstop. unfold ParseQuery.
  rewrite (SplitIntoWords_token word Htoken). cbn [for_each].
  unfold parse_step, ParseQueryWord. rewrite Hplus, Hvalid. simpl negb.
  destruct word as [|c word]; [destruct Htoken as [Hne _]; contradiction|].
  cbn [is_empty orb]. simpl in Hplus |- *. rewrite Hstop, Hplus. reflexivity.
Qed.

(** X22. A document is found by its words: after a successful [AddDocument]
    on a server that calls have produced, [MatchDocument] with a word of the
    document that is not a stop word and does not start with ['-'] returns
    that word and the status given, and a search for the word with a
    predicate that accepts the document returns the document, unless it
    returns five documents, [std::sort] losing no document. *)
Theorem AddDocument_then_MatchDocument std_log std_sort server document_id document status
    ratings server' word predict docs :
  reachable server ->
  AddDocument server document_id document status ratings = (None, server') ->
  In word (SplitIntoWords document) ->
  IsStopWord server word = false ->
  starts_with_minus word = false ->
  MatchDocument server' word document_id = Ok ([word], status)
  /\ (permutes std_sort ->
      predict document_id status (ComputeAverageRating ratings) = true ->
      FindTopDocuments std_log std_sort server' word predict = Ok docs ->
      (length docs < 5)%nat ->
      In document_id (map doc_id docs)).
Proof.
  intros Hreach Hrun Hword Hstop Hplus. apply reachable_consistent in Hreach.
  destruct (AddDocument_cases server document_id document status ratings)
    as [[e Hthrow] | (Hpos & Hfresh & words & Hwords & Hadd)];
    [congruence|].
  rewrite Hadd in Hrun. injection Hrun as <-.
  apply SplitIntoWordsNoStop_Ok in Hwords as [Hvalid ->].
  set (server' := {| stop_words_ := stop_words_ server |}).
  assert (Htoken : is_token word)
    by (apply (read_words_tokens document EmptyString); [intros c [] | exact Hword]).
  assert (Hparse : ParseQuery server' word
                   = Ok {| plus_words := {[word]} ∪ ∅; minus_words := ∅ |})
    by (apply ParseQuery_single; auto).
  assert (Hhas : has_word server' word document_id = true).
  { apply term_freq_of_has_word. unfold term_freq_of, server'. simpl.
    apply (proj2 (add_words_at _ _ _ _ word document_id)). left.
    apply filter_In. rewrite Hstop. auto. }
  assert (Hinfo : documents_ server' !! document_id
                  = Some {| data_rating := ComputeAverageRating ratings;
                            data_status := status |})
    by apply lookup_insert_eq.
  split.
  - unfold MatchDocument. rewrite (Hvalid word Hword), Hparse. simpl.
    change (result_bind ?f (Ok ?a)) with (f a).
    unfold mbind, result_mbind, result_bind.
    cbn [plus_words minus_words]. rewrite sorted_words_singleton, sorted_words_empty.
    change (documents_ server' !! document_id) with
      (<[document_id := {| data_rating := ComputeAverageRating ratings;
                           data_status := status |}]> (documents_ server)
       !! document_id) in Hinfo.
    rewrite Hinfo. cbn [existsb data_status].
    rewrite filter_cons_True by exact Hhas. reflexivity.
  - intros Hsort Hpred Hsearch Hshort.
    destruct (FindTopDocuments_Ok _ _ _ _ _ _ Hsearch)
      as (_ & query & matched & Hparse' & Hfind & ->).
    assert (query = {| plus_words := {[word]} ∪ ∅; minus_words := ∅ |}) as ->
      by congruence.
    destruct (FindAllDocuments_exact _ _ _ _ _ Hfind) as (_ & _ & Hmatches).
    rewrite take_ge by (rewrite length_take in Hshort; lia).
    assert (Hin : In document_id (map doc_id matched)).
    { apply Hmatches. split.
      - exists word, {| data_rating := ComputeAverageRating ratings;
                        data_status := status |}.
        cbn [plus_words]. repeat split; try assumption.
        apply elem_of_union_l, elem_of_singleton. reflexivity.
      - cbn [minus_words]. intros w Hw. apply elem_of_empty in Hw. destruct Hw. }
    apply in_map_iff in Hin as (d & <- & Hin). apply in_map_iff. exists d.
    split; [reflexivity|].
    apply (Permutation_in _ (Permutation_sym (Hsort by_relevance matched))), Hin.
Qed.

Lemma AddDocument_then_MatchDocument_witness :
  MatchDocument cat_server "house" 2 = Ok (["house"]%string, BANNED).
Proof.
  apply (AddDocument_then_MatchDocument example_log example_sort
           (added (added new_server 0 "cat dog" ACTUAL [5])
                  1 "cat cat mouse" ACTUAL [5])
           2 "mouse in the house" BANNED [1; 2; 3] cat_server "house"
           any_document []).
  - exists ["in"; "the"]%string, new_server. split; [vm_compute; reflexivity|].
    do 2 apply added_later. constructor.
  - vm_compute. reflexivity.
  - vm_compute. auto.
  - vm_compute. reflexivity.
  - reflexivity.
Defined.

(** ** The request queue, call by call *)

Lemma stamped_app time counts count :
  stamped time (counts ++ [count])
  = (stamped time counts
     ++ [{| timestamp := time + Z.of_nat (length counts) + 1; results := count |}])%list.
Proof.
  revert time. induction counts as [|c counts IH]; intros time.
  - simpl. rewrite Z.add_0_r. reflexivity.
  - cbn [app stamped length]. rewrite IH.
    replace (time + 1 + Z.of_nat (length counts) + 1)
      with (time + Z.of_nat (S (length counts)) + 1) by lia.
    reflexivity.
Qed.

Lemma count_no_results_stamped time counts :
  count_no_results (stamped time counts)
  = Z.of_nat (length (List.filter (fun count => count =? 0) counts)).
Proof.
  revert time. induction counts as [|c counts IH]; intros time; [reflexivity|].
  cbn [stamped List.filter]. rewrite count_no_results_cons, IH. simpl results.
  rewrite (Z.eqb_sym 0 c). destruct (c =? 0); simpl length; lia.
Qed.

(** The requests of the last day, among requests stamped in order. *)
Lemma filter_in_day_stamped current_time counts : forall time,
  filter (in_day current_time) (stamped time counts)
  = stamped (time + Z.of_nat (Z.to_nat (current_time - min_in_day_ - time)))
            (drop (Z.to_nat (current_time - min_in_day_ - time)) counts).
Proof.
  induction counts as [|c counts IH]; intros time.
  - rewrite drop_nil. reflexivity.
  - cbn [stamped]. destruct (Z.le_gt_cases (current_time - min_in_day_ - time) 0)
      as [Hkept | Hdropped].
    + rewrite filter_cons_True by (unfold in_day; simpl; lia).
      rewrite IH.
      replace (Z.to_nat (current_time - min_in_day_ - (time + 1))) with 0%nat by lia.
      replace (Z.to_nat (current_time - min_in_day_ - time)) with 0%nat by lia.
      simpl. rewrite !Z.add_0_r. reflexivity.
    + rewrite filter_cons_False by (unfold in_day; simpl; lia).
      rewrite IH.
      replace (Z.to_nat (current_time - min_in_day_ - time))
        with (S (Z.to_nat (current_time - min_in_day_ - (time + 1)))) by lia.
      simpl drop. f_equal. lia.
Qed.

(** X23. After any number of calls of [AddRequest] below 2^64 on a new
    queue, the queue holds the requests of the last 1440 calls, each with the
    tick of its call, and [GetNoResultRequests] is the number of those that
    found nothing. *)
Theorem AddRequest_last_day counts :
  Z.of_nat (length counts) < 2 ^ 64 ->
  requests_ (foldl AddRequest MakeRequestQueue counts)
  = stamped (Z.of_nat (length counts - 1440)) (drop (length counts - 1440) counts)
  /\ GetNoResultRequests (foldl AddRequest MakeRequestQueue counts)
     = Z.of_nat (length (List.filter (fun count => count =? 0)
                                     (drop (length counts - 1440) counts)))
  /\ current_time_ (foldl AddRequest MakeRequestQueue counts)
     = Z.of_nat (length counts).
Proof.
  intros Hclock.
  assert (Hinv : window (foldl AddRequest MakeRequestQueue counts)
                 /\ requests_ (foldl AddRequest MakeRequestQueue counts)
                    = stamped (Z.of_nat (length counts - 1440))
                              (drop (length counts - 1440) counts)
                 /\ current_time_ (foldl AddRequest MakeRequestQueue counts)
                    = Z.of_nat (length counts)).
  { induction counts as [|count counts IH] using rev_ind.
    - split; [apply MakeRequestQueue_window | split; reflexivity].
    - rewrite length_app in Hclock |- *. simpl length in Hclock |- *.
      destruct IH as (Hwindow & Hrequests & Htime); [lia|].
      rewrite foldl_app. cbn [foldl].
      set (queue := foldl AddRequest MakeRequestQueue counts) in *.
      destruct (AddRequest_window queue count Hwindow) as [Hwindow' Htime']; [lia|].
      split; [exact Hwindow'|]. split; [|rewrite Htime', Htime; lia].
      rewrite (AddRequest_requests queue count Hwindow) by lia. cbn [requests_].
      rewrite Hrequests, Htime, filter_in_day_stamped.
      set (n := length counts) in *.
      assert (Hk : (n - 1440 + Z.to_nat (Z.of_nat n + 1 - min_in_day_
                                         - Z.of_nat (n - 1440)) = n + 1 - 1440)%nat)
        by (unfold min_in_day_; lia).
      rewrite drop_drop, Hk.
      rewrite drop_app_le by (fold n; lia).
      rewrite stamped_app. f_equal; [f_equal; lia|].
      rewrite length_drop. fold n. do 2 f_equal. lia. }
  destruct Hinv as (Hwindow & Hrequests & Htime).
  split; [exact Hrequests|]. split; [|exact Htime].
  unfold GetNoResultRequests.
  rewrite (window_count _ Hwindow), Hrequests. apply count_no_results_stamped.
Qed.

Lemma AddRequest_last_day_witness :
  GetNoResultRequests (foldl AddRequest MakeRequestQueue [0; 3; 0]) = 2.
Proof.
  destruct (AddRequest_last_day [0; 3; 0]) as (_ & Hcount & _).
  - reflexivity.
  - exact Hcount.
Defined.

(** ** Paginator *)

Lemma consecutive_le first last pages : consecutive first last pages -> first <= last.
Proof.
  revert first. induction pages as [|page pages IH]; intros first; simpl.
  - lia.
  - intros (_ & Hlt & Hrest). apply IH in Hrest. lia.
Qed.

(** Consecutive ranges tile the part of the container they cover. *)
Lemma consecutive_concat {A} (c : list A) pages : forall first last,
  0 <= first ->
  consecutive first last pages ->
  concat (map (range_items c) pages)
  = take (Z.to_nat (last - first)) (drop (Z.to_nat first) c).
Proof.
  induction pages as [|page pages IH]; intros first last Hfirst; simpl.
  - intros <-. rewrite Z.sub_diag. reflexivity.
  - intros (Hpage & Hlt & Hrest). pose proof (consecutive_le _ _ _ Hrest) as Hle.
    rewrite (IH (last_ page) last) by (assumption || lia).
    unfold range_items. rewrite Hpage.
    replace (Z.to_nat (last_ page))
      with (Z.to_nat first + Z.to_nat (last_ page - first))%nat by lia.
    rewrite <- drop_drop, take_take_drop. f_equal. lia.
Qed.

Section Pages.
Variable page_size : Z.
Hypothesis page_size_positive : 0 < page_size.

(** With a positive page size the loop ends within [left] iterations. *)
Lemma paginate_loop_pages fuel : forall first left pages,
  0 <= left < 2 ^ 64 -> left <= Z.of_nat fuel ->
  exists new,
    paginate_loop fuel page_size first left pages = Some (pages ++ new)%list
    /\ consecutive first (first + left) new
    /\ Forall (fun page => 0 < size_ page <= page_size
                           /\ size_ page = last_ page - first_ page) new
    /\ Z.of_nat (length new) = (left + page_size - 1) / page_size
    /\ forall i page, new !! i = Some page -> (S i < length new)%nat ->
                      size_ page = page_size.
Proof.
  induction fuel as [|fuel IH]; intros first left pages Hleft Hfuel;
    cbn [paginate_loop]; destruct (Z.ltb_spec 0 left) as [Hpos | Hzero];
    try lia.
  - exists []. rewrite app_nil_r. assert (left = 0) as -> by lia.
    repeat split; [simpl; lia | constructor | | intros i page Hi; discriminate].
    simpl. symmetry. apply Z.div_small. lia.
  - set (current := Z.min page_size left).
    assert (Hcurrent : 0 < current <= left /\ current <= page_size)
      by (unfold current; lia).
    assert (Hwrap : uint64_wrap (left - current) = left - current)
      by (unfold uint64_wrap; apply Z.mod_small; lia).
    rewrite Hwrap.
    destruct (IH (first + current) (left - current)
                 (pages ++ [MakeIteratorRange first (first + current)])%list)
      as (new & Hloop & Hcons & Hsizes & Hcount & Hfull); [lia | lia |].
    exists (MakeIteratorRange first (first + current) :: new).
    assert (Hsize : size_ (MakeIteratorRange first (first + current)) = current).
    { simpl. replace (first + current - first) with current by lia.
      unfold uint64_wrap. apply Z.mod_small. lia. }
    rewrite Hloop, <- app_assoc. split; [reflexivity|].
    split; [|split; [|split]].
    + simpl. split; [reflexivity|]. split; [lia|].
      replace (first + left) with (first + current + (left - current)) by lia.
      exact Hcons.
    + constructor; [|exact Hsizes]. rewrite Hsize. simpl. lia.
    + cbn [length]. rewrite Nat2Z.inj_succ, Hcount.
      destruct (Z.le_gt_cases page_size left) as [Hfull' | Hlast].
      * replace current with page_size by (unfold current; lia).
        replace (left + page_size - 1) with (left - page_size + page_size - 1
                                             + 1 * page_size) by lia.
        rewrite Z.div_add by lia. lia.
      * replace current with left by (unfold current; lia).
        replace (left - left + page_size - 1) with (page_size - 1) by lia.
        rewrite Z.div_small by lia.
        replace (left + page_size - 1) with (left - 1 + 1 * page_size) by lia.
        rewrite Z.div_add, Z.div_small by lia. lia.
    + intros [|i] page Hi Hmore; simpl in Hi, Hmore.
      * injection Hi as <-. rewrite Hsize.
        destruct (Z.le_gt_cases page_size left) as [Hfull' | Hlast];
          [unfold current; lia|].
        exfalso. assert (left - current = 0) by (unfold current; lia).
        rewrite H, Z.div_small in Hcount by lia.
        destruct new; simpl in Hcount, Hmore; lia.
      * apply (Hfull i page Hi). lia.
  - exists []. rewrite app_nil_r. assert (left = 0) as -> by lia.
    repeat split; [simpl; lia | constructor | | intros i page Hi; discriminate].
    simpl. symmetry. apply Z.div_small. lia.
Qed.
End Pages.

(** X24. With a page size above zero, [Paginate] ends within as many
    iterations as the container has elements. Its pages follow one another
    and hold, together and in order, the elements of the container; no page
    is empty, every page but the last has [page_size] elements and the last
    has at most as many, so that the pages are as many as the quotient of the
    number of elements by the page size, rounded up. *)
Theorem Paginate_pages {A} (c : list A) (page_size : Z) (fuel : nat) :
  0 < page_size ->
  Z.of_nat (length c) < 2 ^ 64 ->
  (length c <= fuel)%nat ->
  exists paginator,
    Paginate fuel c page_size = Some paginator
    /\ concat (map (range_items c) (pages_ paginator)) = c
    /\ Forall (fun page => 0 < size_ page <= page_size
                           /\ size_ page = Z.of_nat (length (range_items c page)))
              (pages_ paginator)
    /\ Paginator_size paginator
       = (Z.of_nat (length c) + page_size - 1) / page_size
    /\ forall i page,
         pages_ paginator !! i = Some page ->
         (S i < length (pages_ paginator))%nat ->
         size_ page = page_size.
Proof.
  intros Hpage Hsize Hfuel. unfold Paginate, MakePaginator.
  rewrite Z.sub_0_r.
  assert (Hwrap : uint64_wrap (Z.of_nat (length c)) = Z.of_nat (length c))
    by (unfold uint64_wrap; apply Z.mod_small; lia).
  rewrite Hwrap.
  destruct (paginate_loop_pages page_size Hpage fuel 0 (Z.of_nat (length c)) [])
    as (pages & Hloop & Hcons & Hsizes & Hcount & Hfull); [lia | lia |].
  rewrite Hloop. simpl app. exists {| pages_ := pages |}. cbn [pages_].
  assert (Hconcat : concat (map (range_items c) pages) = c).
  { rewrite (consecutive_concat c pages 0 (0 + Z.of_nat (length c))) by (lia || assumption).
    simpl drop. apply take_ge. lia. }
  split; [reflexivity|]. split; [exact Hconcat|].
  split; [|split; [|exact Hfull]].
  2: { unfold Paginator_size, uint64_wrap. cbn [pages_]. rewrite Hcount.
       apply Z.mod_small. split; [apply Z.div_pos; lia|].
       apply Z.div_lt_upper_bound; [lia | nia]. }
  clear Hloop Hcount Hfull Hconcat.
  assert (Hgen : forall first last,
             0 <= first -> last <= Z.of_nat (length c) ->
             consecutive first last pages ->
             Forall (fun page => 0 < size_ page <= page_size
                                 /\ size_ page = last_ page - first_ page) pages ->
             Forall (fun page => 0 < size_ page <= page_size
                                 /\ size_ page = Z.of_nat (length (range_items c page)))
                    pages).
  { clear. induction pages as [|page pages IH]; intros first last Hfirst Hlast Hcons Hsizes;
      [constructor|].
    destruct Hcons as (Hpage & Hlt & Hrest).
    apply Forall_cons in Hsizes as [[Hrange Hsize] Hsizes].
    pose proof (consecutive_le _ _ _ Hrest) as Hle.
    constructor; [|apply (IH (last_ page) last); assumption || lia].
    split; [exact Hrange|]. rewrite Hsize. unfold range_items.
    rewrite length_take, length_drop. lia. }
  apply (Hgen 0 (0 + Z.of_nat (length c))); (lia || assumption).
Qed.

Lemma Paginate_pages_witness :
  exists paginator,
    Paginate 5 ["a"; "b"; "c"; "d"; "e"]%string 2 = Some paginator
    /\ map (range_items ["a"; "b"; "c"; "d"; "e"]%string) (pages_ paginator)
       = [["a"; "b"]; ["c"; "d"]; ["e"]]%string.
Proof.
  destruct (Paginate_pages ["a"; "b"; "c"; "d"; "e"]%string 2 5)
    as (paginator & Hrun & _); [lia | reflexivity | simpl; lia |].
  exists paginator. split; [exact Hrun|].
  vm_compute in Hrun. injection Hrun as <-. reflexivity.
Defined.

Lemma paginate_loop_zero fuel : forall first left pages,
  0 < left < 2 ^ 64 ->
  paginate_loop fuel 0 first left pages = None.
Proof.
  induction fuel as [|fuel IH]; intros first left pages Hleft; cbn [paginate_loop];
    destruct (Z.ltb_spec 0 left); try lia; [reflexivity|].
  replace (Z.min 0 left) with 0 by lia.
  rewrite Z.sub_0_r.
  replace (uint64_wrap left) with left
    by (unfold uint64_wrap; symmetry; apply Z.mod_small; lia).
  apply IH. exact Hleft.
Qed.

(** X25. [Paginate] makes no page of an empty container, whatever the page
    size; of a container that is not empty, with the page size zero, it
    never ends: the loop stays at the start of the container and adds one
    empty page after another. *)
Theorem Paginate_page_size_zero {A} (c : list A) (page_size : Z) (fuel : nat) :
  Paginate fuel (@nil A) page_size = Some {| pages_ := [] |}
  /\ (c <> [] -> Z.of_nat (length c) < 2 ^ 64 -> Paginate fuel c 0 = None).
Proof.
  split.
  - unfold Paginate, MakePaginator. destruct fuel; reflexivity.
  - intros Hne Hsize. unfold Paginate, MakePaginator. rewrite Z.sub_0_r.
    replace (uint64_wrap (Z.of_nat (length c))) with (Z.of_nat (length c))
      by (unfold uint64_wrap; symmetry; apply Z.mod_small; lia).
    rewrite paginate_loop_zero; [reflexivity|].
    destruct c; [contradiction | simpl length in *; lia].
Qed.

Lemma Paginate_page_size_zero_witness :
  Paginate 1000 ["a"; "b"]%string 0 = None.
Proof.
  apply (proj2 (Paginate_page_size_zero ["a"; "b"]%string 0 1000)).
  - discriminate.
  - reflexivity.
Defined.
